(** * jellysoul: glyph generation, similarity graph and cluster detection

    A shallow embedding of the algorithmic core of the visualisation
    (SubjectivityExtractor, EmotiveArt, IsotypeRenderer, VisualizationApp,
    ClusterFusion, DataLoader) together with the properties stated for it.

    Conventions of the embedding.
    - [cosineSimilarity] is written over an interface of arithmetic
      operations and read over IEEE 754 binary64 (the primitive floats,
      which are the numbers of JavaScript) and over the real numbers.
    - Elsewhere, JavaScript numbers that only go through field operations
      and comparisons are rationals ([Q]); numbers that go through
      [Math.sqrt], [Math.sin], [Math.cos] or [Math.PI] are real numbers
      ([R]).  There the rounding of binary64 is not modelled: a property
      that depends on it carries the hypotheses that keep the intermediate
      numbers finite, and its bounds leave room for rounding.  The overflow
      of a number to an infinity is modelled in [generateColorFromSemantic],
      whose result depends on it.
    - [Math.random()] is an oracle [nat -> Q] (or [nat -> R]) indexed by the
      number of draws made so far; the draw counter is threaded explicitly.
    - Node objects are compared by identity in the source; an object is
      represented by a natural number.
    - A JavaScript [Set] iterated in insertion order is a duplicate-free
      list; a [Set] or [Map] that is only queried is a [gset] or [gmap]. *)

From Stdlib Require Import ZArith QArith Qround Qminmax Qabs Reals Psatz.
From Stdlib Require Import List String Ascii DecimalString DecimalNat.
From Stdlib Require Import DecimalFacts Sorted.
From Stdlib Require Floats.
From stdpp Require Import base gmap sets list strings.

(* ===================================================================== *)
(** * Part I: the model                                                   *)
(* ===================================================================== *)

(** ** JavaScript strings and the regular expressions of the extractor *)

Module JS.

(** A string is its sequence of UTF-16 code units. *)
Definition text : Type := list N.

(** The code units of an ASCII literal. *)
Fixpoint lit (s : string) : text :=
  match s with
  | EmptyString => []
  | String a s' => N_of_ascii a :: lit s'
  end.

Local Open Scope N_scope.

(** [\w]: [A-Za-z0-9_]. *)
Definition is_word_char (c : N) : bool :=
  ((48 <=? c) && (c <=? 57)) || ((65 <=? c) && (c <=? 90))
  || (c =? 95) || ((97 <=? c) && (c <=? 122)).

(** [\s], which is also what [trim] removes: white space and line
    terminators. *)
Definition is_whitespace (c : N) : bool :=
  ((9 <=? c) && (c <=? 13)) || (c =? 32) || (c =? 160) || (c =? 5760)
  || ((8192 <=? c) && (c <=? 8202)) || (c =? 8232) || (c =? 8233)
  || (c =? 8239) || (c =? 8287) || (c =? 12288) || (c =? 65279).

(** The code units [.] does not match. *)
Definition is_line_terminator (c : N) : bool :=
  (c =? 10) || (c =? 13) || (c =? 8232) || (c =? 8233).

(** [toLowerCase].  The mapping is exact on every code unit whose lower case
    contains an ASCII code unit: [A-Z], U+0130 (which becomes [i] followed by
    U+0307) and U+212A (the Kelvin sign, which becomes [k]).  Other non-ASCII
    code units are kept as they are: the extractor only looks for ASCII
    patterns and [\w] in the lowered text, so their lower case is never
    observed. *)
Definition lower_unit (c : N) : text :=
  if (65 <=? c) && (c <=? 90) then [c + 32]
  else if c =? 304 then [105; 775]
  else if c =? 8490 then [107]
  else [c].

Definition toLowerCase (t : text) : text := flat_map lower_unit t.

Close Scope N_scope.

Fixpoint starts_with (pat t : text) : bool :=
  match pat, t with
  | [], _ => true
  | p :: pat', c :: t' => N.eqb p c && starts_with pat' t'
  | _ :: _, [] => false
  end.

Definition is_word (c : option N) : bool :=
  match c with Some c => is_word_char c | None => false end.

(** [\b] between the code units [prev] and [next] ([None] at either end of
    the string). *)
Definition word_boundary (prev next : option N) : bool :=
  xorb (is_word prev) (is_word next).

(** Whether the literal [pat] matches at the current position, where [prev]
    is the code unit before the position and [t] the rest of the string;
    with [bounded], the pattern is [\bpat\b]. *)
Definition matches_at (bounded : bool) (prev : option N) (t : text)
    (pat : text) : bool :=
  starts_with pat t
  && (negb bounded
      || (word_boundary prev (head t)
          && word_boundary (from_option Some prev (last pat))
               (head (drop (length pat) t)))).

(** Number of matches of a global regular expression whose body is an
    alternation of non-empty literals, [/lit1|lit2|.../g], or with [bounded]
    [/\b(lit1|lit2|...)\b/g]: the string is scanned from left to right, at
    each position the first alternative that matches is taken, and the scan
    resumes after the match.  [skip] is the number of code units of the last
    match still to be passed over. *)
Fixpoint count_matches_from (bounded : bool) (alts : list text)
    (prev : option N) (t : text) (skip : nat) : nat :=
  match t with
  | [] => 0
  | c :: t' =>
      match skip with
      | S k => count_matches_from bounded alts (Some c) t' k
      | O =>
          match List.find (matches_at bounded prev t) alts with
          | Some pat =>
              S (count_matches_from bounded alts (Some c) t' (length pat - 1))
          | None => count_matches_from bounded alts (Some c) t' 0
          end
      end
  end.

(** [(t.match(new RegExp(indicator, 'g')) || []).length] *)
Definition count_literal (indicator : string) (t : text) : nat :=
  count_matches_from false [lit indicator] None t 0.

(** [(t.match(new RegExp(`\\b${word}\\b`, 'g')) || []).length] *)
Definition count_word (word : string) (t : text) : nat :=
  count_matches_from true [lit word] None t 0.

(** [(t.match(/\b(a|b|...)\b/g) || []).length] *)
Definition count_words_alt (alts : list string) (t : text) : nat :=
  count_matches_from true (map lit alts) None t 0.

(** [(t.match(/c/g) || []).length] for a single character [c]. *)
Definition count_char (c : N) (t : text) : nat :=
  length (List.filter (N.eqb c) t).

(** [(t.match(/(.)\1{2,}/g) || []).length]: the greedy quantifier takes a
    whole run of equal code units, so this is the number of maximal runs of
    at least three equal code units other than line terminators.  [prev] is
    the code unit of the current run and [len] its length so far. *)
Fixpoint count_repetitions_from (prev : option N) (len : nat) (t : text) : nat :=
  match t with
  | [] => 0
  | c :: t' =>
      if is_line_terminator c then count_repetitions_from None 0 t'
      else if bool_decide (prev = Some c)
      then (if (len =? 2)%nat then 1 else 0) + count_repetitions_from prev (S len) t'
      else count_repetitions_from (Some c) 1 t'
  end.

Definition count_repetitions (t : text) : nat := count_repetitions_from None 0 t.

(** [t.split(/\s+/).length]: one more than the number of maximal runs of
    white space.  [in_space] tells whether the previous code unit was white
    space. *)
Fixpoint count_space_runs (in_space : bool) (t : text) : nat :=
  match t with
  | [] => 0
  | c :: t' =>
      if is_whitespace c
      then (if in_space then 0 else 1) + count_space_runs true t'
      else count_space_runs false t'
  end.

Definition split_spaces_length (t : text) : nat := S (count_space_runs false t).

(** [t.split(/[...]/)] for a class [sep] of single code units; [piece] is the
    piece being read. *)
Fixpoint split_from (sep : N -> bool) (piece : text) (t : text) : list text :=
  match t with
  | [] => [piece]
  | c :: t' =>
      if sep c then piece :: split_from sep [] t'
      else split_from sep (piece ++ [c]) t'
  end.

Definition split_class (sep : N -> bool) (t : text) : list text :=
  split_from sep [] t.

(** [s.trim().length > 0] *)
Definition trim_nonempty (s : text) : bool := existsb (fun c => negb (is_whitespace c)) s.

(** [t.match(/\b\w+\b/g) || []]: the maximal runs of word characters. *)
Fixpoint words_from (word : text) (t : text) : list text :=
  match t with
  | [] => match word with [] => [] | _ => [word] end
  | c :: t' =>
      if is_word_char c then words_from (word ++ [c]) t'
      else match word with
           | [] => words_from [] t'
           | _ => word :: words_from [] t'
           end
  end.

Definition match_words (t : text) : list text := words_from [] t.

(** [new Set(words).size] *)
Definition Set_size (words : list text) : nat := length (remove_dups words).

(** [value || fallback] for a number that may be missing: [undefined] and
    [0] are both falsy. *)
Definition or_number (value : option Q) (fallback : Q) : Q :=
  match value with
  | Some v => if Qeq_bool v 0%Q then fallback else v
  | None => fallback
  end.

(** [Math.max(...values)] for a non-empty array. *)
Definition Math_max (values : list Q) : Q :=
  match values with
  | [] => 0%Q
  | v :: rest => fold_left Qmax rest v
  end.

(** Sum of an array of numbers by [reduce((a, b) => a + b, 0)]. *)
Definition sum (values : list Q) : Q := fold_left Qplus values 0%Q.

End JS.

(** ** JavaScript numbers *)

Module JSNumber.

(** The operations that [cosineSimilarity] performs on numbers.  The
    function is written once over this interface; it is read over the
    binary64 numbers of JavaScript and over the real numbers. *)
Class Arithmetic (num : Type) : Type := {
  of_nat : nat -> num;
  add : num -> num -> num;
  mul : num -> num -> num;
  div : num -> num -> num;
  sqrt : num -> num;
  is_zero : num -> bool
}.

(** IEEE 754 binary64 with rounding to nearest, ties to even: the numbers
    of JavaScript.  [x === 0] holds of both zeros and not of NaN. *)
#[export] Instance binary64 : Arithmetic PrimFloat.float := {|
  of_nat n := PrimFloat.of_uint63 (Uint63.of_Z (Z.of_nat n));
  add := PrimFloat.add;
  mul := PrimFloat.mul;
  div := PrimFloat.div;
  sqrt := PrimFloat.sqrt;
  is_zero x := PrimFloat.eqb x PrimFloat.zero
|}.

(** The real numbers: arithmetic without rounding, overflow or NaN. *)
#[export] Instance exact : Arithmetic R := {|
  of_nat := INR;
  add := Rplus;
  mul := Rmult;
  div := Rdiv;
  sqrt := R_sqrt.sqrt;
  is_zero x := if Req_dec_T x 0 then true else false
|}.

End JSNumber.

(** ** SubjectivityExtractor (subjectivityExtractor.js) *)

Module SubjectivityExtractor.
Import JS.
Local Open Scope Q_scope.

(** A count used as a number. *)
Definition Qnat (n : nat) : Q := inject_Z (Z.of_nat n).

(** [x < y] on numbers. *)
Definition Qltb (x y : Q) : bool := negb (Qle_bool y x).

(** [indicators.reduce((sum, w) => sum + (t.match(...) || []).length, 0)] *)
Definition count_indicators (count : string -> text -> nat)
    (indicators : list string) (t : text) : nat :=
  fold_left (fun sum indicator => (sum + count indicator t)%nat) indicators 0%nat.

(** A [scores] object: its properties in the order they were written. *)
Definition scores : Type := list (string * Q).

(** [Math.max(...Object.values(scores))] *)
Definition max_score (s : scores) : Q := Math_max (map snd s).

(** [Object.keys(scores).find(key => scores[key] === maxScore)];
    [None] is [undefined]. *)
Definition find_key (s : scores) (maxScore : Q) : option string :=
  fst <$> List.find (fun kv => Qeq_bool (snd kv) maxScore) s.

(** *** The parts of a subjectivity profile *)

Record narrative_style : Type := mkNarrative {
  narrative_type : option string;
  narrative_score : Q;
  narrative_distribution : option scores
}.

Record emotional_expression : Type := mkEmotional {
  emotional_level : string;
  emotional_intensity : Q
}.

Record temporal_orientation : Type := mkTemporal {
  temporal_orientation_name : string;
  temporal_score : Q;
  temporal_distribution : option scores
}.

Record self_reference : Type := mkSelfReference {
  self_reference_level : string;
  self_reference_score : Q
}.

Record complexity : Type := mkComplexity {
  complexity_level : string;
  complexity_score : Q
}.

Record authenticity : Type := mkAuthenticity {
  authenticity_style : option string;
  authenticity_score : Q;
  authenticity_distribution : option scores
}.

Record expression_mode : Type := mkExpressionMode {
  expression_mode_name : string;
  expression_mode_score : Q
}.

Record subjectivity : Type := mkSubjectivity {
  subj_narrative_style : narrative_style;
  subj_emotional_expression : emotional_expression;
  subj_temporal_orientation : temporal_orientation;
  subj_self_reference : self_reference;
  subj_complexity : complexity;
  subj_authenticity : authenticity;
  subj_rhythm : Q;
  subj_reflection_depth : Q;
  subj_expression_mode : expression_mode;
  subj_uniqueness : Q
}.

(** *** The node objects read by the extractor and the renderer *)

(** [node.isotype_signature]; a missing property is [None]. *)
Record isotype_signature : Type := mkIsotypeSignature {
  semantic : option (list Q);
  emotion : option (list Q);
  uniqueness_score : option Q
}.

Record node : Type := mkNode {
  text_content : option text;
  node_isotype_signature : option isotype_signature;
  metadata_text_length : option Q;
  visual_properties_color : option string
}.

(** [!text] for a string. *)
Definition is_empty (t : text) : bool := match t with [] => true | _ => false end.

(** *** analyzeNarrativeStyle *)

Definition narrative_counts (lowerText : text) : nat * nat * nat * nat :=
  (count_indicators count_literal
     ["i said"; "i did"; "i went"; "i was"; "i am"] lowerText,
   count_indicators count_literal
     ["i think"; "i feel"; "i believe"; "i realize"; "i understand";
      "reflection"; "looking back"] lowerText,
   count_indicators count_literal
     ["like"; "as if"; "as though"; "metaphor"; "symbol"] lowerText,
   count_indicators count_literal
     ["you know"; "i mean"; "like i said"; "you know what"; "sayin"] lowerText).

Definition narrative_total (lowerText : text) : nat :=
  let '(directCount, reflectiveCount, metaphoricalCount, conversationalCount) :=
    narrative_counts lowerText in
  (directCount + reflectiveCount + metaphoricalCount + conversationalCount)%nat.

Definition analyzeNarrativeStyle (text : text) : narrative_style :=
  if is_empty text then mkNarrative (Some "conversational") 0.5 None
  else
    let lowerText := toLowerCase text in
    let '(directCount, reflectiveCount, metaphoricalCount, conversationalCount) :=
      narrative_counts lowerText in
    let total := narrative_total lowerText in
    if (total =? 0)%nat then mkNarrative (Some "conversational") 0.5 None
    else
      let scores :=
        [("direct", Qnat directCount / Qnat total);
         ("reflective", Qnat reflectiveCount / Qnat total);
         ("metaphorical", Qnat metaphoricalCount / Qnat total);
         ("conversational", Qnat conversationalCount / Qnat total)] in
      let maxScore := max_score scores in
      mkNarrative (find_key scores maxScore) maxScore (Some scores).

(** *** analyzeEmotionalExpression *)

Definition emotional_level_of (normalizedIntensity : Q) : string :=
  if Qltb normalizedIntensity 0.3 then "reserved"
  else if Qltb normalizedIntensity 0.6 then "moderate"
  else if Qltb normalizedIntensity 0.8 then "expressive"
  else "intense".

Definition analyzeEmotionalExpression (text : text) (emotion : list Q)
    : emotional_expression :=
  if is_empty text then mkEmotional "moderate" 0.5
  else
    let lowerText := toLowerCase text in
    let intenseCount := count_indicators count_word
      ["love"; "hate"; "terrible"; "amazing"; "devastated"; "ecstatic";
       "horrible"; "wonderful"] lowerText in
    let moderateCount := count_indicators count_word
      ["happy"; "sad"; "angry"; "worried"; "excited"; "disappointed"] lowerText in
    let reservedCount := count_indicators count_word
      ["okay"; "fine"; "alright"; "good"; "bad"] lowerText in
    let emotionIntensity :=
      if (0 <? length emotion)%nat then Math_max emotion else 0.5 in
    let exclamationCount := count_char 33 text in
    let repetitionPattern := count_repetitions text in
    let totalIndicators :=
      Qnat intenseCount * 3 + Qnat moderateCount * 2 + Qnat reservedCount
      + Qnat exclamationCount * 0.5 + Qnat repetitionPattern * 0.3 in
    let normalizedIntensity :=
      Qmin 1 (totalIndicators / 20 + emotionIntensity * 0.5) in
    mkEmotional (emotional_level_of normalizedIntensity) normalizedIntensity.

(** *** analyzeTemporalOrientation *)

Definition temporal_counts (lowerText : text) : nat * nat * nat :=
  (count_indicators count_word
     ["was"; "were"; "had"; "went"; "did"; "said"; "thought"; "felt";
      "used to"; "before"; "ago"; "back then"] lowerText,
   count_indicators count_word
     ["am"; "is"; "are"; "do"; "have"; "now"; "currently"; "today";
      "right now"] lowerText,
   count_indicators count_word
     ["will"; "going to"; "gonna"; "future"; "later"; "soon"; "hope"; "plan";
      "want to"] lowerText).

Definition temporal_total (lowerText : text) : nat :=
  let '(pastCount, presentCount, futureCount) := temporal_counts lowerText in
  (pastCount + presentCount + futureCount)%nat.

Definition analyzeTemporalOrientation (text : text) : temporal_orientation :=
  if is_empty text then mkTemporal "mixed" 0.33 None
  else
    let lowerText := toLowerCase text in
    let '(pastCount, presentCount, futureCount) := temporal_counts lowerText in
    let total := temporal_total lowerText in
    if (total =? 0)%nat then mkTemporal "mixed" 0.33 None
    else
      let scores :=
        [("past", Qnat pastCount / Qnat total);
         ("present", Qnat presentCount / Qnat total);
         ("future", Qnat futureCount / Qnat total)] in
      let maxScore := max_score scores in
      let dominantOrientation := find_key scores maxScore in
      mkTemporal
        (if bool_decide (dominantOrientation = Some "past") then "past_focused"
         else if bool_decide (dominantOrientation = Some "present")
         then "present_focused"
         else if bool_decide (dominantOrientation = Some "future")
         then "future_focused"
         else "mixed")
        maxScore (Some scores).

(** *** analyzeSelfReference *)

Definition analyzeSelfReference (text : text) : self_reference :=
  if is_empty text then mkSelfReference "medium" 0.5
  else
    let lowerText := toLowerCase text in
    let firstPersonCount := count_indicators count_literal
      ["i "; "i'"; "me "; "my "; "myself"; "mine"] lowerText in
    let wordCount := split_spaces_length text in
    let normalizedScore :=
      Qmin 1 (Qnat firstPersonCount / (Qnat wordCount / 10)) in
    mkSelfReference
      (if Qltb normalizedScore 0.3 then "low"
       else if Qltb normalizedScore 0.6 then "medium"
       else "high")
      normalizedScore.

(** *** Sentences and word diversity, shared by several analyzers *)

(** [text.split(/[.!?。！？]/).filter(s => s.trim().length > 0)] *)
Definition is_sentence_end (c : N) : bool :=
  (N.eqb c 46 || N.eqb c 33 || N.eqb c 63
   || N.eqb c 12290 || N.eqb c 65281 || N.eqb c 65311)%bool.

Definition sentences_of (text : text) : list JS.text :=
  List.filter trim_nonempty (split_class is_sentence_end text).

(** [sentenceLengths.reduce((sum, len) => sum + Math.pow(len - avg, 2), 0)
     / sentenceLengths.length] *)
Definition variance_of_lengths (lengths : list Q) (avg : Q) : Q :=
  fold_left (fun sum len => sum + (len - avg) * (len - avg)) lengths 0
  / Qnat (length lengths).

(** [uniqueWords.size / Math.max(1, words.length)] for the words of
    [text.toLowerCase()]. *)
Definition lexical_diversity (text : text) : Q :=
  let words := match_words (toLowerCase text) in
  Qnat (Set_size words) / Qnat (Nat.max 1 (length words)).

(** *** analyzeComplexity *)

Definition analyzeComplexity (text : text) (semantic : list Q) : complexity :=
  if is_empty text then mkComplexity "moderate" 0.5
  else
    let sentences := sentences_of text in
    let lengths := map (fun s => Qnat (length s)) sentences in
    let avgSentenceLength :=
      if (0 <? length sentences)%nat
      then sum lengths / Qnat (length sentences) else 50 in
    let sentenceVariance :=
      if (1 <? length sentences)%nat
      then variance_of_lengths lengths avgSentenceLength else 0 in
    let diversity := lexical_diversity text in
    let semanticComplexity :=
      if (0 <? length semantic)%nat
      then fold_left (fun sum val => sum + Qabs val) (take 20 semantic) 0 / 20
      else 0.5 in
    let complexityScore :=
      Qmin 1 (avgSentenceLength / 100) * 0.3
      + Qmin 1 (sentenceVariance / 1000) * 0.2
      + diversity * 0.3
      + semanticComplexity * 0.2 in
    mkComplexity
      (if Qltb complexityScore 0.4 then "simple"
       else if Qltb complexityScore 0.7 then "moderate"
       else "complex")
      complexityScore.

(** *** analyzeAuthenticity *)

Definition authenticity_counts (lowerText : text) : nat * nat * nat :=
  (count_indicators count_word
     ["therefore"; "however"; "furthermore"; "moreover"; "consequently";
      "nevertheless"] lowerText,
   count_indicators count_word
     ["gonna"; "wanna"; "gotta"; "yeah"; "yep"; "nah"; "ain't"; "don't";
      "can't"] lowerText,
   count_indicators count_literal
     ["i feel"; "i think"; "for me"; "personally"; "my heart"; "my soul";
      "deeply"] lowerText).

Definition authenticity_total (lowerText : text) : nat :=
  let '(formalCount, casualCount, intimateCount) := authenticity_counts lowerText in
  (formalCount + casualCount + intimateCount)%nat.

Definition analyzeAuthenticity (text : text) : authenticity :=
  if is_empty text then mkAuthenticity (Some "casual") 0.5 None
  else
    let lowerText := toLowerCase text in
    let '(formalCount, casualCount, intimateCount) := authenticity_counts lowerText in
    let total := authenticity_total lowerText in
    if (total =? 0)%nat then mkAuthenticity (Some "casual") 0.5 None
    else
      let scores :=
        [("formal", Qnat formalCount / Qnat total);
         ("casual", Qnat casualCount / Qnat total);
         ("intimate", Qnat intimateCount / Qnat total)] in
      let maxScore := max_score scores in
      mkAuthenticity (find_key scores maxScore) maxScore (Some scores).

(** *** analyzeRhythm *)

Definition analyzeRhythm (text : text) : Q :=
  if is_empty text then 0.5
  else
    let sentences := sentences_of text in
    if (length sentences <? 2)%nat then 0.5
    else
      let sentenceLengths := map (fun s => Qnat (length s)) sentences in
      let avgLength := sum sentenceLengths / Qnat (length sentenceLengths) in
      let variance := variance_of_lengths sentenceLengths avgLength in
      Qmin 1 (variance / (avgLength * avgLength)).

(** *** analyzeReflectionDepth *)

Definition analyzeReflectionDepth (text : text) : Q :=
  if is_empty text then 0.5
  else
    let lowerText := toLowerCase text in
    let reflectionCount := count_indicators count_literal
      ["reflect"; "think about"; "realize"; "understand"; "learn";
       "realized"; "understood"; "learned"; "came to understand";
       "looking back"; "in retrospect"; "now i see"; "i see now"] lowerText in
    let questionCount := count_char 63 text in
    let conditionalCount :=
      count_words_alt ["if"; "whether"; "what if"; "suppose"] lowerText in
    let wordCount := split_spaces_length text in
    Qmin 1
      ((Qnat reflectionCount * 2 + Qnat questionCount * 0.5 + Qnat conditionalCount)
       / (Qnat wordCount / 50)).

(** *** analyzeExpressionMode *)

Definition expression_counts (lowerText : text) : nat * nat :=
  (count_indicators count_literal
     ["i said"; "i told"; "i think"; "i believe"; "i feel"; "i know"] lowerText,
   count_indicators count_word
     ["like"; "as if"; "seems"; "appears"; "maybe"; "perhaps"; "might";
      "could"] lowerText).

Definition expression_total (lowerText : text) : nat :=
  let '(directCount, indirectCount) := expression_counts lowerText in
  (directCount + indirectCount)%nat.

Definition analyzeExpressionMode (text : text) : expression_mode :=
  if is_empty text then mkExpressionMode "direct" 0.5
  else
    let lowerText := toLowerCase text in
    let '(directCount, indirectCount) := expression_counts lowerText in
    let total := expression_total lowerText in
    if (total =? 0)%nat then mkExpressionMode "direct" 0.5
    else
      let directScore := Qnat directCount / Qnat total in
      mkExpressionMode (if Qltb 0.6 directScore then "direct" else "indirect")
        directScore.

(** *** calculateUniqueness and extractSubjectivity *)

Section Extract.

(** [Math.sqrt] on the numbers it is applied to. *)
Variable Math_sqrt : Q -> Q.

Definition calculateVariance (vector : list Q) : Q :=
  if (length vector =? 0)%nat then 0.5
  else
    let mean := sum vector / Qnat (length vector) in
    let variance :=
      fold_left (fun sum val => sum + (val - mean) * (val - mean)) vector 0
      / Qnat (length vector) in
    let stdDev := Math_sqrt variance in
    Qmin 1 (stdDev / 0.3).

Definition calculateUniqueness (text : text) (semantic emotion : list Q) : Q :=
  let semanticVariance :=
    if (0 <? length semantic)%nat then calculateVariance semantic else 0.5 in
  let emotionVariance :=
    if (0 <? length emotion)%nat then calculateVariance emotion else 0.5 in
  let lexicalDiversity := lexical_diversity text in
  let uniqueness :=
    semanticVariance * 0.4 + emotionVariance * 0.3 + lexicalDiversity * 0.3 in
  Qmin 1 (Qmax 0 uniqueness).

(** [node.text_content || ''], [node.isotype_signature?.semantic || []] and
    [node.isotype_signature?.emotion || []]. *)
Definition node_text (nd : node) : text := default [] (text_content nd).

Definition node_semantic (nd : node) : list Q :=
  default [] (node_isotype_signature nd ≫= semantic).

Definition node_emotion (nd : node) : list Q :=
  default [] (node_isotype_signature nd ≫= emotion).

Definition extractSubjectivity (nd : node) : subjectivity :=
  let text := node_text nd in
  let semantic := node_semantic nd in
  let emotion := node_emotion nd in
  {| subj_narrative_style := analyzeNarrativeStyle text;
     subj_emotional_expression := analyzeEmotionalExpression text emotion;
     subj_temporal_orientation := analyzeTemporalOrientation text;
     subj_self_reference := analyzeSelfReference text;
     subj_complexity := analyzeComplexity text semantic;
     subj_authenticity := analyzeAuthenticity text;
     subj_rhythm := analyzeRhythm text;
     subj_reflection_depth := analyzeReflectionDepth text;
     subj_expression_mode := analyzeExpressionMode text;
     subj_uniqueness := calculateUniqueness text semantic emotion |}.

End Extract.

End SubjectivityExtractor.

(** ** EmotiveArt (emotiveArt.js): the noise table and smoothNoise *)

Module EmotiveArt.

Section Noise.
Local Open Scope R_scope.

(** The value returned by the [k]-th call of [Math.random()]. *)
Variable Math_random : nat -> R.

(** The value pushed for index [i] when [Math.random()] returns [r]. *)
Definition noise_value (i : nat) (r : R) : R :=
  sin (INR i * 0.1) * 0.4 + sin (INR i * 0.3) * 0.3 + sin (INR i * 0.7) * 0.2
  + r * 0.1.

(** [for (let i = 0; i < size; i++) { ...; table.push(value); }], with
    [remaining = size - i]; [k] counts the draws of [Math.random()]. *)
Fixpoint noise_loop (remaining i : nat) (table : list R) (k : nat)
    : list R * nat :=
  match remaining with
  | O => (table, k)
  | S remaining' =>
      noise_loop remaining' (S i) (table ++ [noise_value i (Math_random k)]) (S k)
  end.

Definition generateNoiseTable (size : nat) (k : nat) : list R * nat :=
  noise_loop size 0 [] k.

End Noise.

(** An instance: its only field is [noiseTable]. *)
Record t : Type := mkEmotiveArt { noiseTable : list R }.

(** [new EmotiveArt()] when [k] draws of [Math.random()] have been made;
    returns the instance and the new draw counter. *)
Definition new (Math_random : nat -> R) (k : nat) : t * nat :=
  let '(table, k') := generateNoiseTable Math_random 512 k in
  (mkEmotiveArt table, k').

Section SmoothNoise.
Local Open Scope R_scope.

Variable this : t.

(** [Math.floor(v) % this.noiseTable.length]: the remainder has the sign of
    the dividend. *)
Definition table_index (v : R) : Z :=
  Z.rem (Zfloor v) (Z.of_nat (length (noiseTable this))).

(** [this.noiseTable[Math.abs(nx)]] *)
Definition table_at (nx : Z) : R :=
  nth (Z.to_nat (Z.abs nx)) (noiseTable this) 0.

(** The loop over the octaves, with [remaining = octaves - i]. *)
Fixpoint octave_loop (remaining : nat) (x y seed : R)
    (value amplitude frequency maxValue : R) : R * R :=
  match remaining with
  | O => (value, maxValue)
  | S remaining' =>
      let nx := table_index ((x * frequency + seed) * 100) in
      let ny := table_index ((y * frequency + seed * 2) * 100) in
      let n := (table_at nx + table_at ny) / 2 in
      octave_loop remaining' x y seed
        (value + n * amplitude) (amplitude * 0.5) (frequency * 1.8)
        (maxValue + amplitude)
  end.

Definition smoothNoise (x y seed : R) (octaves : nat) : R :=
  let '(value, maxValue) := octave_loop octaves x y seed 0 1 1 0 in
  value / maxValue.

End SmoothNoise.

End EmotiveArt.

(** ** IsotypeRenderer (isotypeRenderer.js): signature and outline *)

Module IsotypeRenderer.
Import JS SubjectivityExtractor.

Record shapeDeformation : Type := mkShapeDeformation {
  regularity : Q;
  deformation : Q;
  asymmetry : Q
}.

Record internalPattern : Type := mkInternalPattern {
  density : Q;
  patternType : string;
  pattern_complexity : Q;
  pattern_reflectionDepth : Q
}.

Record edgeCharacteristics : Type := mkEdgeCharacteristics {
  sharpness : Q;
  edge_regularity : Q;
  thickness : Q
}.

Record colorAdjustment : Type := mkColorAdjustment {
  saturation : Q;
  hueShift : Q;
  opacity : Q;
  brightness : Q
}.

Record signature : Type := mkSignature {
  baseShape : string;
  baseSize : Q;
  baseColor : string;
  sig_subjectivity : subjectivity;
  sig_shapeDeformation : shapeDeformation;
  sig_internalPattern : internalPattern;
  sig_edgeCharacteristics : edgeCharacteristics;
  sig_colorAdjustment : colorAdjustment
}.

(** An instance holds an [EmotiveArt] and a (stateless)
    [SubjectivityExtractor]. *)
Record t : Type := mkIsotypeRenderer { emotiveArt : EmotiveArt.t }.

(** [new IsotypeRenderer(canvas, ctx)] *)
Definition new (Math_random : nat -> R) (k : nat) : t * nat :=
  let '(art, k') := EmotiveArt.new Math_random k in (mkIsotypeRenderer art, k').

Section Signature.
Local Open Scope Q_scope.

Variable Math_sqrt : Q -> Q.

Definition calculateShapeDeformation (subjectivity : subjectivity)
    : shapeDeformation :=
  let narrativeStyle := subj_narrative_style subjectivity in
  let emotionalExpression := subj_emotional_expression subjectivity in
  let regularity :=
    if bool_decide (narrative_type narrativeStyle = Some "reflective") then 0.6
    else if bool_decide (narrative_type narrativeStyle = Some "metaphorical") then 0.5
    else if bool_decide (narrative_type narrativeStyle = Some "direct") then 0.9
    else 0.8 in
  let deformation :=
    if bool_decide (emotional_level emotionalExpression = "intense") then 0.25
    else if bool_decide (emotional_level emotionalExpression = "expressive") then 0.18
    else if bool_decide (emotional_level emotionalExpression = "reserved") then 0.05
    else 0.1 in
  {| regularity := regularity;
     deformation := deformation;
     asymmetry := emotional_intensity emotionalExpression * 0.15 |}.

Definition calculateInternalPattern (subjectivity : subjectivity)
    : internalPattern :=
  let complexity := subj_complexity subjectivity in
  let reflectionDepth := subj_reflection_depth subjectivity in
  let density :=
    if bool_decide (complexity_level complexity = "complex") then 0.6
    else if bool_decide (complexity_level complexity = "moderate") then 0.4
    else 0.2 in
  let patternType :=
    if Qltb 0.7 reflectionDepth then "layered"
    else if Qltb 0.4 reflectionDepth then "moderate"
    else "simple" in
  {| density := density;
     patternType := patternType;
     pattern_complexity := complexity_score complexity;
     pattern_reflectionDepth := reflectionDepth |}.

Definition calculateEdgeCharacteristics (subjectivity : subjectivity)
    : edgeCharacteristics :=
  let authenticity := subj_authenticity subjectivity in
  let expressionMode := subj_expression_mode subjectivity in
  let edgeSharpness :=
    if bool_decide (authenticity_style authenticity = Some "formal") then 0.8
    else if bool_decide (authenticity_style authenticity = Some "intimate") then 0.3
    else 0.5 in
  let edgeRegularity :=
    if bool_decide (expression_mode_name expressionMode = "direct") then 0.9
    else 0.5 in
  {| sharpness := edgeSharpness;
     edge_regularity := edgeRegularity;
     thickness := 0.5 + authenticity_score authenticity * 0.3 |}.

Definition calculateColorAdjustment (subjectivity : subjectivity)
    : colorAdjustment :=
  let emotionalExpression := subj_emotional_expression subjectivity in
  let saturation := 1.0 in
  let hueShift := 0 in
  let opacity := 0.7 + emotional_intensity emotionalExpression * 0.25 in
  let brightness := 1.0 in
  {| saturation := saturation;
     hueShift := hueShift;
     opacity := Qmin 1 opacity;
     brightness := Qmin 1.1 brightness |}.

Definition calculateBaseSize (nd : node) : Q :=
  let uniqueness :=
    or_number (node_isotype_signature nd ≫= uniqueness_score) 0.5 in
  let textLength := or_number (metadata_text_length nd) 1000 in
  let normalizedLength := Qmin 1 (textLength / 5000) in
  10 + (uniqueness * 0.5 + normalizedLength * 0.5) * 15.

(** [node.visual_properties?.color || '#8B7FA8']: the empty string is falsy. *)
Definition node_color (nd : node) : string :=
  match visual_properties_color nd with
  | Some c => if bool_decide (c = "") then "#8B7FA8" else c
  | None => "#8B7FA8"
  end.

(** The helper methods above do not read the instance and are written as
    plain functions; [generateIsotypeSignature] and [generateUnifiedShape],
    the two steps of the rendering pipeline, keep their receiver [this]. *)
Definition generateIsotypeSignature (this : t) (nd : node) : signature :=
  let subjectivity := extractSubjectivity Math_sqrt nd in
  {| baseShape := "circle";
     baseSize := calculateBaseSize nd;
     baseColor := node_color nd;
     sig_subjectivity := subjectivity;
     sig_shapeDeformation := calculateShapeDeformation subjectivity;
     sig_internalPattern := calculateInternalPattern subjectivity;
     sig_edgeCharacteristics := calculateEdgeCharacteristics subjectivity;
     sig_colorAdjustment := calculateColorAdjustment subjectivity |}.

End Signature.

Section Shape.
Local Open Scope R_scope.







End Shape.


End IsotypeRenderer.

(** ** VisualizationApp (main.js): similarity graph construction *)

Module VisualizationApp.

(** *** cosineSimilarity *)

Section Cosine.
Local Open Scope R_scope.

(** The three accumulators of the loop. *)
Record sums : Type := mkSums { dotProduct : R; norm1 : R; norm2 : R }.

(** One execution of the loop body at index [i]. *)
Definition cosine_body (vec1 vec2 : list R) (i : nat) (s : sums) : sums :=
  let v1 := nth i vec1 0 in
  let v2 := nth i vec2 0 in
  {| dotProduct := dotProduct s + v1 * v2;
     norm1 := norm1 s + v1 * v1;
     norm2 := norm2 s + v2 * v2 |}.

(** [for (let i = ...; i < vec1.length; i += step) { ... }], with the
    number of remaining iterations bounded by [fuel]. *)
Fixpoint cosine_loop (fuel : nat) (step : nat) (vec1 vec2 : list R)
    (i : nat) (s : sums) : sums :=
  match fuel with
  | O => s
  | S fuel' =>
      if (i <? length vec1)%nat
      then cosine_loop fuel' step vec1 vec2 (i + step)%nat (cosine_body vec1 vec2 i s)
      else s
  end.

(** [const step = vec1.length > 500 ? 2 : 1]. *)
Definition cosine_step (vec1 : list R) : nat :=
  if (500 <? length vec1)%nat then 2%nat else 1%nat.

(** [if (step > 1) { dotProduct *= step; norm1 *= step; norm2 *= step; }] *)
Definition cosine_adjust (step : nat) (s : sums) : sums :=
  if (1 <? step)%nat
  then {| dotProduct := dotProduct s * INR step;
          norm1 := norm1 s * INR step;
          norm2 := norm2 s * INR step |}
  else s.

(** A vector argument may be [null]/[undefined] ([None]).  The loop needs at
    most [vec1.length] iterations because [step >= 1]. *)
Definition cosineSimilarity (vec1 vec2 : option (list R)) : R :=
  match vec1, vec2 with
  | Some v1, Some v2 =>
      if negb (length v1 =? length v2)%nat then 0
      else
        let step := cosine_step v1 in
        let s := cosine_loop (length v1) step v1 v2 0%nat (mkSums 0 0 0) in
        let s := cosine_adjust step s in
        let denominator := sqrt (norm1 s) * sqrt (norm2 s) in
        if Req_dec_T denominator 0 then 0 else dotProduct s / denominator
  | _, _ => 0
  end.

End Cosine.

(** *** cosineSimilarity over any arithmetic *)

Module Generic.
Import JSNumber.

Section Cosine.
Context {num : Type} `{Arithmetic num}.

Record sums : Type := mkSums { dotProduct : num; norm1 : num; norm2 : num }.

Definition cosine_body (vec1 vec2 : list num) (i : nat) (s : sums) : sums :=
  let v1 := nth i vec1 (of_nat 0) in
  let v2 := nth i vec2 (of_nat 0) in
  {| dotProduct := add (dotProduct s) (mul v1 v2);
     norm1 := add (norm1 s) (mul v1 v1);
     norm2 := add (norm2 s) (mul v2 v2) |}.

Fixpoint cosine_loop (fuel : nat) (step : nat) (vec1 vec2 : list num)
    (i : nat) (s : sums) : sums :=
  match fuel with
  | O => s
  | S fuel' =>
      if (i <? length vec1)%nat
      then cosine_loop fuel' step vec1 vec2 (i + step)%nat (cosine_body vec1 vec2 i s)
      else s
  end.

Definition cosine_step (vec1 : list num) : nat :=
  if (500 <? length vec1)%nat then 2%nat else 1%nat.

Definition cosine_adjust (step : nat) (s : sums) : sums :=
  if (1 <? step)%nat
  then {| dotProduct := mul (dotProduct s) (of_nat step);
          norm1 := mul (norm1 s) (of_nat step);
          norm2 := mul (norm2 s) (of_nat step) |}
  else s.

Definition cosineSimilarity (vec1 vec2 : option (list num)) : num :=
  match vec1, vec2 with
  | Some v1, Some v2 =>
      if negb (length v1 =? length v2)%nat then of_nat 0
      else
        let step := cosine_step v1 in
        let s := cosine_loop (length v1) step v1 v2 0%nat
                   (mkSums (of_nat 0) (of_nat 0) (of_nat 0)) in
        let s := cosine_adjust step s in
        let denominator := mul (sqrt (norm1 s)) (sqrt (norm2 s)) in
        if is_zero denominator then of_nat 0 else div (dotProduct s) denominator
  | _, _ => of_nat 0
  end.

End Cosine.

Arguments sums num : clear implicits.

End Generic.

(** *** JavaScript helpers used by the link builder *)

(** [String(n)] for a non-negative integer: its decimal digits. *)
Definition Number_toString (n : nat) : string :=
  NilZero.string_of_uint (Nat.to_uint n).

(** A [Set] of numbers that is iterated: elements in insertion order. *)
Definition Set_has (x : nat) (s : list nat) : bool := bool_decide (x ∈ s).

Definition Set_add (x : nat) (s : list nat) : list nat :=
  if Set_has x s then s else s ++ [x].

(** [arr.slice(0, e)]; a negative [e] counts from the end of the array. *)
Definition slice_0 {A : Type} (l : list A) (e : Z) : list A :=
  let len := Z.of_nat (length l) in
  let final := if (e <? 0)%Z then Z.max (len + e) 0 else Z.min e len in
  firstn (Z.to_nat final) l.

(** *** getSampleIndices and generateLinksOptimized *)

(** An element of [candidates]; [target] is the node object [nodes[j]],
    which is represented by its index. *)
Record candidate : Type := mkCandidate {
  cand_target : nat;
  cand_similarity : Q;
  targetIndex : nat
}.

(** An element of [links]. *)
Record link : Type := mkLink {
  source : nat;
  target : nat;
  similarity : Q;
  dimension : string
}.

(** [candidates.sort((a, b) => b.similarity - a.similarity)]: Array.prototype.sort
    is stable, so candidates of equal similarity keep their order. *)
Fixpoint sort_insert (c : candidate) (sorted : list candidate) : list candidate :=
  match sorted with
  | [] => [c]
  | d :: rest =>
      if Qle_bool (cand_similarity d) (cand_similarity c)
      then c :: d :: rest
      else d :: sort_insert c rest
  end.

Definition sort_by_similarity (candidates : list candidate) : list candidate :=
  foldr sort_insert [] candidates.

(** [i < j ? `${i}-${j}` : `${j}-${i}`] *)
Definition linkKey (i j : nat) : string :=
  if (i <? j)%nat
  then Number_toString i +:+ "-" +:+ Number_toString j
  else Number_toString j +:+ "-" +:+ Number_toString i.

(** The first branch of [generateLinksOptimized]: [(maxLinksPerNode, sampleSize)]
    as a function of [nodeCount]. *)
Definition linkParameters (nodeCount : nat) : Z * nat :=
  if (nodeCount <=? 20)%nat
  then (Z.min 10 (Z.of_nat nodeCount - 1), nodeCount)
  else if (nodeCount <=? 50)%nat
  then (8%Z, Nat.min 30 nodeCount)
  else (5%Z, Nat.min 50 nodeCount).

Definition maxLinksPerNode (nodeCount : nat) : Z := fst (linkParameters nodeCount).
Definition sampleSize (nodeCount : nat) : nat := snd (linkParameters nodeCount).

Section Links.

(** [this.nodes.length]; the node [this.nodes[i]] is represented by [i]. *)
Variable n : nat.
(** [this.config.similarityThreshold] and [this.config.dimension]. *)
Variable threshold : Q.
Variable config_dimension : string.
(** [this.calculateSimilarity(this.nodes[i], this.nodes[j], dimension)]; the
    similarity of two finite vectors is a finite double, hence a rational. *)
Variable calculateSimilarity : nat -> nat -> Q.
(** The value returned by the [k]-th call of [Math.random()], in [0, 1). *)
Variable Math_random : nat -> Q.

(** [Math.floor(Math.random() * n)] at draw number [k]. *)
Definition randomIndex (k : nat) : nat :=
  Z.to_nat (Qfloor (Math_random k * inject_Z (Z.of_nat n))).

(** The first loop of [getSampleIndices]: [for (let i = start; i < end; i++)]. *)
Definition window_fill (currentIndex : nat) (indices : list nat) : list nat :=
  let windowSize := Nat.min 20 n in
  let start := (currentIndex - windowSize)%nat in
  let end_ := Nat.min n (currentIndex + windowSize) in
  fold_left
    (fun indices i => if (i =? currentIndex)%nat then indices else Set_add i indices)
    (seq start (end_ - start)) indices.

(** The second loop: [for (let i = 0; i < randomCount && indices.size <
    sampleSize; i++)], with [remaining = randomCount - i]; [k] counts the
    draws of [Math.random()]. *)
Fixpoint random_fill (remaining : nat) (currentIndex sampleSize : nat)
    (indices : list nat) (k : nat) : list nat * nat :=
  match remaining with
  | O => (indices, k)
  | S remaining' =>
      if (length indices <? sampleSize)%nat
      then
        let r := randomIndex k in
        let indices' :=
          if (r =? currentIndex)%nat then indices else Set_add r indices in
        random_fill remaining' currentIndex sampleSize indices' (S k)
      else (indices, k)
  end.

(** Returns [Array.from(indices)] and the new draw counter. *)
Definition getSampleIndices (currentIndex sampleSize : nat) (k : nat)
    : list nat * nat :=
  let indices := window_fill currentIndex [] in
  let randomCount := (sampleSize - length indices)%nat in
  random_fill randomCount currentIndex sampleSize indices k.

(** The body of [for (const j of sampleIndices) { ... }]. *)
Definition collect_step (i : nat) (linkSet : gset string)
    (candidates : list candidate) (j : nat) : list candidate :=
  if (i =? j)%nat then candidates
  else if bool_decide (linkKey i j ∈ linkSet) then candidates
  else
    let similarity := calculateSimilarity i j in
    if Qle_bool threshold similarity
    then candidates ++ [mkCandidate j similarity j]
    else candidates.

Definition collect_candidates (i : nat) (linkSet : gset string)
    (sampleIndices : list nat) : list candidate :=
  fold_left (collect_step i linkSet) sampleIndices [].

(** The body of [topCandidates.forEach(candidate => { ... })]. *)
Definition add_link_step (i : nat) (st : list link * gset string)
    (c : candidate) : list link * gset string :=
  let '(links, linkSet) := st in
  let key := linkKey i (targetIndex c) in
  if bool_decide (key ∈ linkSet) then (links, linkSet)
  else (links ++ [mkLink i (cand_target c) (cand_similarity c) config_dimension],
        {[key]} ∪ linkSet).

Definition add_links (i : nat) (topCandidates : list candidate)
    (st : list link * gset string) : list link * gset string :=
  fold_left (add_link_step i) topCandidates st.

(** The state carried around the outer loop: the links, the key set and
    the number of random draws made so far. *)
Definition links_state : Type := (list link * gset string * nat)%type.

(** The body of the outer loop [for (let i = 0; i < this.nodes.length; i++)]. *)
Definition links_body (st : links_state) (i : nat) : links_state :=
  let '(links, linkSet, k) := st in
  let '(sampleIndices, k') := getSampleIndices i (sampleSize n) k in
  let candidates := collect_candidates i linkSet sampleIndices in
  let topCandidates := slice_0 (sort_by_similarity candidates) (maxLinksPerNode n) in
  let '(links', linkSet') := add_links i topCandidates (links, linkSet) in
  (links', linkSet', k').

Definition generateLinksOptimized_from (k : nat) : links_state :=
  fold_left links_body (seq 0 n) ([], ∅, k).

(** The returned array, for a run whose first draw is number [k]. *)
Definition generateLinksOptimized (k : nat) : list link :=
  fst (fst (generateLinksOptimized_from k)).

End Links.

End VisualizationApp.

(** ** ClusterFusion (clusterFusion.js): cluster detection *)

Module ClusterFusion.

Export VisualizationApp (link, mkLink, source, target, similarity, dimension).

(** [nodes.forEach((node, index) => nodeIndexMap.set(node, index))]: a later
    occurrence of the same object overwrites the earlier index. *)
Fixpoint nodeIndexMap_from (index : nat) (nodes : list nat)
    (nodeIndexMap : gmap nat nat) : gmap nat nat :=
  match nodes with
  | [] => nodeIndexMap
  | node :: rest => nodeIndexMap_from (S index) rest (<[node := index]> nodeIndexMap)
  end.

Definition build_nodeIndexMap (nodes : list nat) : gmap nat nat :=
  nodeIndexMap_from 0 nodes ∅.

(** The variables the breadth-first search updates: [cluster], [queue] and
    [visited]. *)
Definition bfs_state : Type := (list nat * list nat * gset nat)%type.

Section Detect.

Variable nodes : list nat.
Variable links : list link.
Variable similarityThreshold : Q.

(** [neighborNode] as computed at the head of the body of
    [links.forEach(link => { ... })] for [currentNode = nodes[currentIndex]]
    ([None] stands for [undefined] and for [null]). *)
Definition neighborNode (currentNode : option nat) (l : link) : option nat :=
  if bool_decide (Some (source l) = currentNode) then Some (target l)
  else if bool_decide (Some (target l) = currentNode) then Some (source l)
  else None.

(** The body of [links.forEach(link => { ... })]. *)
Definition visit_link (nodeIndexMap : gmap nat nat) (currentNode : option nat)
    (st : bfs_state) (l : link) : bfs_state :=
  let '(cluster, queue, visited) := st in
  match neighborNode currentNode l with
  | Some neighbor =>
      match nodeIndexMap !! neighbor with
      | Some neighborIndex =>
          if negb (bool_decide (neighborIndex ∈ visited))
             && Qle_bool similarityThreshold (similarity l)
          then (cluster ++ [neighbor], queue ++ [neighborIndex],
                {[neighborIndex]} ∪ visited)
          else st
      | None => st
      end
  | None => st
  end.

(** [while (queue.length > 0) { const currentIndex = queue.shift(); ... }];
    [None] when [fuel] iterations were not enough to empty the queue. *)
Fixpoint bfs (fuel : nat) (nodeIndexMap : gmap nat nat) (st : bfs_state)
    : option (list nat * gset nat) :=
  match fuel with
  | O => None
  | S fuel' =>
      let '(cluster, queue, visited) := st in
      match queue with
      | [] => Some (cluster, visited)
      | currentIndex :: queue' =>
          let currentNode := nodes !! currentIndex in
          bfs fuel' nodeIndexMap
            (fold_left (visit_link nodeIndexMap currentNode) links
               (cluster, queue', visited))
      end
  end.

(** The outer [nodes.forEach((node, index) => { ... })], from position
    [index] on; every index enters the queue at most once, so
    [nodes.length + 1] iterations of the inner loop are enough. *)
Fixpoint detect_from (nodeIndexMap : gmap nat nat) (index : nat)
    (rest : list nat) (clusters : list (list nat)) (visited : gset nat)
    : option (list (list nat)) :=
  match rest with
  | [] => Some clusters
  | node :: rest' =>
      if bool_decide (index ∈ visited)
      then detect_from nodeIndexMap (S index) rest' clusters visited
      else
        match bfs (S (length nodes)) nodeIndexMap
                ([node], [index], {[index]} ∪ visited) with
        | None => None
        | Some (cluster, visited') =>
            let clusters' :=
              if (2 <=? length cluster)%nat then clusters ++ [cluster]
              else clusters in
            detect_from nodeIndexMap (S index) rest' clusters' visited'
        end
  end.

Definition detectClusters : option (list (list nat)) :=
  detect_from (build_nodeIndexMap nodes) 0 nodes [] ∅.

End Detect.

End ClusterFusion.

(** ** ClusterFusion (clusterFusion.js): bounds and fusion shapes *)

Module ClusterShapes.
Import JS.
Local Open Scope R_scope.

(** The fields of a node object that the geometry of a cluster reads:
    [x], [y], [original_id], [id], [isotype_signature?.semantic] and
    [isotype_signature?.emotion] ([None] where the field, or
    [isotype_signature] itself, is missing). *)
Record placed_node : Type := mkPlacedNode {
  node_x : option R;
  node_y : option R;
  node_original_id : option text;
  node_id : option text;
  node_semantic : option (list R);
  node_emotion : option (list R)
}.

(** [v || 0] for a coordinate that may be missing. *)
Definition or_zero (v : option R) : R :=
  match v with Some v => v | None => 0 end.

(** [v || []] for a vector that may be missing. *)
Definition or_empty (v : option (list R)) : list R :=
  match v with Some v => v | None => [] end.

Record bounds : Type := mkBounds {
  centerX : R;
  centerY : R;
  radius : R;
  nodes : list placed_node
}.

(** The body of [cluster.forEach(node => { ... })] in [calculateClusterBounds]. *)
Definition maxDistance_step (centerX centerY : R) (maxDistance : R)
    (node : placed_node) : R :=
  let dx := or_zero (node_x node) - centerX in
  let dy := or_zero (node_y node) - centerY in
  let distance := sqrt (dx * dx + dy * dy) in
  Rmax maxDistance distance.

Definition calculateClusterBounds (cluster : list placed_node) : option bounds :=
  match cluster with
  | [] => None
  | _ =>
      let centerX :=
        fold_left (fun sum node => sum + or_zero (node_x node)) cluster 0
        / INR (length cluster) in
      let centerY :=
        fold_left (fun sum node => sum + or_zero (node_y node)) cluster 0
        / INR (length cluster) in
      let maxDistance := fold_left (maxDistance_step centerX centerY) cluster 0 in
      let radius := maxDistance * 1.3 in
      Some {| centerX := centerX; centerY := centerY; radius := radius;
              nodes := cluster |}
  end.

(** [\d]: an ASCII digit. *)
Definition is_digit (c : N) : bool := ((48 <=? c) && (c <=? 57))%N.

(** [id.match(/\d+/)?.[0]]: the first maximal run of digits ([[]] when there
    is no digit). *)
Fixpoint digit_run (t : text) : text :=
  match t with
  | c :: rest => if is_digit c then c :: digit_run rest else []
  | [] => []
  end.

Fixpoint first_digits (t : text) : text :=
  match t with
  | [] => []
  | c :: rest => if is_digit c then c :: digit_run rest else first_digits rest
  end.

(** [parseInt] of a string of digits. *)
Definition parseInt_digits (digits : text) : Z :=
  fold_left (fun acc c => (acc * 10 + Z.of_N (c - 48))%Z) digits 0%Z.

(** [a || b] for strings that may be missing: the empty string is falsy. *)
Definition or_text (a : option text) (b : text) : text :=
  match a with
  | Some (c :: rest) => c :: rest
  | _ => b
  end.

(** The body of [nodes.forEach((node, index) => { ... })] in
    [generateClusterSeed]. *)
Definition seed_step (seed : R) (node : placed_node) (index : nat) : R :=
  let id := or_text (node_original_id node) (or_text (node_id node) []) in
  let idNum :=
    parseInt_digits (match first_digits id with [] => lit "0" | d => d end) in
  let semantic := or_empty (node_semantic node) in
  let semanticSum := fold_left (fun a b => a + Rabs b) (firstn 5 semantic) 0 in
  seed + (IZR idNum * 100 + IZR (Zfloor (semanticSum * 100))) * (INR index + 1).

Fixpoint seed_loop (nodes : list placed_node) (index : nat) (seed : R) : R :=
  match nodes with
  | [] => seed
  | node :: rest => seed_loop rest (S index) (seed_step seed node index)
  end.

Definition generateClusterSeed (nodes : list placed_node) : R :=
  seed_loop nodes 0 0.

Record fusion_point : Type := mkFusionPoint { fusion_x : R; fusion_y : R }.

Record fusion_shape : Type := mkFusionShape {
  fusion_points : list fusion_point;
  fusion_seed : R;
  fusion_bounds : bounds
}.

(** An instance: the field [emotiveArt] is the one the methods below read. *)
Record t : Type := mkClusterFusion { emotiveArt : EmotiveArt.t }.

(** [new ClusterFusion(canvas, ctx)] *)
Definition new (Math_random : nat -> R) (k : nat) : t * nat :=
  let '(art, k') := EmotiveArt.new Math_random k in (mkClusterFusion art, k').

(** [e.length > 0 ? Math.max(...e) : 0.5] for [e = n.isotype_signature?.emotion || []]. *)
Definition maxE (n : placed_node) : R :=
  match or_empty (node_emotion n) with
  | [] => 0.5
  | v :: rest => fold_left Rmax rest v
  end.

Definition fusion_numPoints : nat := 32.

Section FusionShape.
Variable this : t.

(** The factor by which the radius is multiplied at the angle [angle]. *)
Definition fusion_factor (seed softness angle : R) : R :=
  let noise :=
    EmotiveArt.smoothNoise (emotiveArt this) (cos angle * 2) (sin angle * 2) seed 3 in
  0.94 + noise * softness.

(** The body of the loop of [generateFusionShape] for the index [i]. *)
Definition fusion_point_at (clusterBounds : bounds) (seed softness : R)
    (i : nat) : fusion_point :=
  let angle := (PI * 2 * INR i) / INR fusion_numPoints in
  let distance := radius clusterBounds * fusion_factor seed softness angle in
  {| fusion_x := centerX clusterBounds + cos angle * distance;
     fusion_y := centerY clusterBounds + sin angle * distance |}.

(** [for (let i = 0; i < numPoints; i++) { ...; points.push({...}); }] *)
Fixpoint fusion_loop (remaining i : nat) (clusterBounds : bounds)
    (seed softness : R) (points : list fusion_point) : list fusion_point :=
  match remaining with
  | O => points
  | S remaining' =>
      fusion_loop remaining' (S i) clusterBounds seed softness
        (points ++ [fusion_point_at clusterBounds seed softness i])
  end.

Definition generateFusionShape (clusterBounds : option bounds)
    : option fusion_shape :=
  match clusterBounds with
  | None => None
  | Some clusterBounds =>
      match nodes clusterBounds with
      | [] => None
      | _ =>
          let seed := generateClusterSeed (nodes clusterBounds) in
          let avgEmotion :=
            fold_left (fun sum n => sum + maxE n) (nodes clusterBounds) 0
            / INR (length (nodes clusterBounds)) in
          let softness := 0.12 + avgEmotion * 0.1 in
          Some {| fusion_points :=
                    fusion_loop fusion_numPoints 0 clusterBounds seed softness [];
                  fusion_seed := seed;
                  fusion_bounds := clusterBounds |}
      end
  end.

End FusionShape.

(** [fusionShapes.sort((a, b) => b.bounds.radius - a.bounds.radius)]: the
    sort is stable, so shapes of equal radius keep their order. *)
Fixpoint radius_insert (s : fusion_shape) (sorted : list fusion_shape)
    : list fusion_shape :=
  match sorted with
  | [] => [s]
  | d :: rest =>
      if Rle_dec (radius (fusion_bounds d)) (radius (fusion_bounds s))
      then s :: d :: rest
      else d :: radius_insert s rest
  end.

Definition sort_by_radius (shapes : list fusion_shape) : list fusion_shape :=
  fold_right radius_insert [] shapes.

Section RenderClusters.
Variable this : t.
(** The fields of the node object that is represented by a number in
    [detectClusters]. *)
Variable object_of : nat -> placed_node.

(** [clusters.map((cluster, index) => { ... }).filter(shape => shape !== null)] *)
Definition cluster_shapes (clusters : list (list nat)) : list fusion_shape :=
  omap (fun cluster =>
          match calculateClusterBounds (map object_of cluster) with
          | None => None
          | Some bounds => generateFusionShape this (Some bounds)
          end) clusters.

(** The array returned by [renderClusters]; [nodes] and [links] may be
    missing.  The result is [None] only if the search of [detectClusters]
    does not return. *)
Definition renderClusters (nodes : option (list nat))
    (links : option (list VisualizationApp.link)) (similarityThreshold : Q)
    : option (list fusion_shape) :=
  match nodes, links with
  | Some (node :: nodes'), Some (link :: links') =>
      match ClusterFusion.detectClusters (node :: nodes') (link :: links')
              (similarityThreshold * 0.9)%Q with
      | None => None
      | Some [] => Some []
      | Some clusters => Some (sort_by_radius (cluster_shapes clusters))
      end
  | _, _ => Some []
  end.

End RenderClusters.

End ClusterShapes.

(** ** DataLoader (dataLoader.js): emotion vectors and colours *)

Module DataLoader.
Import JS.
Local Open Scope Q_scope.

(** The fields of a raw item that the methods below read.  [emotion_scores]
    is an object used as a map from emotion names to numbers. *)
Record item : Type := mkItem {
  semantic_embedding : option (list Q);
  emotion_scores : gmap string Q;
  metadata_text_length : option Q
}.

Definition emotions : list string :=
  ["joy"; "sadness"; "anger"; "fear"; "surprise"; "disgust"; "neutral"].

(** [emotionScores[emotion] || 0] *)
Definition score_of (emotionScores : gmap string Q) (emotion : string) : Q :=
  match emotionScores !! emotion with Some v => v | None => 0 end.

Definition extractEmotionVector (emotionScores : gmap string Q) : list Q :=
  let vector := map (score_of emotionScores) emotions in
  match emotionScores !! "neutral" with
  | Some neutralValue =>
      if negb (Qeq_bool neutralValue 0) && (size emotionScores =? 1)%nat
      then [neutralValue * 0.1; neutralValue * 0.2; neutralValue * 0.1;
            neutralValue * 0.1; neutralValue * 0.1; neutralValue * 0.1;
            neutralValue * 0.3]
      else vector
  | None => vector
  end.

(** [for (let i = 1; i < emotionVec.length; i++) { if (emotionVec[i] >
    maxValue) { ... } }], with [rest] the entries from index [i] on. *)
Fixpoint dominant_loop (rest : list Q) (i maxIndex : nat) (maxValue : Q)
    : nat * Q :=
  match rest with
  | [] => (maxIndex, maxValue)
  | v :: rest' =>
      if Qle_bool v maxValue
      then dominant_loop rest' (S i) maxIndex maxValue
      else dominant_loop rest' (S i) i v
  end.

(** [emotions[maxIndex] || 'neutral']; [None] is a missing vector. *)
Definition getDominantEmotion (emotionVec : option (list Q)) : string :=
  match emotionVec with
  | None | Some [] => "neutral"
  | Some (v0 :: rest) =>
      let '(maxIndex, _) := dominant_loop rest 1 0 v0 in
      nth maxIndex emotions "neutral"
  end.

Definition getDominantDimensions (it : item) : list string :=
  let emotionVec := extractEmotionVector (emotion_scores it) in
  let maxEmotion := Math_max emotionVec in
  (if negb (Qle_bool maxEmotion 0.3) then ["emotion"] else []) ++ ["semantic"].

Definition colorPalette : list string :=
  ["#FF006E"; "#FFBE0B"; "#FB5607"; "#8338EC"; "#06FFA5"; "#FF9F1C"; "#C77DFF";
   "#FF1744"; "#00E676"; "#E91E63"; "#4CAF50"; "#F44336"; "#FF4081"; "#673AB7";
   "#009688"; "#FF5722"; "#FFC107"; "#3A86FF"; "#00F5FF"; "#2196F3"].

(** [x % m] on numbers: the quotient is truncated towards zero. *)
Definition Number_rem (x m : Q) : Q :=
  let q := x / m in
  x - m * inject_Z (Z.quot (Qnum q) (Z.pos (Qden q))).

(** The binary64 numbers are finite below [2^1024 - 2^970] in magnitude; a
    result at or beyond that bound is an infinity.  [finite q] is the
    number [q] when it is in the finite range and [None], which stands for
    an infinity or NaN, when it is not.  The rounding of finite results is
    not modelled. *)
Definition overflow_threshold : Q := inject_Z (2 ^ 1024 - 2 ^ 970).

Definition finite (q : Q) : option Q :=
  if Qle_bool overflow_threshold (Qabs q) then None else Some q.

(** [colorPalette[finalIndex]] may be [undefined] ([None]).  Once a number
    is an infinity, every number computed from it is an infinity or NaN:
    [Infinity % n] is NaN, so is the index, and the result is [undefined]. *)
Definition generateColorFromSemantic (it : item) : option string :=
  match semantic_embedding it with
  | None | Some [] => Some "#9C27B0"
  | Some semantic =>
      let features := firstn 10 semantic in
      let count := inject_Z (Z.of_nat (length features)) in
      let paletteLength := inject_Z (Z.of_nat (length colorPalette)) in
      sum ← fold_left (fun a b => a ← a; finite (a + Qabs b)) features (Some 0);
      mean ← finite (sum / count);
      squares ← fold_left
                  (fun s v =>
                     s ← s;
                     square ← finite ((Qabs v - mean) * (Qabs v - mean));
                     finite (s + square))
                  features (Some 0);
      variance ← finite (squares / count);
      scaledMean ← finite (mean * 1000);
      scaledVariance ← finite (variance * 10000);
      let index1 := Qfloor (Number_rem scaledMean paletteLength) in
      let index2 := Qfloor (Number_rem scaledVariance paletteLength) in
      let finalIndex :=
        Z.rem (index1 + index2) (Z.of_nat (length colorPalette)) in
      if (finalIndex <? 0)%Z then None
      else colorPalette !! Z.to_nat finalIndex
  end.

Section Color.

(** [this.getEmotionColor(dominantEmotion, emotionVec)], which formats a
    colour string. *)
Variable getEmotionColor : string -> list Q -> string.

Definition generateColor (it : item) : option string :=
  let emotionVec := extractEmotionVector (emotion_scores it) in
  let dominantEmotion := getDominantEmotion (Some emotionVec) in
  if bool_decide (dominantEmotion = "neutral")
     || negb (Qle_bool (nth 6 emotionVec 0) 0.7)
  then generateColorFromSemantic it
  else Some (getEmotionColor dominantEmotion emotionVec).

Record visual_properties : Type := mkVisualProperties {
  visual_size : Q;
  visual_color : option string;
  visual_opacity : Q
}.

Definition generateVisualProperties (it : item) : visual_properties :=
  let textLength := or_number (metadata_text_length it) 1000 in
  let normalizedLength := Qmin 1 (textLength / 5000) in
  let size := 8 + normalizedLength * 12 in
  let color := generateColor it in
  {| visual_size := size; visual_color := color; visual_opacity := 0.8 |}.

End Color.

End DataLoader.

(* ===================================================================== *)
(** * Part II: predicates and invariants used in the properties           *)
(* ===================================================================== *)

Section CosineVocabulary.
Import VisualizationApp.
Local Open Scope R_scope.


(** The vector has a non-zero entry at an index the loop visits: any index
    for vectors of at most 500 entries, an even index for longer ones. *)
Definition sampled_nonzero (a : list R) : Prop :=
  exists k : nat,
    (k * cosine_step a < length a)%nat /\ nth (k * cosine_step a) a 0 <> 0.

(** A vector of 501 entries whose only non-zero entry sits at index 1. *)
Definition odd_only_vector : list R := 0 :: 1 :: repeat 0 499%nat.

End CosineVocabulary.

Section ArithmeticVocabulary.
Import JSNumber VisualizationApp.
Context {num : Type} `{Arithmetic num}.

(** The entries at the even indices 0, 2, 4, ... *)
Fixpoint evens (l : list num) : list num :=
  match l with
  | x :: _ :: l' => x :: evens l'
  | _ => l
  end.

(** The entries that the loop of [cosineSimilarity] reads: all of them for
    at most 500 entries, every other one for more. *)
Definition sampled (v : list num) : list num :=
  if (500 <? length v)%nat then evens v else v.

(** The sum of the squares, accumulated from the left as in the loop. *)
Definition sum_of_squares (l : list num) : num :=
  fold_left (fun acc x => add acc (mul x x)) l (of_nat 0).

(** The squared norm that the function computes for [v]: the sum over the
    sampled entries, doubled when every other entry was skipped. *)
Definition squared_norm (v : list num) : num :=
  let n := sum_of_squares (sampled v) in
  if (500 <? length v)%nat then mul n (of_nat 2) else n.

(** The quotient [n / (sqrt n * sqrt n)] with the guard of the code. *)
Definition self_quotient (n : num) : num :=
  let denominator := mul (sqrt n) (sqrt n) in
  if is_zero denominator then of_nat 0 else div n denominator.

Definition swap_generic (s : Generic.sums num) : Generic.sums num :=
  Generic.mkSums (Generic.dotProduct s) (Generic.norm2 s) (Generic.norm1 s).

End ArithmeticVocabulary.

(** Vectors of binary64 numbers. *)
Module Binary64.
Import PrimFloat.

(** The vector [1, 5] and the similarity that binary64 gives it with
    itself, 1.0000000000000002. *)
Definition one_five : list float := [1%float; 5%float].
Definition above_one : float := 0x1.0000000000001p+0%float.

(** 501 entries, all zero except the one at index 1. *)
Definition odd_only : list float := 0%float :: 1%float :: repeat 0%float 499.

End Binary64.

(** The real-number accumulators read as accumulators over the real
    arithmetic. *)
Definition sums_generic (s : VisualizationApp.sums)
    : VisualizationApp.Generic.sums R :=
  VisualizationApp.Generic.mkSums (VisualizationApp.dotProduct s)
    (VisualizationApp.norm1 s) (VisualizationApp.norm2 s).

Section LinkVocabulary.
Import VisualizationApp.

(** The indices of the local window around [currentIndex], in increasing
    order and without [currentIndex] itself. *)
Definition local_window (n currentIndex : nat) : list nat :=
  let windowSize := Nat.min 20 n in
  let start := currentIndex - windowSize in
  let end_ := Nat.min n (currentIndex + windowSize) in
  filter (fun i => i <> currentIndex) (seq start (end_ - start)).

(** The key of a link, as computed when the link was added. *)
Definition link_key (l : link) : string := linkKey (source l) (target l).

(** Number of links whose [source] is the node [s]. *)
Definition out_degree (s : nat) (links : list link) : nat :=
  length (filter (fun l => source l = s) links).

(** Number of links with the node [s] at either end. *)
Definition degree (s : nat) (links : list link) : nat :=
  length (filter (fun l => source l = s \/ target l = s) links).

(** The canonical form of the unordered pair of end points of a link. *)
Definition unordered_pair (l : link) : nat * nat :=
  (Nat.min (source l) (target l), Nat.max (source l) (target l)).

(** What every collected candidate of node [i] satisfies. *)
Definition candidate_ok (threshold : Q) (calculateSimilarity : nat -> nat -> Q)
    (i : nat) (c : candidate) : Prop :=
  cand_target c = targetIndex c /\ targetIndex c <> i
  /\ cand_similarity c = calculateSimilarity i (targetIndex c)
  /\ (threshold <= cand_similarity c)%Q.

(** The invariant of the outer loop after the nodes [0 .. m-1] have been
    processed. *)
Definition link_ok (threshold : Q) (calculateSimilarity : nat -> nat -> Q)
    (m : nat) (linkSet : gset string) (l : link) : Prop :=
  source l < m /\ source l <> target l
  /\ (threshold <= similarity l)%Q
  /\ similarity l = calculateSimilarity (source l) (target l)
  /\ link_key l ∈ linkSet.

Definition links_inv (n : nat) (threshold : Q)
    (calculateSimilarity : nat -> nat -> Q) (m : nat) (st : links_state) : Prop :=
  let '(links, linkSet, _) := st in
  Forall (link_ok threshold calculateSimilarity m linkSet) links
  /\ NoDup (link_key <$> links)
  /\ forall s, s < m -> (Z.of_nat (out_degree s links) <= maxLinksPerNode n)%Z.

(** The state after the first [m] iterations of the outer loop. *)
Definition links_after (n : nat) (threshold : Q) (config_dimension : string)
    (calculateSimilarity : nat -> nat -> Q) (Math_random : nat -> Q)
    (m k : nat) : links_state :=
  fold_left (links_body n threshold config_dimension calculateSimilarity Math_random)
    (seq 0 m) ([], ∅, k).

(** Twelve nodes with identical vectors: every similarity is 1. *)
Definition twelve_equal_nodes : list link :=
  generateLinksOptimized 12 (95 # 100) "multidimensional"
    (fun _ _ => 1%Q) (fun _ => 0%Q) 0.

End LinkVocabulary.

Section ClusterVocabulary.
Import ClusterFusion.

(** Indices of [nodes] that have not been visited yet. *)
Definition unvisited (nodes : list nat) (visited : gset nat) : gset nat :=
  set_seq 0 (length nodes) ∖ visited.

(** The quantity that decreases with every iteration of the [while] loop. *)
Definition bfs_measure (nodes : list nat) (st : bfs_state) : nat :=
  let '(_, queue, visited) := st in length queue + size (unvisited nodes visited).

(** The set [V] of visited indices contains the index of every neighbour of
    the node at index [p] over a link of sufficient similarity. *)
Definition closed_at (nodes : list nat) (links : list link) (threshold : Q)
    (p : nat) (V : gset nat) : Prop :=
  forall l w q,
    l ∈ links -> neighborNode (nodes !! p) l = Some w ->
    (threshold <= similarity l)%Q ->
    build_nodeIndexMap nodes !! w = Some q -> q ∈ V.

Definition closed (nodes : list nat) (links : list link) (threshold : Q)
    (V : gset nat) : Prop :=
  forall p, p ∈ V -> closed_at nodes links threshold p V.

(** The node [x] stands at a visited index. *)
Definition has_index_in (nodes : list nat) (V : gset nat) (x : nat) : Prop :=
  exists p, p ∈ V /\ nodes !! p = Some x.

(** The node [x] entered the cluster as the neighbour of a node of the
    list, and its index was not visited before the search started. *)
Definition reached (nodes : list nat) (links : list link) (threshold : Q)
    (V0 visited : gset nat) (x : nat) : Prop :=
  exists q l u,
    build_nodeIndexMap nodes !! x = Some q /\ q ∈ visited /\ (q ∉ V0)
    /\ l ∈ links /\ u ∈ nodes /\ neighborNode (Some u) l = Some x
    /\ (threshold <= similarity l)%Q.

(** What holds of [cluster] and [visited] throughout a search that started
    from the node [x0] with the visited set [V0]. *)
Definition search_inv (nodes : list nat) (links : list link) (threshold : Q)
    (V0 : gset nat) (x0 : nat) (st : bfs_state) : Prop :=
  let '(cluster, queue, visited) := st in
  V0 ⊆ visited
  /\ has_index_in nodes visited x0
  /\ Forall (fun x => x = x0 \/ reached nodes links threshold V0 visited x) cluster.

(** Invariant of the [while] loop: in addition, every visited index that is
    no longer in the queue has the indices of all its neighbours visited. *)
Definition bfs_inv (nodes : list nat) (links : list link) (threshold : Q)
    (V0 : gset nat) (x0 : nat) (st : bfs_state) : Prop :=
  search_inv nodes links threshold V0 x0 st
  /\ let '(_, queue, visited) := st in
     forall p, p ∈ visited -> p ∉ queue ->
       closed_at nodes links threshold p visited.

(** What one pass over the links adds to a state [st0]: only indices that
    were pushed on the queue become visited. *)
Definition extends (st0 st : bfs_state) : Prop :=
  let '(_, queue0, visited0) := st0 in
  let '(_, queue, visited) := st in
  visited0 ⊆ visited
  /\ exists new, queue = queue0 ++ new
       /\ forall p, p ∈ visited -> p ∈ visited0 \/ p ∈ new.

(** Invariant of the outer loop: the visited set is closed, the clusters
    found so far have at least two members, every member stands at a
    visited index, and no node lies in two clusters. *)
Definition clusters_inv (nodes : list nat) (links : list link) (threshold : Q)
    (clusters : list (list nat)) (visited : gset nat) : Prop :=
  closed nodes links threshold visited
  /\ Forall (fun c => 2 <= length c) clusters
  /\ Forall (Forall (has_index_in nodes visited)) clusters
  /\ (forall i j c1 c2 x,
        clusters !! i = Some c1 -> clusters !! j = Some c2 ->
        x ∈ c1 -> x ∈ c2 -> i = j).

(** A link of similarity 1 between two nodes, stored in either direction. *)
Definition full_link (flip : bool) (a b : nat) : link :=
  if flip then mkLink b a 1 "multidimensional" else mkLink a b 1 "multidimensional".

End ClusterVocabulary.

Section GlyphVocabulary.
Import JS SubjectivityExtractor IsotypeRenderer.
Local Open Scope Q_scope.



(** The intensity is a normalised scalar, as every scalar of a profile. *)
Definition intensity_normalised (s : subjectivity) : Prop :=
  (0 <= emotional_intensity (subj_emotional_expression s) <= 1)%Q.


(** The values of the nine fields that do not depend on the vectors, for a
    node without text. *)
Definition empty_text_fields (p : subjectivity) : Prop :=
  subj_narrative_style p = mkNarrative (Some "conversational") 0.5 None
  /\ subj_emotional_expression p = mkEmotional "moderate" 0.5
  /\ subj_temporal_orientation p = mkTemporal "mixed" 0.33 None
  /\ subj_self_reference p = mkSelfReference "medium" 0.5
  /\ subj_complexity p = mkComplexity "moderate" 0.5
  /\ subj_authenticity p = mkAuthenticity (Some "casual") 0.5 None
  /\ subj_rhythm p = 0.5
  /\ subj_reflection_depth p = 0.5
  /\ subj_expression_mode p = mkExpressionMode "direct" 0.5.

(** The node of [extract("", [], {})]: an empty text and no vector entries
    (an object without [length] is read like an empty array). *)
Definition empty_node : node :=
  mkNode (Some []) (Some (mkIsotypeSignature (Some []) (Some []) None)) None None.

End GlyphVocabulary.

(** ** Predicates of the further properties *)

Section LinkFurtherVocabulary.
Import VisualizationApp.

(** [Math.random()] returns a number of the interval [0, 1). *)
Definition random_in_range (Math_random : nat -> Q) : Prop :=
  forall k, (0 <= Math_random k)%Q /\ (Math_random k < 1)%Q.

(** All node indices other than [i], in increasing order. *)
Definition others (n i : nat) : list nat :=
  filter (fun j => j <> i) (seq 0 n).

(** No code unit of the string is the separator of a link key. *)
Fixpoint no_dash (s : string) : Prop :=
  match s with
  | EmptyString => True
  | String c rest => c <> "-"%char /\ no_dash rest
  end.

(** Candidates in the order of decreasing similarity. *)
Definition descending (l : list candidate) : Prop :=
  StronglySorted (fun c d => (cand_similarity d <= cand_similarity c)%Q) l.

(** A link between two nodes of the list that carries the similarity
    computed for its end points and the configured dimension. *)
Definition link_wf (n : nat) (threshold : Q) (config_dimension : string)
    (calculateSimilarity : nat -> nat -> Q) (l : link) : Prop :=
  source l < n /\ target l < n
  /\ dimension l = config_dimension
  /\ similarity l = calculateSimilarity (source l) (target l)
  /\ (threshold <= similarity l)%Q.

(** Every key of the set belongs to a link of the list, and every pair
    whose first node was processed and whose similarity reaches the
    threshold has its key in the set. *)
Definition links_complete (n : nat) (threshold : Q)
    (calculateSimilarity : nat -> nat -> Q) (m : nat) (st : links_state) : Prop :=
  let '(links, linkSet, _) := st in
  (forall key, key ∈ linkSet -> exists l, l ∈ links /\ link_key l = key)
  /\ (forall i j, i < m -> j < n -> i <> j ->
        (threshold <= calculateSimilarity i j)%Q -> linkKey i j ∈ linkSet).

End LinkFurtherVocabulary.

Section ClusterFurtherVocabulary.
Import ClusterFusion.

(** A link of sufficient similarity has [u] at one end and [w] at the other. *)
Definition adjacent (links : list link) (threshold : Q) (u w : nat) : Prop :=
  exists l, l ∈ links /\ neighborNode (Some u) l = Some w
            /\ (threshold <= similarity l)%Q.

(** Every member after the first is adjacent to an earlier member. *)
Definition connected_cluster (links : list link) (threshold : Q)
    (c : list nat) : Prop :=
  forall k w, c !! S k = Some w ->
    exists j u, j <= k /\ c !! j = Some u /\ adjacent links threshold u w.

(** Invariant of the [while] loop of a search started with the visited set
    [V0]: the node at every index visited by the search is a member of the
    cluster, as is the node at every queued index, and the cluster is
    connected. *)
Definition grow_inv (nodes : list nat) (links : list link) (threshold : Q)
    (V0 : gset nat) (st : bfs_state) : Prop :=
  let '(cluster, queue, visited) := st in
  (forall q, q ∈ visited -> q ∉ V0 -> exists x, x ∈ cluster /\ nodes !! q = Some x)
  /\ (forall q, q ∈ queue -> exists x, x ∈ cluster /\ nodes !! q = Some x)
  /\ connected_cluster links threshold cluster.

(** Invariant of the outer loop at position [index]: the visited set is
    closed and contains every earlier index, the clusters are connected, and
    two distinct nodes of the list that are adjacent lie in one cluster as
    soon as an index of the first is visited. *)
Definition components_inv (nodes : list nat) (links : list link) (threshold : Q)
    (index : nat) (clusters : list (list nat)) (visited : gset nat) : Prop :=
  closed nodes links threshold visited
  /\ (forall p, p < index -> p ∈ visited)
  /\ Forall (connected_cluster links threshold) clusters
  /\ (forall q u w, q ∈ visited -> nodes !! q = Some u -> w ∈ nodes -> u <> w ->
        adjacent links threshold u w ->
        exists c, c ∈ clusters /\ u ∈ c /\ w ∈ c).

End ClusterFurtherVocabulary.

Section NoiseFurtherVocabulary.
Local Open Scope R_scope.

(** [Math.random()] returns a number of the interval [0, 1). *)
Definition random_unit (Math_random : nat -> R) : Prop :=
  forall k, 0 <= Math_random k < 1.

(** Every entry of the table lies between [lo] and [hi]. *)
Definition table_within (lo hi : R) (table : list R) : Prop :=
  Forall (fun v => lo <= v <= hi) table.

(** What the loop over the octaves keeps: the accumulated value lies
    between [lo] and [hi] times the accumulated amplitude. *)
Definition octave_inv (lo hi : R) (value amplitude maxValue : R) : Prop :=
  0 < amplitude /\ 0 <= maxValue
  /\ lo * maxValue <= value <= hi * maxValue.

End NoiseFurtherVocabulary.

Section NoiseClaimVocabulary.
Local Open Scope R_scope.

(** Arguments for which every number that smoothNoise computes is finite in
    binary64: coordinates and seed of magnitude at most a million and
    between 1 and 64 octaves (the frequency is 1.8 to the power of the
    octave). *)
Definition moderate_arguments (x y seed : R) (octaves : nat) : Prop :=
  Rabs x <= 1000000 /\ Rabs y <= 1000000 /\ Rabs seed <= 1000000
  /\ (1 <= octaves <= 64)%nat.


End NoiseClaimVocabulary.

Section ShapeVocabulary.
Import ClusterShapes.
Local Open Scope R_scope.

(** The distance of a node from a point. *)
Definition node_distance (cx cy : R) (node : placed_node) : R :=
  sqrt ((or_zero (node_x node) - cx) * (or_zero (node_x node) - cx)
        + (or_zero (node_y node) - cy) * (or_zero (node_y node) - cy)).

(** The arithmetic mean of [f] over a list. *)
Definition mean {A : Type} (f : A -> R) (l : list A) : R :=
  fold_right (fun a s => f a + s) 0 l / INR (length l).



(** Shapes in the order of decreasing radius. *)
Definition radius_descending (shapes : list fusion_shape) : Prop :=
  StronglySorted
    (fun a b => radius (fusion_bounds b) <= radius (fusion_bounds a)) shapes.

End ShapeVocabulary.

Section ExtractorFurtherVocabulary.
Import JS SubjectivityExtractor.
Local Open Scope Q_scope.

(** The largest of the indicator counts of the categories. *)
Definition max_count (counts : list (string * nat)) : nat :=
  fold_left Nat.max (map snd counts) 0%nat.

(** The first category, in the order written, whose count is the largest. *)
Definition dominant (counts : list (string * nat)) : option string :=
  fst <$> List.find (fun kc => (snd kc =? max_count counts)%nat) counts.

(** The share of each category in [total]. *)
Definition shares (counts : list (string * nat)) (total : nat) : scores :=
  map (fun kc => (fst kc, Qnat (snd kc) / Qnat total)) counts.

(** A number of the interval [0, 1]. *)
Definition unit_interval (q : Q) : Prop := 0 <= q /\ q <= 1.

End ExtractorFurtherVocabulary.

Section CaseVocabulary.
Import JS.

(** The code units [a] and [b] are equal or are the upper and the lower
    case of one ASCII letter. *)
Definition same_letter (a b : N) : Prop :=
  a = b
  \/ ((65 <= a <= 90)%N /\ b = (a + 32)%N)
  \/ ((65 <= b <= 90)%N /\ a = (b + 32)%N).

(** Two texts that differ at most in the case of ASCII letters. *)
Definition same_up_to_case (t1 t2 : text) : Prop := Forall2 same_letter t1 t2.

End CaseVocabulary.

Section GlyphFurtherVocabulary.
Import JS SubjectivityExtractor IsotypeRenderer.

(** The numbers stored with a node are in their documented ranges: the
    emotion scores are not negative, the uniqueness score lies in [0, 1]
    and the text length is not negative. *)
Definition node_in_range (nd : node) : Prop :=
  Forall (fun e => (0 <= e)%Q) (node_emotion nd)
  /\ (forall u, node_isotype_signature nd ≫= uniqueness_score = Some u ->
        (0 <= u)%Q /\ (u <= 1)%Q)
  /\ (forall len, metadata_text_length nd = Some len -> (0 <= len)%Q).


(** The ranges of the parameters of a glyph. *)
Definition signature_in_range (s : signature) : Prop :=
  let d := sig_shapeDeformation s in
  let i := sig_internalPattern s in
  let e := sig_edgeCharacteristics s in
  let c := sig_colorAdjustment s in
  ((0.5 <= regularity d)%Q /\ (regularity d <= 0.9)%Q)
  /\ ((0.05 <= deformation d)%Q /\ (deformation d <= 0.25)%Q)
  /\ ((0 <= asymmetry d)%Q /\ (asymmetry d <= 0.15)%Q)
  /\ ((0.2 <= density i)%Q /\ (density i <= 0.6)%Q)
  /\ ((0.3 <= sharpness e)%Q /\ (sharpness e <= 0.8)%Q)
  /\ ((0.5 <= edge_regularity e)%Q /\ (edge_regularity e <= 0.9)%Q)
  /\ ((0.5 <= thickness e)%Q /\ (thickness e <= 0.8)%Q)
  /\ ((0.7 <= opacity c)%Q /\ (opacity c <= 0.95)%Q).

End GlyphFurtherVocabulary.

Section LoaderVocabulary.
Import JS DataLoader.
Local Open Scope Q_scope.

(** The first index at which the vector takes its largest value. *)
Definition first_maximum (vec : list Q) (i : nat) : Prop :=
  exists m, vec !! i = Some m
    /\ (forall j v, vec !! j = Some v -> v <= m)
    /\ (forall j v, (j < i)%nat -> vec !! j = Some v -> v < m).

(** The scores of an item for which only [neutral] was measured. *)
Definition neutral_only (v : Q) : gmap string Q := {["neutral"%string := v]}.

End LoaderVocabulary.

Section LoaderRangeVocabulary.
Local Open Scope Q_scope.

(** A magnitude of at most 10^100, far inside the finite range of binary64. *)
Definition moderate (v : Q) : Prop := Qabs v <= inject_Z (10 ^ 100).

End LoaderRangeVocabulary.

(* ===================================================================== *)
(** * Part III: properties                                                *)
(* ===================================================================== *)

(** ** Cosine similarity *)

Section CosineProperties.
Import VisualizationApp.
Local Open Scope R_scope.

Lemma sums_eq (s t : sums) :
  dotProduct s = dotProduct t -> norm1 s = norm1 t -> norm2 s = norm2 t -> s = t.
Proof. destruct s, t; simpl; intros; subst; reflexivity. Qed.

(** The loop stops by itself once [i] has passed the end of the vector, so
    [length vec1] iterations are always enough. *)
Lemma cosine_loop_past_end fuel step v1 v2 i s :
  (length v1 <= i)%nat -> cosine_loop fuel step v1 v2 i s = s.
Proof.
  intros Hi. destruct fuel as [|fuel]; simpl; [reflexivity|].
  destruct (Nat.ltb_spec i (length v1)); [lia|reflexivity].
Qed.

Lemma cosine_loop_fuel_enough fuel extra step v1 v2 i s :
  (1 <= step)%nat -> (length v1 <= i + fuel)%nat ->
  cosine_loop (fuel + extra) step v1 v2 i s = cosine_loop fuel step v1 v2 i s.
Proof.
  intros Hstep. revert i s.
  induction fuel as [|fuel IH]; intros i s Hlen.
  - simpl. rewrite cosine_loop_past_end by lia. reflexivity.
  - simpl. destruct (Nat.ltb_spec i (length v1)); [|reflexivity].
    apply IH. lia.
Qed.




(** On equal arguments the three accumulators stay equal. *)
Lemma cosine_loop_self fuel step v i s :
  dotProduct s = norm1 s -> norm2 s = norm1 s ->
  let r := cosine_loop fuel step v v i s in
  dotProduct r = norm1 r /\ norm2 r = norm1 r.
Proof.
  revert i s. induction fuel as [|fuel IH]; intros i s Hd Hn; simpl; [tauto|].
  destruct (i <? length v)%nat; [|tauto].
  apply IH; simpl; rewrite ?Hd, ?Hn; reflexivity.
Qed.

Lemma cosine_loop_norm1_mono fuel step v1 v2 i s :
  norm1 s <= norm1 (cosine_loop fuel step v1 v2 i s).
Proof.
  revert i s. induction fuel as [|fuel IH]; intros i s; simpl; [lra|].
  destruct (i <? length v1)%nat; [|lra].
  eapply Rle_trans; [|apply IH]. simpl.
  pose proof (Rle_0_sqr (nth i v1 0)) as Hsq. unfold Rsqr in Hsq. lra.
Qed.

(** A non-zero entry at a visited index makes the first norm grow. *)
Lemma cosine_loop_norm1_pos k fuel step v1 v2 i s :
  (k < fuel)%nat -> (i + k * step < length v1)%nat ->
  nth (i + k * step) v1 0 <> 0 ->
  norm1 s < norm1 (cosine_loop fuel step v1 v2 i s).
Proof.
  revert fuel i s. induction k as [|k IH]; intros fuel i s Hk Hlt Hnz;
    (destruct fuel as [|fuel]; [lia|]); simpl.
  - replace (i + 0 * step)%nat with i in * by lia.
    destruct (Nat.ltb_spec i (length v1)); [|lia].
    eapply Rlt_le_trans; [|apply cosine_loop_norm1_mono]. simpl.
    assert (0 < nth i v1 0 * nth i v1 0)
      by (apply Rsqr_pos_lt in Hnz; exact Hnz).
    lra.
  - destruct (Nat.ltb_spec i (length v1)); [|lia].
    eapply Rle_lt_trans; [|apply IH].
    + simpl. pose proof (Rle_0_sqr (nth i v1 0)) as Hsq. unfold Rsqr in Hsq. lra.
    + lia.
    + replace (i + step + k * step)%nat with (i + S k * step)%nat by lia. exact Hlt.
    + replace (i + step + k * step)%nat with (i + S k * step)%nat by lia. exact Hnz.
Qed.

(** Entries that are all zero at the visited indices leave the accumulators
    unchanged. *)
Lemma cosine_loop_zero fuel step v (P : nat -> Prop) i s :
  (forall j, P j -> P (j + step)%nat) ->
  (forall j, P j -> nth j v 0 = 0) ->
  P i -> cosine_loop fuel step v v i s = s.
Proof.
  intros Hstep Hzero. revert i s.
  induction fuel as [|fuel IH]; intros i s Hi; simpl; [reflexivity|].
  destruct (i <? length v)%nat; [|reflexivity].
  rewrite IH by (apply Hstep; exact Hi).
  unfold cosine_body. rewrite (Hzero i Hi).
  apply sums_eq; simpl; ring.
Qed.

Lemma cosine_step_bounds v : (1 <= cosine_step v <= 2)%nat.
Proof. unfold cosine_step. destruct (500 <? length v)%nat; lia. Qed.

(** In exact arithmetic the similarity of a vector with itself is 1 as soon
    as one sampled entry is not zero. *)
Lemma cosineSimilarity_self (a : list R) :
  sampled_nonzero a -> cosineSimilarity (Some a) (Some a) = 1.
Proof.
  intros [k [Hlt Hnz]]. unfold cosineSimilarity.
  rewrite Nat.eqb_refl. simpl negb. cbv iota.
  pose proof (cosine_step_bounds a) as Hstep.
  set (s := cosine_loop (length a) (cosine_step a) a a 0 (mkSums 0 0 0)).
  destruct (cosine_loop_self (length a) (cosine_step a) a 0%nat (mkSums 0 0 0)
              eq_refl eq_refl) as [Hd Hn].
  fold s in Hd, Hn.
  assert (Hpos : 0 < norm1 s).
  { apply (cosine_loop_norm1_pos k (length a) (cosine_step a) a a 0%nat (mkSums 0 0 0)).
    - nia.
    - exact Hlt.
    - exact Hnz. }
  assert (Hadj : dotProduct (cosine_adjust (cosine_step a) s)
                 = norm1 (cosine_adjust (cosine_step a) s)
               /\ norm2 (cosine_adjust (cosine_step a) s)
                 = norm1 (cosine_adjust (cosine_step a) s)
               /\ 0 < norm1 (cosine_adjust (cosine_step a) s)).
  { unfold cosine_adjust. destruct (1 <? cosine_step a)%nat; simpl.
    - rewrite Hd, Hn. repeat split; try reflexivity.
      apply Rmult_lt_0_compat; [exact Hpos|]. apply lt_0_INR. lia.
    - auto. }
  destruct Hadj as [Hd' [Hn' Hpos']].
  rewrite Hd', Hn', sqrt_sqrt by lra.
  destruct (Req_dec_T _ 0) as [E|E]; [lra|].
  unfold Rdiv. apply Rinv_r. exact E.
Qed.

Lemma odd_only_vector_even j :
  Nat.even j = true -> nth j odd_only_vector 0 = 0.
Proof.
  unfold odd_only_vector. destruct j as [|[|j]]; intros H;
    [reflexivity|discriminate|].
  change (nth j (repeat 0 499%nat) 0 = 0). apply nth_repeat.
Qed.

Lemma cosineSimilarity_odd_only :
  cosineSimilarity (Some odd_only_vector) (Some odd_only_vector) = 0.
Proof.
  unfold cosineSimilarity.
  assert (Hlen : length odd_only_vector = 501%nat)
    by reflexivity.
  rewrite Nat.eqb_refl. simpl negb. cbv iota.
  assert (Hs : cosine_step odd_only_vector = 2%nat)
    by (unfold cosine_step; rewrite Hlen; reflexivity).
  rewrite Hs.
  rewrite (cosine_loop_zero _ 2 odd_only_vector (fun j => Nat.even j = true)).
  - unfold cosine_adjust. simpl. rewrite Rmult_0_l, sqrt_0, Rmult_0_l.
    destruct (Req_dec_T 0 0); [reflexivity|congruence].
  - intros j Hj. rewrite Nat.even_add, Hj. reflexivity.
  - apply odd_only_vector_even.
  - reflexivity.
Qed.

(** C2, counterexample: [odd_only_vector] is a non-zero vector, yet its
    cosine similarity with itself is 0 and not 1, because the vector has
    more than 500 entries and its only non-zero entry is at an odd index,
    which the loop skips. *)
Lemma cosineSimilarity_self_counterexample :
  nth 1 odd_only_vector 0 <> 0
  /\ cosineSimilarity (Some odd_only_vector) (Some odd_only_vector) <> 1.
Proof.
  split.
  - simpl. lra.
  - rewrite cosineSimilarity_odd_only. lra.
Qed.

End CosineProperties.

(** ** Cosine similarity over binary64 and over any arithmetic *)

Section ArithmeticProperties.
Import JSNumber VisualizationApp.

Section AnyArithmetic.
Context {num : Type} `{Arithmetic num}.

Lemma generic_body_swap v1 v2 i s :
  (forall x y : num, mul x y = mul y x) ->
  Generic.cosine_body v2 v1 i (swap_generic s)
  = swap_generic (Generic.cosine_body v1 v2 i s).
Proof.
  intros Hcomm. unfold Generic.cosine_body, swap_generic. cbn.
  by rewrite (Hcomm (nth i v2 (of_nat 0)) (nth i v1 (of_nat 0))).
Qed.

Lemma generic_loop_swap fuel step v1 v2 i s :
  (forall x y : num, mul x y = mul y x) ->
  length v1 = length v2 ->
  Generic.cosine_loop fuel step v2 v1 i (swap_generic s)
  = swap_generic (Generic.cosine_loop fuel step v1 v2 i s).
Proof.
  intros Hcomm Hlen. revert i s.
  induction fuel as [|fuel IH]; intros i s; cbn [Generic.cosine_loop]; [reflexivity|].
  rewrite <- Hlen. destruct (i <? length v1)%nat; [|reflexivity].
  rewrite generic_body_swap by exact Hcomm. apply IH.
Qed.

Lemma generic_adjust_swap step s :
  Generic.cosine_adjust step (swap_generic s)
  = swap_generic (Generic.cosine_adjust step s).
Proof. unfold Generic.cosine_adjust. by destruct (1 <? step)%nat. Qed.

(** Symmetry needs one law only, that multiplication commutes. *)
Lemma generic_cosineSimilarity_sym (a b : option (list num)) :
  (forall x y : num, mul x y = mul y x) ->
  Generic.cosineSimilarity a b = Generic.cosineSimilarity b a.
Proof.
  intros Hcomm. destruct a as [a|], b as [b|]; try reflexivity.
  unfold Generic.cosineSimilarity. rewrite (Nat.eqb_sym (length b) (length a)).
  destruct (Nat.eqb_spec (length a) (length b)) as [Hlen|]; [|reflexivity].
  cbn [negb]. cbv zeta.
  assert (Hstep : Generic.cosine_step b = Generic.cosine_step a)
    by (unfold Generic.cosine_step; by rewrite Hlen).
  rewrite Hstep, <- Hlen.
  assert (E : Generic.cosine_adjust (Generic.cosine_step a)
                (Generic.cosine_loop (length a) (Generic.cosine_step a) b a 0
                   (Generic.mkSums (of_nat 0) (of_nat 0) (of_nat 0)))
              = swap_generic (Generic.cosine_adjust (Generic.cosine_step a)
                  (Generic.cosine_loop (length a) (Generic.cosine_step a) a b 0
                     (Generic.mkSums (of_nat 0) (of_nat 0) (of_nat 0))))).
  { rewrite <- generic_adjust_swap, <- generic_loop_swap by done. reflexivity. }
  rewrite E. clear E.
  set (s := Generic.cosine_adjust _ _). cbn [swap_generic Generic.dotProduct
    Generic.norm1 Generic.norm2].
  by rewrite (Hcomm (sqrt (Generic.norm2 s))).
Qed.

Lemma evens_cons2 (x y : num) (l : list num) : evens (x :: y :: l) = x :: evens l.
Proof. reflexivity. Qed.

(** On a vector paired with itself the three accumulators stay equal: from
    index [i] on, each adds the squares of the entries the loop visits. *)
Lemma generic_loop_self fuel step (v : list num) i a :
  step = 1%nat \/ step = 2%nat -> (length v - i <= fuel)%nat ->
  Generic.cosine_loop fuel step v v i (Generic.mkSums a a a)
  = let r := fold_left (fun acc x => add acc (mul x x))
               (if (1 <? step)%nat then evens (drop i v) else drop i v) a in
    Generic.mkSums r r r.
Proof.
  intros Hstep. revert i a.
  induction fuel as [|fuel IH]; intros i a Hfuel; cbn [Generic.cosine_loop]; cbv zeta.
  - rewrite drop_ge by lia. by destruct (1 <? step)%nat.
  - destruct (Nat.ltb_spec i (length v)) as [Hi|Hi].
    + destruct (lookup_lt_is_Some_2 v i Hi) as [x Hx].
      unfold Generic.cosine_body. cbn [Generic.dotProduct Generic.norm1 Generic.norm2].
      rewrite (nth_lookup_Some v i (of_nat 0) x Hx).
      rewrite IH by lia. cbv zeta.
      rewrite (drop_S v x i Hx).
      destruct Hstep as [-> | ->]; cbn [Nat.ltb Nat.leb].
      * by rewrite Nat.add_1_r.
      * replace (i + 2)%nat with (S i + 1)%nat by lia. rewrite <- drop_drop.
        destruct (drop (S i) v) as [|y rest]; [reflexivity|].
        rewrite evens_cons2. reflexivity.
    + rewrite drop_ge by lia. by destruct (1 <? step)%nat.
Qed.

(** The similarity of a vector with itself is the quotient of its computed
    squared norm by the square of the root of that norm; no law of the
    arithmetic is used. *)
Lemma generic_cosineSimilarity_self (v : list num) :
  Generic.cosineSimilarity (Some v) (Some v) = self_quotient (squared_norm v).
Proof.
  unfold Generic.cosineSimilarity. rewrite Nat.eqb_refl. cbn [negb]. cbv zeta.
  assert (Hstep : Generic.cosine_step v = 1%nat \/ Generic.cosine_step v = 2%nat)
    by (unfold Generic.cosine_step; destruct (500 <? length v)%nat; auto).
  rewrite (generic_loop_self _ _ v 0 (of_nat 0) Hstep) by lia. cbv zeta.
  unfold self_quotient, squared_norm, sampled, sum_of_squares, Generic.cosine_adjust,
    Generic.cosine_step.
  rewrite drop_0. by destruct (500 <? length v)%nat.
Qed.

End AnyArithmetic.

(** Multiplication of binary64 numbers commutes. *)
Lemma SFmul_comm prec emax x y :
  SpecFloat.SFmul prec emax x y = SpecFloat.SFmul prec emax y x.
Proof.
  destruct x as [sx|sx| |sx mx ex], y as [sy|sy| |sy my ey]; cbn; try reflexivity;
    try (rewrite Bool.xorb_comm; reflexivity).
  rewrite Bool.xorb_comm, Pos.mul_comm, Z.add_comm. reflexivity.
Qed.

Lemma binary64_mul_comm (x y : PrimFloat.float) :
  mul (Arithmetic := binary64) x y = mul (Arithmetic := binary64) y x.
Proof.
  cbn [mul binary64].
  rewrite <- (FloatAxioms.SF2Prim_Prim2SF (PrimFloat.mul x y)),
    <- (FloatAxioms.SF2Prim_Prim2SF (PrimFloat.mul y x)).
  rewrite !FloatAxioms.mul_spec. unfold FloatAxioms.SF64mul.
  by rewrite SFmul_comm.
Qed.

(** The real-number model of Part I is the function over the real
    arithmetic. *)
Lemma cosine_loop_exact fuel step v1 v2 i s :
  sums_generic (VisualizationApp.cosine_loop fuel step v1 v2 i s)
  = Generic.cosine_loop (H := exact) fuel step v1 v2 i (sums_generic s).
Proof.
  revert i s. induction fuel as [|fuel IH]; intros i s;
    cbn [VisualizationApp.cosine_loop Generic.cosine_loop]; [reflexivity|].
  destruct (i <? length v1)%nat; [|reflexivity]. by rewrite IH.
Qed.

Lemma cosineSimilarity_exact (a b : option (list R)) :
  VisualizationApp.cosineSimilarity a b = Generic.cosineSimilarity (H := exact) a b.
Proof.
  destruct a as [a|], b as [b|]; try reflexivity.
  unfold VisualizationApp.cosineSimilarity, Generic.cosineSimilarity.
  destruct (negb (length a =? length b)%nat); [reflexivity|]. cbv zeta.
  change (Generic.mkSums (of_nat 0) (of_nat 0) (of_nat 0))
    with (sums_generic (VisualizationApp.mkSums 0 0 0)).
  change (Generic.cosine_step a) with (VisualizationApp.cosine_step a).
  rewrite <- cosine_loop_exact.
  set (s := VisualizationApp.cosine_loop _ _ _ _ _ _).
  assert (E : Generic.cosine_adjust (H := exact) (VisualizationApp.cosine_step a) (sums_generic s)
              = sums_generic (VisualizationApp.cosine_adjust (VisualizationApp.cosine_step a) s)).
  { unfold Generic.cosine_adjust, VisualizationApp.cosine_adjust.
    by destruct (1 <? VisualizationApp.cosine_step a)%nat. }
  rewrite E. set (s' := VisualizationApp.cosine_adjust _ _).
  cbn. by destruct (Req_dec_T _ _).
Qed.

(** C2 (amended): over binary64, the numbers of JavaScript, cosineSimilarity
    is symmetric for all pairs of arguments (missing vectors and vectors of
    different lengths included), bit for bit; the similarity of a vector
    with itself is n / (sqrt n * sqrt n), guarded against a zero
    denominator, where n is the squared norm computed over the sampled
    entries.  That quotient is 1 in exact arithmetic but not always in
    binary64: it is 1.0000000000000002 for [1, 5]; and it is 0 for the
    vector of 501 entries whose only non-zero entry is at index 1, which the
    sampling skips. *)
Theorem cosineSimilarity_symmetric_self :
  (forall a b : option (list PrimFloat.float),
     Generic.cosineSimilarity a b = Generic.cosineSimilarity b a)
  /\ (forall v : list PrimFloat.float,
        Generic.cosineSimilarity (Some v) (Some v) = self_quotient (squared_norm v))
  /\ Generic.cosineSimilarity (Some Binary64.one_five) (Some Binary64.one_five)
     = Binary64.above_one
  /\ Generic.cosineSimilarity (Some Binary64.odd_only) (Some Binary64.odd_only)
     = PrimFloat.zero.
Proof.
  split; [intros a b; apply generic_cosineSimilarity_sym, binary64_mul_comm|].
  split; [apply generic_cosineSimilarity_self|].
  split; vm_compute; reflexivity.
Qed.

End ArithmeticProperties.

(** ** Candidate sampling *)

Section SamplingProperties.
Import VisualizationApp.

Lemma fold_left_invariant {A B : Type} (P : A -> Prop) (f : A -> B -> A)
    (l : list B) (a : A) :
  P a -> (forall a b, b ∈ l -> P a -> P (f a b)) -> P (fold_left f l a).
Proof.
  revert a. induction l as [|b l IH]; intros a Ha Hf; simpl; [exact Ha|].
  apply IH.
  - apply Hf; [left|exact Ha].
  - intros a' b' Hb'. apply Hf. right. exact Hb'.
Qed.

Lemma Set_add_elem_of x y s : y ∈ Set_add x s <-> y = x \/ y ∈ s.
Proof.
  unfold Set_add, Set_has. case_bool_decide as E.
  - split; [tauto|]. intros [->|H]; assumption.
  - rewrite elem_of_app, list_elem_of_singleton. tauto.
Qed.

Lemma Set_add_NoDup x s : NoDup s -> NoDup (Set_add x s).
Proof.
  intros Hs. unfold Set_add, Set_has. case_bool_decide as E; [exact Hs|].
  apply NoDup_app. repeat split; [exact Hs| |apply NoDup_singleton].
  intros y Hy Hy'. apply list_elem_of_singleton in Hy'. subst. contradiction.
Qed.

Lemma Set_add_fresh x s : x ∉ s -> Set_add x s = s ++ [x].
Proof.
  intros H. unfold Set_add, Set_has. case_bool_decide; [contradiction|reflexivity].
Qed.

Lemma Set_add_length x s : length (Set_add x s) <= S (length s).
Proof.
  unfold Set_add. destruct (Set_has x s); [lia|].
  rewrite length_app. simpl. lia.
Qed.

Lemma window_loop_fresh (currentIndex : nat) (l indices : list nat) :
  NoDup l -> (forall x, x ∈ l -> x ∉ indices) ->
  fold_left
    (fun indices i => if i =? currentIndex then indices else Set_add i indices)
    l indices
  = indices ++ filter (fun i => i <> currentIndex) l.
Proof.
  revert indices. induction l as [|x l IH]; intros indices Hnd Hfresh; simpl.
  - rewrite app_nil_r. reflexivity.
  - apply NoDup_cons in Hnd. destruct Hnd as [Hx Hnd].
    destruct (Nat.eqb_spec x currentIndex) as [E|E].
    + rewrite filter_cons_False by tauto.
      apply IH; [exact Hnd|]. intros y Hy. apply Hfresh. right. exact Hy.
    + rewrite filter_cons_True by exact E.
      rewrite Set_add_fresh by (apply Hfresh; left).
      rewrite IH.
      * rewrite <- app_assoc. reflexivity.
      * exact Hnd.
      * intros y Hy Hin. apply elem_of_app in Hin. destruct Hin as [Hin|Hin].
        -- apply (Hfresh y); [right; exact Hy|exact Hin].
        -- apply list_elem_of_singleton in Hin. subst. contradiction.
Qed.

Lemma window_fill_local_window n currentIndex :
  window_fill n currentIndex [] = local_window n currentIndex.
Proof.
  unfold window_fill, local_window.
  rewrite window_loop_fresh; [reflexivity|apply NoDup_seq|].
  intros x _ H. inversion H.
Qed.

Lemma local_window_elem_of n currentIndex j :
  j ∈ local_window n currentIndex <->
  currentIndex - Nat.min 20 n <= j < Nat.min n (currentIndex + Nat.min 20 n)
  /\ j <> currentIndex.
Proof.
  unfold local_window. rewrite list_elem_of_filter, elem_of_seq. lia.
Qed.

Lemma local_window_NoDup n currentIndex : NoDup (local_window n currentIndex).
Proof. apply NoDup_filter, NoDup_seq. Qed.

(** At most 20 indices before [currentIndex] and 19 after it. *)
Lemma local_window_length n currentIndex :
  length (local_window n currentIndex) <= 39.
Proof.
  unfold local_window.
  set (w := Nat.min 20 n). set (start := currentIndex - w).
  set (len := Nat.min n (currentIndex + w) - start).
  destruct (Nat.le_gt_cases len 39) as [Hle|Hgt].
  - pose proof (length_filter (fun i => i <> currentIndex) (seq start len)) as H.
    rewrite length_seq in H. lia.
  - assert (Hin : currentIndex ∈ seq start len)
      by (apply elem_of_seq; unfold len, start, w in *; lia).
    pose proof (length_filter_lt (fun i => i <> currentIndex) _ _ Hin) as H.
    rewrite length_seq in H.
    assert (length (filter (fun i => i <> currentIndex) (seq start len)) < len)
      by (apply H; tauto).
    unfold len, start, w in *. lia.
Qed.

Section RandomFill.
Variable n : nat.
Variable Math_random : nat -> Q.

(** What the random loop guarantees about its result, whatever is drawn. *)
Lemma random_fill_spec remaining currentIndex size indices k :
  let result := fst (random_fill n Math_random remaining currentIndex size indices k) in
  (exists extra, result = indices ++ extra
     /\ Forall (fun j => exists k', k <= k' /\ j = randomIndex n Math_random k') extra
     /\ currentIndex ∉ extra)
  /\ (NoDup indices -> NoDup result)
  /\ length result <= Nat.max size (length indices).
Proof.
  revert indices k. induction remaining as [|r IH]; intros indices k; simpl.
  - repeat split; [|tauto|lia].
    exists []. rewrite app_nil_r. repeat split; [constructor|apply not_elem_of_nil].
  - destruct (Nat.ltb_spec (length indices) size) as [Hlt|Hge]; simpl.
    2:{ repeat split; [|tauto|lia].
        exists []. rewrite app_nil_r. repeat split; [constructor|apply not_elem_of_nil]. }
    set (r0 := randomIndex n Math_random k).
    set (indices' := if r0 =? currentIndex then indices else Set_add r0 indices).
    specialize (IH indices' (S k)). cbv zeta in IH.
    destruct IH as [[extra [Heq [Hdraw Hcur]]] [Hnd Hlen]].
    assert (Hstep : exists e, indices' = indices ++ e
              /\ Forall (fun j => exists k', k <= k' /\ j = randomIndex n Math_random k') e
              /\ currentIndex ∉ e).
    { unfold indices'. destruct (Nat.eqb_spec r0 currentIndex) as [E|E].
      - exists []. rewrite app_nil_r. repeat split; [constructor|apply not_elem_of_nil].
      - unfold Set_add. destruct (Set_has r0 indices).
        + exists []. rewrite app_nil_r. repeat split; [constructor|apply not_elem_of_nil].
        + exists [r0]. repeat split.
          * constructor; [|constructor]. exists k. split; [lia|reflexivity].
          * rewrite list_elem_of_singleton. congruence. }
    destruct Hstep as [e [He [Hedraw Hecur]]].
    repeat split.
    + exists (e ++ extra). rewrite Heq, He, <- app_assoc. repeat split.
      * apply Forall_app. split; [exact Hedraw|].
        eapply Forall_impl; [exact Hdraw|].
        intros j [k' [Hk' Hj]]. exists k'. split; [lia|exact Hj].
      * rewrite elem_of_app. tauto.
    + intros Hi. apply Hnd. unfold indices'.
      destruct (r0 =? currentIndex); [exact Hi|apply Set_add_NoDup, Hi].
    + assert (length indices' <= S (length indices)).
      { unfold indices'. destruct (r0 =? currentIndex); [lia|apply Set_add_length]. }
      lia.
Qed.

End RandomFill.

(** C9, counterexample: with 50 nodes the sample size is 30, but the sample
    of node 25 is its whole local window, the 39 indices 5..24 and 26..44. *)
Lemma getSampleIndices_size_counterexample :
  sampleSize 50 = 30
  /\ fst (getSampleIndices 50 (fun _ => 0%Q) 25 (sampleSize 50) 0)
     = seq 5 20 ++ seq 26 19
  /\ ~ (length (fst (getSampleIndices 50 (fun _ => 0%Q) 25 (sampleSize 50) 0))
        <= sampleSize 50).
Proof.
  split; [reflexivity|]. split; [vm_compute; reflexivity|].
  vm_compute. lia.
Qed.

(** C9 (amended): the candidate sample of node [currentIndex] consists of the
    local window, i.e. the indices from [currentIndex - w] up to
    [currentIndex + w - 1] inside [0, n) without [currentIndex], where
    [w = min(20, n)] (at most 39 indices), followed by randomly drawn indices
    that are added only while fewer than [sampleSize] indices are present.
    The sample never contains [currentIndex], has no duplicates, and has at
    most [max(sampleSize, size of the window)] elements. *)
Theorem getSampleIndices_spec (n : nat) (Math_random : nat -> Q)
    (currentIndex size k : nat) :
  let result := fst (getSampleIndices n Math_random currentIndex size k) in
  (currentIndex ∉ result)
  /\ NoDup result
  /\ (exists extra,
        result = local_window n currentIndex ++ extra
        /\ Forall (fun j => exists k', k <= k' /\ j = randomIndex n Math_random k') extra)
  /\ length result <= Nat.max size (length (local_window n currentIndex))
  /\ length (local_window n currentIndex) <= 39.
Proof.
  unfold getSampleIndices. rewrite window_fill_local_window.
  destruct (random_fill_spec n Math_random
              (size - length (local_window n currentIndex)) currentIndex size
              (local_window n currentIndex) k)
    as [[extra [Heq [Hdraw Hcur]]] [Hnd Hlen]].
  cbv zeta. rewrite Heq in *. repeat split.
  - rewrite elem_of_app. intros [H|H]; [|contradiction].
    apply local_window_elem_of in H. lia.
  - apply Hnd, local_window_NoDup.
  - exists extra. split; [reflexivity|exact Hdraw].
  - exact Hlen.
  - apply local_window_length.
Qed.

End SamplingProperties.

(** ** The link builder *)

Section LinkProperties.
Import VisualizationApp.

Lemma sort_insert_Permutation c l : sort_insert c l ≡ₚ c :: l.
Proof.
  induction l as [|d l IH]; simpl; [reflexivity|].
  destruct (Qle_bool (cand_similarity d) (cand_similarity c)); [reflexivity|].
  rewrite IH. apply Permutation_swap.
Qed.

Lemma sort_by_similarity_Permutation l : sort_by_similarity l ≡ₚ l.
Proof.
  unfold sort_by_similarity. induction l as [|c l IH]; simpl; [reflexivity|].
  rewrite sort_insert_Permutation, IH. reflexivity.
Qed.

Lemma slice_0_elem_of {A : Type} (l : list A) (e : Z) (x : A) :
  x ∈ slice_0 l e -> x ∈ l.
Proof.
  unfold slice_0. intros H. apply elem_of_take in H.
  destruct H as [i [H _]]. eapply list_elem_of_lookup_2, H.
Qed.

Lemma slice_0_length {A : Type} (l : list A) (e : Z) :
  (0 <= e)%Z -> (Z.of_nat (length (slice_0 l e)) <= e)%Z.
Proof.
  intros He. unfold slice_0. rewrite length_take.
  destruct (Z.ltb_spec e 0); lia.
Qed.

Lemma maxLinksPerNode_nonneg n : 1 <= n -> (0 <= maxLinksPerNode n)%Z.
Proof.
  intros Hn. unfold maxLinksPerNode, linkParameters.
  destruct (n <=? 20); [simpl; lia|]. destruct (n <=? 50); simpl; lia.
Qed.

Lemma link_key_unordered_pair l :
  link_key l
  = Number_toString (fst (unordered_pair l)) +:+ "-"
    +:+ Number_toString (snd (unordered_pair l)).
Proof.
  unfold link_key, linkKey, unordered_pair. simpl.
  destruct (Nat.ltb_spec (source l) (target l)).
  - rewrite Nat.min_l, Nat.max_r by lia. reflexivity.
  - rewrite Nat.min_r, Nat.max_l by lia. reflexivity.
Qed.

Section Builder.
Variable n : nat.
Variable threshold : Q.
Variable config_dimension : string.
Variable calculateSimilarity : nat -> nat -> Q.
Variable Math_random : nat -> Q.

Lemma collect_candidates_ok i linkSet sampleIndices :
  Forall (candidate_ok threshold calculateSimilarity i)
    (collect_candidates threshold calculateSimilarity i linkSet sampleIndices).
Proof.
  unfold collect_candidates.
  apply fold_left_invariant; [constructor|].
  intros candidates j _ IH. unfold collect_step.
  destruct (Nat.eqb_spec i j) as [E|E]; [exact IH|].
  case_bool_decide; [exact IH|].
  destruct (Qle_bool threshold (calculateSimilarity i j)) eqn:Hq; [|exact IH].
  apply Forall_app. split; [exact IH|].
  constructor; [|constructor].
  unfold candidate_ok. simpl. apply Qle_bool_iff in Hq. auto.
Qed.

(** The links appended by one [forEach] over the top candidates. *)
Lemma add_links_spec i top links linkSet :
  Forall (candidate_ok threshold calculateSimilarity i) top ->
  exists new linkSet',
    add_links config_dimension i top (links, linkSet) = (links ++ new, linkSet')
    /\ Forall (fun l => source l = i /\ source l <> target l
                        /\ (threshold <= similarity l)%Q
                        /\ similarity l = calculateSimilarity (source l) (target l)) new
    /\ length new <= length top
    /\ linkSet ⊆ linkSet'
    /\ Forall (fun l => link_key l ∈ linkSet' /\ link_key l ∉ linkSet) new
    /\ NoDup (link_key <$> new).
Proof.
  unfold add_links. revert links linkSet.
  induction top as [|c top IH]; intros links linkSet Hok; simpl.
  - exists [], linkSet. rewrite app_nil_r.
    repeat split; try constructor; done.
  - apply Forall_cons in Hok. destruct Hok as [[Htgt [Hne [Hsim Hthr]]] Hok].
    case_bool_decide as Hkey.
    + destruct (IH links linkSet Hok) as (new & linkSet' & Heq & H1 & H2 & H3 & H4 & H5).
      exists new, linkSet'. repeat split; try assumption. lia.
    + set (lk := mkLink i (cand_target c) (cand_similarity c) config_dimension).
      destruct (IH (links ++ [lk]) ({[linkKey i (targetIndex c)]} ∪ linkSet) Hok)
        as (new & linkSet' & Heq & H1 & H2 & H3 & H4 & H5).
      assert (Hlk : link_key lk = linkKey i (targetIndex c))
        by (unfold link_key, lk; simpl; rewrite Htgt; reflexivity).
      exists (lk :: new), linkSet'. repeat split.
      * rewrite Heq, <- app_assoc. reflexivity.
      * constructor; [|exact H1]. unfold lk. simpl.
        rewrite Htgt. repeat split; auto.
      * simpl. lia.
      * set_solver.
      * constructor.
        -- rewrite Hlk. split; [set_solver|exact Hkey].
        -- eapply Forall_impl; [exact H4|]. simpl. intros l [Ha Hb].
           split; [exact Ha|]. intros Hc. apply Hb, elem_of_union. right. exact Hc.
      * rewrite fmap_cons. apply NoDup_cons. split; [|exact H5].
        intros Hin. apply list_elem_of_fmap in Hin. destruct Hin as [l [Hl Hin]].
        rewrite Forall_forall in H4. destruct (H4 l Hin) as [_ Hb].
        rewrite <- Hl, Hlk in Hb. apply Hb, elem_of_union. left.
        apply elem_of_singleton. reflexivity.
Qed.

Lemma out_degree_app s l1 l2 :
  out_degree s (l1 ++ l2) = out_degree s l1 + out_degree s l2.
Proof. unfold out_degree. rewrite filter_app, length_app. reflexivity. Qed.

Lemma out_degree_le_length s l : out_degree s l <= length l.
Proof. apply length_filter. Qed.

Lemma out_degree_0 s l : Forall (fun l => source l <> s) l -> out_degree s l = 0.
Proof.
  unfold out_degree. induction 1 as [|x l Hx _ IH]; [reflexivity|].
  rewrite filter_cons_False by exact Hx. exact IH.
Qed.

Lemma links_body_inv m st :
  m < n -> links_inv n threshold calculateSimilarity m st ->
  links_inv n threshold calculateSimilarity (S m)
    (links_body n threshold config_dimension calculateSimilarity Math_random st m).
Proof.
  intros Hm. destruct st as [[links linkSet] k]. intros (Hok & Hnd & Hdeg).
  unfold links_body.
  destruct (getSampleIndices n Math_random m (sampleSize n) k) as [sampleIndices k'].
  set (candidates := collect_candidates threshold calculateSimilarity m linkSet sampleIndices).
  set (top := slice_0 (sort_by_similarity candidates) (maxLinksPerNode n)).
  assert (Htop : Forall (candidate_ok threshold calculateSimilarity m) top).
  { apply Forall_forall. intros c Hc. apply slice_0_elem_of in Hc.
    rewrite sort_by_similarity_Permutation in Hc.
    pose proof (collect_candidates_ok m linkSet sampleIndices) as Hall.
    rewrite Forall_forall in Hall. apply Hall. exact Hc. }
  assert (Hlen : (Z.of_nat (length top) <= maxLinksPerNode n)%Z)
    by (apply slice_0_length, maxLinksPerNode_nonneg; lia).
  destruct (add_links_spec m top links linkSet Htop)
    as (new & linkSet' & Heq & Hnew & Hcount & Hsub & Hkeys & Hnd').
  rewrite Heq. unfold links_inv. repeat split.
  - apply Forall_app. split.
    + eapply Forall_impl; [exact Hok|].
      intros l (H1 & H2 & H3 & H4 & H5). repeat split; auto. 
    + rewrite Forall_forall in Hnew, Hkeys. apply Forall_forall. intros l Hl.
      destruct (Hnew l Hl) as (H1 & H2 & H3 & H4).
      destruct (Hkeys l Hl) as [H5 _].
      repeat split; auto. lia.
  - rewrite fmap_app. apply NoDup_app. repeat split; [exact Hnd| |exact Hnd'].
    intros key Hin Hin'.
    apply list_elem_of_fmap in Hin, Hin'.
    destruct Hin as [l [-> Hl]]. destruct Hin' as [l' [Hkey Hl']].
    rewrite Forall_forall in Hok, Hkeys.
    destruct (Hok l Hl) as (_ & _ & _ & _ & Hset).
    destruct (Hkeys l' Hl') as [_ Hfresh].
    rewrite Hkey in Hset. contradiction.
  - intros s Hs. rewrite out_degree_app.
    destruct (Nat.eq_dec s m) as [->|Hne].
    + rewrite (out_degree_0 m links).
      * pose proof (out_degree_le_length m new). lia.
      * eapply Forall_impl; [exact Hok|]. intros l [H1 _]. lia.
    + rewrite (out_degree_0 s new).
      * assert (s < m) by lia. specialize (Hdeg s H). lia.
      * eapply Forall_impl; [exact Hnew|]. intros l [H1 _]. lia.
Qed.

Lemma links_after_inv m k :
  m <= n ->
  links_inv n threshold calculateSimilarity m
    (links_after n threshold config_dimension calculateSimilarity Math_random m k).
Proof.
  unfold links_after. induction m as [|m IH]; intros Hm.
  - simpl. repeat split; [constructor|constructor|]. intros s Hs. lia.
  - rewrite seq_S, fold_left_app. simpl.
    apply links_body_inv; [lia|]. apply IH. lia.
Qed.

Lemma generateLinksOptimized_inv k :
  links_inv n threshold calculateSimilarity n
    (generateLinksOptimized_from n threshold config_dimension calculateSimilarity
       Math_random k).
Proof. apply (links_after_inv n k). lia. Qed.

End Builder.

(** C3, counterexample: with twelve identical nodes the cap is 10, node 1 is
    the target of the link from node 0 and the source of ten links of its
    own, so eleven retained links are incident to it. *)
Lemma generateLinksOptimized_degree_counterexample :
  maxLinksPerNode 12 = 10%Z
  /\ degree 1 twelve_equal_nodes = 11
  /\ ~ (Z.of_nat (degree 1 twelve_equal_nodes) <= maxLinksPerNode 12)%Z.
Proof. vm_compute. repeat split. intros H. apply H. reflexivity. Qed.

(** C3 (amended): in every graph returned by the link builder each subject is
    the source of at most maxLinksPerNode retained edges, where
    maxLinksPerNode is min(10, n-1) for n <= 20 subjects, 8 for 21..50
    subjects and 5 otherwise.  (Edges of which the subject is the target are
    not counted by the cap.) *)
Theorem generateLinksOptimized_out_degree (n : nat) (threshold : Q)
    (config_dimension : string) (calculateSimilarity : nat -> nat -> Q)
    (Math_random : nat -> Q) (k s : nat) :
  s < n ->
  (Z.of_nat (out_degree s
     (generateLinksOptimized n threshold config_dimension calculateSimilarity
        Math_random k)) <= maxLinksPerNode n)%Z
  /\ maxLinksPerNode n
     = (if (n <=? 20)%nat then Z.min 10 (Z.of_nat n - 1)
        else if (n <=? 50)%nat then 8 else 5)%Z.
Proof.
  intros Hs. split.
  - pose proof (generateLinksOptimized_inv n threshold config_dimension
                  calculateSimilarity Math_random k) as Hinv.
    unfold generateLinksOptimized.
    destruct (generateLinksOptimized_from _ _ _ _ _ _) as [[links linkSet] k'].
    destruct Hinv as (_ & _ & Hdeg). simpl. apply Hdeg. exact Hs.
  - unfold maxLinksPerNode, linkParameters.
    destruct (n <=? 20); [reflexivity|]. destruct (n <=? 50); reflexivity.
Qed.

Lemma generateLinksOptimized_out_degree_witness :
  (Z.of_nat (out_degree 1 twelve_equal_nodes) <= maxLinksPerNode 12)%Z
  /\ maxLinksPerNode 12 = 10%Z.
Proof.
  apply (generateLinksOptimized_out_degree 12 (95 # 100) "multidimensional"
           (fun _ _ => 1%Q) (fun _ => 0%Q) 0 1).
  lia.
Defined.

(** C4: in every edge list returned by the link builder each unordered pair
    of subjects appears in at most one edge (the canonical pairs of the edges
    are pairwise distinct, whichever end point discovered the edge), and the
    similarity of every retained edge is at least the threshold. *)
Theorem generateLinksOptimized_unique_pairs (n : nat) (threshold : Q)
    (config_dimension : string) (calculateSimilarity : nat -> nat -> Q)
    (Math_random : nat -> Q) (k : nat) :
  let links := generateLinksOptimized n threshold config_dimension
                 calculateSimilarity Math_random k in
  NoDup (unordered_pair <$> links)
  /\ Forall (fun l => (threshold <= similarity l)%Q) links.
Proof.
  pose proof (generateLinksOptimized_inv n threshold config_dimension
                calculateSimilarity Math_random k) as Hinv.
  unfold generateLinksOptimized.
  destruct (generateLinksOptimized_from _ _ _ _ _ _) as [[links linkSet] k'].
  destruct Hinv as (Hok & Hnd & _). simpl. split.
  - apply (NoDup_fmap_1
             (fun p => Number_toString (fst p) +:+ "-" +:+ Number_toString (snd p))).
    rewrite <- list_fmap_compose.
    erewrite list_fmap_ext; [exact Hnd|].
    intros i l _. simpl. symmetry. apply link_key_unordered_pair.
  - eapply Forall_impl; [exact Hok|]. intros l (_ & _ & H & _). exact H.
Qed.

(** C10: no edge returned by the link builder has its source equal to its
    target. *)
Theorem generateLinksOptimized_no_self_loop (n : nat) (threshold : Q)
    (config_dimension : string) (calculateSimilarity : nat -> nat -> Q)
    (Math_random : nat -> Q) (k : nat) :
  Forall (fun l => source l <> target l)
    (generateLinksOptimized n threshold config_dimension calculateSimilarity
       Math_random k).
Proof.
  pose proof (generateLinksOptimized_inv n threshold config_dimension
                calculateSimilarity Math_random k) as Hinv.
  unfold generateLinksOptimized.
  destruct (generateLinksOptimized_from _ _ _ _ _ _) as [[links linkSet] k'].
  destruct Hinv as (Hok & _). simpl.
  eapply Forall_impl; [exact Hok|]. intros l (_ & H & _). exact H.
Qed.

End LinkProperties.

(** ** Cluster detection *)

Section ClusterProperties.
Import ClusterFusion.

Lemma nodeIndexMap_from_lookup index nodes m x i :
  nodeIndexMap_from index nodes m !! x = Some i ->
  (index <= i /\ nodes !! (i - index) = Some x) \/ m !! x = Some i.
Proof.
  revert index m. induction nodes as [|node rest IH]; intros index m H; simpl in H.
  - right. exact H.
  - apply IH in H. destruct H as [[Hle Hl]|H].
    + left. split; [lia|].
      replace (i - index) with (S (i - S index)) by lia. exact Hl.
    + destruct (decide (node = x)) as [->|Hne].
      * rewrite lookup_insert_eq in H. inversion H; subst.
        left. split; [lia|]. rewrite Nat.sub_diag. reflexivity.
      * rewrite lookup_insert_ne in H by exact Hne. right. exact H.
Qed.

Lemma build_nodeIndexMap_lookup nodes x i :
  build_nodeIndexMap nodes !! x = Some i -> nodes !! i = Some x.
Proof.
  intros H. apply nodeIndexMap_from_lookup in H.
  destruct H as [[_ H]|H].
  - rewrite Nat.sub_0_r in H. exact H.
  - rewrite lookup_empty in H. discriminate.
Qed.

Lemma build_nodeIndexMap_is_Some_from index nodes m x :
  x ∈ nodes \/ is_Some (m !! x) ->
  is_Some (nodeIndexMap_from index nodes m !! x).
Proof.
  revert index m. induction nodes as [|node rest IH]; intros index m H; simpl.
  - destruct H as [H|H]; [inversion H|exact H].
  - apply IH. destruct H as [H|H].
    + apply elem_of_cons in H. destruct H as [->|H]; [|left; exact H].
      right. rewrite lookup_insert_eq. eauto.
    + right. destruct (decide (node = x)) as [->|Hne].
      * rewrite lookup_insert_eq. eauto.
      * rewrite lookup_insert_ne by exact Hne. exact H.
Qed.

Lemma build_nodeIndexMap_is_Some nodes x :
  x ∈ nodes -> is_Some (build_nodeIndexMap nodes !! x).
Proof. intros H. apply build_nodeIndexMap_is_Some_from. left. exact H. Qed.

Lemma neighborNode_None l : neighborNode None l = None.
Proof.
  unfold neighborNode.
  case_bool_decide; [discriminate|]. case_bool_decide; [discriminate|reflexivity].
Qed.

(** A link joins its two end points in both directions. *)
Lemma neighborNode_sym u x l :
  neighborNode (Some u) l = Some x -> x <> u -> neighborNode (Some x) l = Some u.
Proof.
  unfold neighborNode. intros H Hne.
  destruct (decide (source l = u)) as [Hs|Hs].
  - rewrite bool_decide_eq_true_2 in H by congruence.
    inversion H as [Ht].
    rewrite bool_decide_eq_false_2 by congruence.
    rewrite bool_decide_eq_true_2 by congruence. congruence.
  - rewrite bool_decide_eq_false_2 in H by congruence.
    destruct (decide (target l = u)) as [Ht|Ht].
    + rewrite bool_decide_eq_true_2 in H by congruence.
      inversion H as [Hx].
      rewrite bool_decide_eq_true_2 by congruence. congruence.
    + rewrite bool_decide_eq_false_2 in H by congruence. discriminate.
Qed.

Section Detection.
Variable nodes : list nat.
Variable links : list link.
Variable similarityThreshold : Q.

Local Abbreviation nodeIndexMap := (build_nodeIndexMap nodes).
Local Abbreviation step := (visit_link similarityThreshold nodeIndexMap).

Lemma unvisited_insert idx visited :
  idx < length nodes -> idx ∉ visited ->
  S (size (unvisited nodes ({[idx]} ∪ visited))) <= size (unvisited nodes visited).
Proof.
  intros Hlt Hnot. unfold unvisited.
  assert (Hsub : set_seq 0 (length nodes) ∖ ({[idx]} ∪ visited)
                 ⊂ set_seq 0 (length nodes) ∖ visited).
  { split.
    - intros x Hx. apply elem_of_difference in Hx. destruct Hx as [Hx Hx'].
      apply elem_of_difference. split; [exact Hx|].
      intros Hv. apply Hx', elem_of_union. right. exact Hv.
    - intros Hcontra.
      assert (Hin : idx ∈ set_seq (C:=gset nat) 0 (length nodes) ∖ visited).
      { apply elem_of_difference. split; [|exact Hnot].
        apply elem_of_set_seq. lia. }
      apply Hcontra, elem_of_difference in Hin. destruct Hin as [_ Hin].
      apply Hin, elem_of_union. left. apply elem_of_singleton. reflexivity. }
  apply subset_size in Hsub. lia.
Qed.

Lemma unvisited_size visited : size (unvisited nodes visited) <= length nodes.
Proof.
  unfold unvisited.
  transitivity (size (set_seq (C:=gset nat) 0 (length nodes))).
  - apply subseteq_size. intros x Hx. apply elem_of_difference in Hx. tauto.
  - rewrite size_set_seq. lia.
Qed.

(** The two outcomes of the loop body: nothing changes, and then the index
    of the neighbour, if there is one over a link of sufficient similarity,
    is already visited; or the neighbour is appended. *)
Lemma visit_link_cases currentNode cluster queue visited l :
  (step currentNode (cluster, queue, visited) l = (cluster, queue, visited)
   /\ forall w q,
        neighborNode currentNode l = Some w -> nodeIndexMap !! w = Some q ->
        (similarityThreshold <= similarity l)%Q -> q ∈ visited)
  \/ (exists w q,
        neighborNode currentNode l = Some w /\ nodeIndexMap !! w = Some q
        /\ (q ∉ visited) /\ (similarityThreshold <= similarity l)%Q
        /\ step currentNode (cluster, queue, visited) l
           = (cluster ++ [w], queue ++ [q], {[q]} ∪ visited)).
Proof.
  unfold visit_link.
  destruct (neighborNode currentNode l) as [w|]; [|left; split; [reflexivity|discriminate]].
  destruct (nodeIndexMap !! w) as [q|] eqn:Hmap;
    [|left; split; [reflexivity|intros w' q' [= <-]; rewrite Hmap; discriminate]].
  case_bool_decide as Hvis; simpl.
  - left. split; [reflexivity|]. intros w' q' [= <-] Hq _.
    rewrite Hmap in Hq. inversion Hq; subst. exact Hvis.
  - destruct (Qle_bool similarityThreshold (similarity l)) eqn:Hq.
    + right. exists w, q. apply Qle_bool_iff in Hq. auto.
    + left. split; [reflexivity|]. intros w' q' _ _ Hle.
      apply Qle_bool_iff in Hle. congruence.
Qed.

(** Induction over one pass through the links: a property of the state
    that survives every append holds after the pass. *)
Lemma visit_links_ind (P : bfs_state -> Prop) currentNode :
  (forall cluster queue visited l w q,
      l ∈ links -> P (cluster, queue, visited) ->
      neighborNode currentNode l = Some w -> nodeIndexMap !! w = Some q ->
      q ∉ visited -> (similarityThreshold <= similarity l)%Q ->
      P (cluster ++ [w], queue ++ [q], {[q]} ∪ visited)) ->
  forall ls st, (forall l, l ∈ ls -> l ∈ links) -> P st ->
    P (fold_left (step currentNode) ls st).
Proof.
  intros Hpush. induction ls as [|l ls IH]; intros st Hsub Hst; simpl; [exact Hst|].
  apply IH; [intros l' Hl'; apply Hsub; right; exact Hl'|].
  destruct st as [[cluster queue] visited].
  destruct (visit_link_cases currentNode cluster queue visited l)
    as [[Heq _]|(w & q & Hn & Hm & Hv & Hle & Heq)]; rewrite Heq; [exact Hst|].
  apply (Hpush cluster queue visited l w q); auto. apply Hsub. left.
Qed.

Lemma visit_links_extends currentNode ls st :
  (forall l, l ∈ ls -> l ∈ links) ->
  extends st (fold_left (step currentNode) ls st).
Proof.
  intros Hsub. apply visit_links_ind; [|exact Hsub|].
  - destruct st as [[cluster0 queue0] visited0].
    intros cluster queue visited l w q _ (Hmono & new & Hq & Hnew) _ _ _ _.
    split.
    + intros p Hp. apply elem_of_union. right. apply Hmono. exact Hp.
    + exists (new ++ [q]). split; [rewrite Hq, app_assoc; reflexivity|].
      intros p Hp. apply elem_of_union in Hp. destruct Hp as [Hp|Hp].
      * apply elem_of_singleton in Hp. subst p. right.
        apply elem_of_app. right. left.
      * destruct (Hnew p Hp) as [H|H]; [left; exact H|].
        right. apply elem_of_app. left. exact H.
  - destruct st as [[cluster0 queue0] visited0]. split; [done|].
    exists []. split; [rewrite app_nil_r; reflexivity|]. intros p Hp. left. exact Hp.
Qed.

Lemma visit_links_measure currentNode ls st :
  (forall l, l ∈ ls -> l ∈ links) ->
  bfs_measure nodes (fold_left (step currentNode) ls st) <= bfs_measure nodes st.
Proof.
  intros Hsub.
  apply (visit_links_ind (fun st' => bfs_measure nodes st' <= bfs_measure nodes st));
    [|exact Hsub|lia].
  intros cluster queue visited l w q _ IH _ Hmap Hvis _.
  apply build_nodeIndexMap_lookup, lookup_lt_Some in Hmap.
  pose proof (unvisited_insert q visited Hmap Hvis).
  unfold bfs_measure in *. rewrite length_app. simpl. lia.
Qed.

(** After the pass, the indices of all neighbours of the current node are
    visited. *)
Lemma visit_links_closed currentNode ls st l w q :
  (forall l, l ∈ ls -> l ∈ links) ->
  l ∈ ls -> neighborNode currentNode l = Some w -> nodeIndexMap !! w = Some q ->
  (similarityThreshold <= similarity l)%Q ->
  q ∈ snd (fold_left (step currentNode) ls st).
Proof.
  revert st. induction ls as [|l' ls IH]; intros st Hsub Hl Hn Hm Hle; [inversion Hl|].
  simpl. apply elem_of_cons in Hl. destruct Hl as [<-|Hl].
  - assert (Hnow : q ∈ snd (step currentNode st l)).
    { destruct st as [[cluster queue] visited].
      destruct (visit_link_cases currentNode cluster queue visited l)
        as [[Heq Hvis]|(w' & q' & Hn' & Hm' & _ & _ & Heq)]; rewrite Heq; simpl.
      - apply (Hvis w q); assumption.
      - rewrite Hn in Hn'. inversion Hn'; subst w'.
        rewrite Hm in Hm'. inversion Hm'; subst q'.
        apply elem_of_union. left. apply elem_of_singleton. reflexivity. }
    pose proof (visit_links_extends currentNode ls (step currentNode st l)
                  (fun l' Hl' => Hsub l' (list_elem_of_further _ _ _ Hl'))) as Hext.
    destruct (step currentNode st l) as [[c1 q1] v1].
    destruct (fold_left (step currentNode) ls (c1, q1, v1)) as [[c2 q2] v2].
    destruct Hext as [Hmono _]. simpl in *. apply Hmono. exact Hnow.
  - apply IH; [intros l'' Hl''; apply Hsub; right; exact Hl''|assumption..].
Qed.

Lemma reached_mono V0 visited visited' x :
  visited ⊆ visited' ->
  reached nodes links similarityThreshold V0 visited x ->
  reached nodes links similarityThreshold V0 visited' x.
Proof.
  intros Hsub (q & l & u & H1 & H2 & H3). exists q, l, u.
  split; [exact H1|]. split; [apply Hsub; exact H2|exact H3].
Qed.

Lemma closed_at_mono p V V' :
  V ⊆ V' ->
  closed_at nodes links similarityThreshold p V ->
  closed_at nodes links similarityThreshold p V'.
Proof. intros Hsub H l w q Hl Hn Hle Hm. apply Hsub. eapply H; eauto. Qed.

Lemma visit_links_search V0 x0 p ls st :
  (forall l, l ∈ ls -> l ∈ links) ->
  search_inv nodes links similarityThreshold V0 x0 st ->
  search_inv nodes links similarityThreshold V0 x0
    (fold_left (step (nodes !! p)) ls st).
Proof.
  intros Hsub. apply visit_links_ind; [|exact Hsub].
  intros cluster queue visited l w q Hl (HV0 & (p0 & Hp0 & Hx0) & Hmem) Hn Hm Hvis Hle.
  assert (Hmono : visited ⊆ {[q]} ∪ visited)
    by (intros y Hy; apply elem_of_union; right; exact Hy).
  repeat split.
  - intros y Hy. apply Hmono, HV0, Hy.
  - exists p0. split; [apply Hmono, Hp0|exact Hx0].
  - apply Forall_app. split.
    + eapply Forall_impl; [exact Hmem|]. intros y [Hy|Hy]; [left; exact Hy|].
      right. eapply reached_mono; [exact Hmono|exact Hy].
    + constructor; [|constructor]. right.
      destruct (nodes !! p) as [u|] eqn:Hu;
        [|rewrite neighborNode_None in Hn; discriminate].
      exists q, l, u. repeat split; try assumption.
      * apply elem_of_union. left. apply elem_of_singleton. reflexivity.
      * intros Hq. apply Hvis, HV0, Hq.
      * eapply list_elem_of_lookup_2, Hu.
Qed.

(** With more fuel than the measure the search returns, and its result
    satisfies the invariant. *)
Lemma bfs_spec V0 x0 fuel st :
  bfs_inv nodes links similarityThreshold V0 x0 st ->
  bfs_measure nodes st < fuel ->
  exists cluster visited,
    bfs nodes links similarityThreshold fuel nodeIndexMap st = Some (cluster, visited)
    /\ bfs_inv nodes links similarityThreshold V0 x0 (cluster, [], visited).
Proof.
  revert st. induction fuel as [|fuel IH]; intros st Hinv Hm; [lia|].
  destruct st as [[cluster queue] visited]. simpl.
  destruct queue as [|p queue'].
  - exists cluster, visited. split; [reflexivity|exact Hinv].
  - destruct Hinv as [Hsearch Hclosed].
    set (st1 := (cluster, queue', visited)).
    assert (Hall : forall l, l ∈ links -> l ∈ links) by auto.
    pose proof (visit_links_search V0 x0 p links st1 Hall Hsearch) as Hsearch'.
    pose proof (visit_links_extends (nodes !! p) links st1 Hall) as Hext.
    pose proof (visit_links_measure (nodes !! p) links st1 Hall) as Hmeas.
    pose proof (fun l w q => visit_links_closed (nodes !! p) links st1 l w q Hall)
      as Hnow.
    destruct (fold_left (step (nodes !! p)) links st1) as [[c2 q2] v2].
    apply IH.
    + split; [exact Hsearch'|].
      destruct Hext as (Hmono & new & Hq2 & Hnew).
      intros p' Hp' Hnq. subst q2.
      apply not_elem_of_app in Hnq. destruct Hnq as [Hnq Hnn].
      destruct (Hnew p' Hp') as [Hold|Hin]; [|contradiction].
      destruct (decide (p' = p)) as [->|Hne].
      * intros l w q Hl Hn Hle Hmap. apply (Hnow l w q); assumption.
      * eapply closed_at_mono; [exact Hmono|]. apply Hclosed; [exact Hold|].
        intros Hc. apply elem_of_cons in Hc. destruct Hc; [contradiction|contradiction].
    + unfold st1, bfs_measure in *. simpl in Hm. lia.
Qed.

(** A node that already stands at a visited index of a closed set has no
    neighbour left to visit: the search started from it returns it alone. *)
Lemma visit_links_all_visited currentNode ls cluster queue visited :
  (forall l w q, l ∈ ls -> neighborNode currentNode l = Some w ->
     nodeIndexMap !! w = Some q -> (similarityThreshold <= similarity l)%Q ->
     q ∈ visited) ->
  fold_left (step currentNode) ls (cluster, queue, visited) = (cluster, queue, visited).
Proof.
  induction ls as [|l ls IH]; intros Hall; cbn [fold_left]; [reflexivity|].
  destruct (visit_link_cases currentNode cluster queue visited l)
    as [[Heq _]|(w & q & Hn & Hm & Hv & Hle & _)].
  - rewrite Heq. apply IH. intros l' w q Hl'. apply Hall. right. exact Hl'.
  - exfalso. apply Hv. apply (Hall l w q); try assumption. left.
Qed.

Lemma bfs_known_node V0 x0 s fuel :
  closed nodes links similarityThreshold V0 ->
  has_index_in nodes V0 x0 -> nodes !! s = Some x0 ->
  bfs nodes links similarityThreshold (S (S fuel)) nodeIndexMap
    ([x0], [s], {[s]} ∪ V0)
  = Some ([x0], {[s]} ∪ V0).
Proof.
  intros Hclosed (p0 & Hp0 & Hx0) Hs.
  cbn [bfs]. rewrite visit_links_all_visited; [reflexivity|].
  intros l w q Hl Hn Hm Hle. apply elem_of_union. right.
  apply (Hclosed p0 Hp0 l w q); try assumption.
  rewrite Hx0, <- Hs. exact Hn.
Qed.

(** A node that was reached during a search has no index among those
    visited before the search. *)
Lemma reached_no_index V0 visited x :
  closed nodes links similarityThreshold V0 ->
  reached nodes links similarityThreshold V0 visited x ->
  ~ has_index_in nodes V0 x.
Proof.
  intros Hclosed (q & l & u & Hmap & _ & HqV0 & Hl & Hu & Hn & Hle) (p & Hp & Hx).
  apply HqV0.
  destruct (decide (x = u)) as [->|Hne].
  - apply (Hclosed p Hp l u q); try assumption. rewrite Hx. exact Hn.
  - destruct (build_nodeIndexMap_is_Some nodes u Hu) as [qu Hqu].
    assert (HquV0 : qu ∈ V0).
    { apply (Hclosed p Hp l u qu); try assumption.
      rewrite Hx. apply neighborNode_sym; assumption. }
    apply (Hclosed qu HquV0 l x q); try assumption.
    rewrite (build_nodeIndexMap_lookup nodes u qu Hqu). exact Hn.
Qed.

Lemma detect_from_cons index node rest clusters visited :
  detect_from nodes links similarityThreshold nodeIndexMap index (node :: rest)
    clusters visited
  = if bool_decide (index ∈ visited)
    then detect_from nodes links similarityThreshold nodeIndexMap (S index) rest
           clusters visited
    else
      match bfs nodes links similarityThreshold (S (length nodes)) nodeIndexMap
              ([node], [index], {[index]} ∪ visited) with
      | None => None
      | Some (cluster, visited') =>
          detect_from nodes links similarityThreshold nodeIndexMap (S index) rest
            (if 2 <=? length cluster then clusters ++ [cluster] else clusters)
            visited'
      end.
Proof. reflexivity. Qed.

Lemma has_index_in_mono V V' x :
  V ⊆ V' -> has_index_in nodes V x -> has_index_in nodes V' x.
Proof. intros Hsub (p & Hp & Hx). exists p. split; [apply Hsub, Hp|exact Hx]. Qed.

Lemma detect_from_spec index rest clusters visited :
  (forall j x, rest !! j = Some x -> nodes !! (index + j) = Some x) ->
  clusters_inv nodes links similarityThreshold clusters visited ->
  exists clusters' visited',
    detect_from nodes links similarityThreshold nodeIndexMap index rest clusters visited
    = Some clusters'
    /\ clusters_inv nodes links similarityThreshold clusters' visited'.
Proof.
  revert index clusters visited.
  induction rest as [|node rest IH]; intros index clusters visited Hrest Hinv.
  - exists clusters, visited. split; [reflexivity|exact Hinv].
  - rewrite detect_from_cons.
    assert (Hrest' : forall j x, rest !! j = Some x -> nodes !! (S index + j) = Some x).
    { intros j x Hj. replace (S index + j) with (index + S j) by lia.
      apply Hrest. exact Hj. }
    assert (Hnode : nodes !! index = Some node).
    { rewrite <- (Nat.add_0_r index). apply Hrest. reflexivity. }
    case_bool_decide as Hvis; [apply IH; assumption|].
    destruct Hinv as (Hclosed & Hsize & Hidx & Hdisj).
    assert (Hsub0 : visited ⊆ {[index]} ∪ visited)
      by (intros y Hy; apply elem_of_union; right; exact Hy).
    assert (Hin0 : index ∈ {[index]} ∪ visited)
      by (apply elem_of_union; left; apply elem_of_singleton; reflexivity).
    destruct (bfs_spec visited node (S (length nodes))
                ([node], [index], {[index]} ∪ visited))
      as (cluster & visited' & Hbfs & (HV0 & Hstart & Hmem) & Hcl).
    { split.
      - repeat split; [exact Hsub0|exists index; split; [exact Hin0|exact Hnode]|].
        constructor; [left; reflexivity|constructor].
      - intros p Hp Hnq. apply elem_of_union in Hp. destruct Hp as [Hp|Hp].
        + apply elem_of_singleton in Hp. subst p. exfalso. apply Hnq. left.
        + eapply closed_at_mono; [exact Hsub0|]. apply Hclosed. exact Hp. }
    { unfold bfs_measure.
      apply lookup_lt_Some in Hnode.
      pose proof (unvisited_insert index visited Hnode Hvis).
      pose proof (unvisited_size visited). simpl. lia. }
    rewrite Hbfs. apply IH; [exact Hrest'|].
    assert (Hclosed' : closed nodes links similarityThreshold visited').
    { intros p Hp. apply Hcl; [exact Hp|]. intros Hc. inversion Hc. }
    assert (Hidx' : Forall (Forall (has_index_in nodes visited')) clusters).
    { eapply Forall_impl; [exact Hidx|]. intros c Hc.
      eapply Forall_impl; [exact Hc|]. intros x. apply has_index_in_mono, HV0. }
    destruct (Nat.leb_spec 2 (length cluster)) as [Hlen|Hlen];
      [|repeat split; assumption].
    assert (Hfresh : Forall (fun x => ~ has_index_in nodes visited x) cluster).
    { eapply Forall_impl; [exact Hmem|]. intros x [->|Hx].
      - intros Hhas. apply lookup_lt_Some in Hnode as Hlt.
        destruct (length nodes) as [|len] eqn:Hn; [lia|].
        rewrite (bfs_known_node visited node index len Hclosed Hhas Hnode) in Hbfs.
        inversion Hbfs; subst. simpl in Hlen. lia.
      - eapply reached_no_index; eassumption. }
    repeat split.
    + exact Hclosed'.
    + apply Forall_app. split; [exact Hsize|]. constructor; [exact Hlen|constructor].
    + apply Forall_app. split; [exact Hidx'|]. constructor; [|constructor].
      eapply Forall_impl; [exact Hmem|]. intros x [->|(q & l & u & Hq & Hqv & _)].
      * exact Hstart.
      * exists q. split; [exact Hqv|].
        apply build_nodeIndexMap_lookup. exact Hq.
    + intros i j c1 c2 x Hi Hj H1 H2.
      assert (Hold : forall k c, clusters !! k = Some c -> x ∈ c ->
                has_index_in nodes visited x).
      { intros k c Hk Hx. rewrite Forall_forall in Hidx.
        specialize (Hidx c (list_elem_of_lookup_2 _ _ _ Hk)).
        rewrite Forall_forall in Hidx. apply Hidx. exact Hx. }
      assert (Hnew : x ∈ cluster -> ~ has_index_in nodes visited x).
      { rewrite Forall_forall in Hfresh. apply Hfresh. }
      destruct (Nat.lt_ge_cases i (length clusters)) as [Hi'|Hi'];
        destruct (Nat.lt_ge_cases j (length clusters)) as [Hj'|Hj'].
      * rewrite lookup_app_l in Hi, Hj by assumption. eapply Hdisj; eassumption.
      * rewrite lookup_app_l in Hi by assumption.
        rewrite lookup_app_r in Hj by assumption.
        destruct (j - length clusters) as [|d] eqn:Hd; [|destruct d; discriminate].
        inversion Hj; subst c2. exfalso. apply (Hnew H2). eapply Hold; eassumption.
      * rewrite lookup_app_r in Hi by assumption.
        rewrite lookup_app_l in Hj by assumption.
        destruct (i - length clusters) as [|d] eqn:Hd; [|destruct d; discriminate].
        inversion Hi; subst c1. exfalso. apply (Hnew H1). eapply Hold; eassumption.
      * rewrite lookup_app_r in Hi, Hj by assumption.
        destruct (i - length clusters) as [|d] eqn:Hd; [|destruct d; discriminate].
        destruct (j - length clusters) as [|d'] eqn:Hd'; [|destruct d'; discriminate].
        lia.
Qed.

Lemma detectClusters_inv :
  exists clusters visited,
    detectClusters nodes links similarityThreshold = Some clusters
    /\ clusters_inv nodes links similarityThreshold clusters visited.
Proof.
  unfold detectClusters. apply detect_from_spec.
  - intros j x Hj. exact Hj.
  - repeat split; try constructor.
    + intros p Hp. inversion Hp.
    + intros i j c1 c2 x Hi. discriminate.
Qed.

End Detection.

Section Components.
Variable nodes : list nat.
Variable links : list link.
Variable similarityThreshold : Q.

Local Abbreviation nodeIndexMap := (build_nodeIndexMap nodes).
Local Abbreviation step := (visit_link similarityThreshold nodeIndexMap).

Lemma connected_cluster_snoc c u w :
  connected_cluster links similarityThreshold c -> u ∈ c ->
  adjacent links similarityThreshold u w ->
  connected_cluster links similarityThreshold (c ++ [w]).
Proof.
  intros Hc Hu Hadj k w' Hk.
  destruct (Nat.lt_ge_cases (S k) (length c)) as [Hlt|Hge].
  - rewrite lookup_app_l in Hk by exact Hlt.
    destruct (Hc k w' Hk) as (j & u' & Hj & Hu' & Hadj').
    exists j, u'. split; [exact Hj|]. split; [|exact Hadj'].
    rewrite lookup_app_l by (apply lookup_lt_Some in Hu'; exact Hu'). exact Hu'.
  - rewrite lookup_app_r in Hk by exact Hge.
    destruct (S k - length c) as [|d] eqn:Hd; [|destruct d; discriminate].
    inversion Hk; subst w'.
    apply list_elem_of_lookup_1 in Hu. destruct Hu as [j Hj].
    exists j, u. apply lookup_lt_Some in Hj as Hlt.
    split; [lia|]. split; [|exact Hadj].
    rewrite lookup_app_l by exact Hlt. exact Hj.
Qed.

Lemma visit_links_grow V0 p ls st :
  (forall l, l ∈ ls -> l ∈ links) ->
  (forall u, nodes !! p = Some u -> u ∈ fst (fst st)) ->
  grow_inv nodes links similarityThreshold V0 st ->
  grow_inv nodes links similarityThreshold V0 (fold_left (step (nodes !! p)) ls st).
Proof.
  intros Hsub Hcur Hinv.
  apply (visit_links_ind nodes links similarityThreshold
           (fun st' => grow_inv nodes links similarityThreshold V0 st'
                       /\ forall u, nodes !! p = Some u -> u ∈ fst (fst st'))
           (nodes !! p)); [|exact Hsub|split; assumption].
  intros cluster queue visited l w q Hl [(Ha & Hb & Hc) Hu] Hn Hm Hvis Hle.
  cbn [fst] in *.
  apply build_nodeIndexMap_lookup in Hm.
  assert (Hw : w ∈ cluster ++ [w])
    by (apply elem_of_app; right; by apply list_elem_of_singleton).
  split; [split; [|split]|].
  - intros q' Hq' Hq0. apply elem_of_union in Hq'. destruct Hq' as [Hq'|Hq'].
    + apply elem_of_singleton in Hq'. subst q'. exists w. by split.
    + destruct (Ha q' Hq' Hq0) as (x & Hx & E). exists x.
      split; [apply elem_of_app; by left|exact E].
  - intros q' Hq'. apply elem_of_app in Hq'. destruct Hq' as [Hq'|Hq'].
    + destruct (Hb q' Hq') as (x & Hx & E). exists x.
      split; [apply elem_of_app; by left|exact E].
    + apply list_elem_of_singleton in Hq'. subst q'. exists w. by split.
  - destruct (nodes !! p) as [u|] eqn:Hp;
      [|rewrite neighborNode_None in Hn; discriminate].
    apply (connected_cluster_snoc cluster u w); [exact Hc|by apply Hu|].
    exists l. by repeat split.
  - intros u Hp. apply elem_of_app. left. by apply Hu.
Qed.

Lemma bfs_grow V0 fuel st cluster visited :
  grow_inv nodes links similarityThreshold V0 st ->
  bfs nodes links similarityThreshold fuel nodeIndexMap st = Some (cluster, visited) ->
  grow_inv nodes links similarityThreshold V0 (cluster, [], visited).
Proof.
  revert st. induction fuel as [|fuel IH]; intros st Hinv Hbfs; [discriminate|].
  destruct st as [[c queue] v]. cbn [bfs] in Hbfs.
  destruct queue as [|p queue'].
  - inversion Hbfs; subst. exact Hinv.
  - apply IH in Hbfs; [exact Hbfs|].
    destruct Hinv as (Ha & Hb & Hc).
    apply visit_links_grow; [auto| |].
    + intros u Hu. cbn [fst]. destruct (Hb p) as (x & Hx & E); [left|].
      congruence.
    + split; [exact Ha|]. split; [|exact Hc].
      intros q Hq. apply Hb. by right.
Qed.

Lemma bfs_visited_mono fuel st cluster visited :
  bfs nodes links similarityThreshold fuel nodeIndexMap st = Some (cluster, visited) ->
  snd st ⊆ visited.
Proof.
  revert st. induction fuel as [|fuel IH]; intros st Hbfs; [discriminate|].
  destruct st as [[c queue] v]. cbn [bfs] in Hbfs.
  destruct queue as [|p queue'].
  - by inversion Hbfs; subst.
  - apply IH in Hbfs.
    pose proof (visit_links_extends nodes links similarityThreshold (nodes !! p)
                  links (c, queue', v) (fun l Hl => Hl)) as Hext.
    destruct (fold_left _ _ _) as [[c2 q2] v2]. destruct Hext as [Hmono _].
    cbn [snd] in *. etransitivity; eassumption.
Qed.

Lemma two_members {A : Type} (l : list A) (x y : A) :
  x ∈ l -> y ∈ l -> x <> y -> 2 <= length l.
Proof.
  destruct l as [|a [|b l]]; intros Hx Hy Hne; cbn; try lia.
  - inversion Hx.
  - apply list_elem_of_singleton in Hx, Hy. congruence.
Qed.

Lemma detect_from_components index rest clusters visited clusters' :
  (forall j x, rest !! j = Some x -> nodes !! (index + j) = Some x) ->
  components_inv nodes links similarityThreshold index clusters visited ->
  detect_from nodes links similarityThreshold nodeIndexMap index rest clusters visited
  = Some clusters' ->
  exists visited',
    components_inv nodes links similarityThreshold (index + length rest)
      clusters' visited'.
Proof.
  revert index clusters visited.
  induction rest as [|node rest IH]; intros index clusters visited Hrest Hinv Hrun.
  - inversion Hrun; subst. exists visited. cbn. by rewrite Nat.add_0_r.
  - rewrite detect_from_cons in Hrun.
    assert (Hrest' : forall j x, rest !! j = Some x -> nodes !! (S index + j) = Some x).
    { intros j x Hj. replace (S index + j) with (index + S j) by lia.
      apply Hrest. exact Hj. }
    assert (Hnode : nodes !! index = Some node).
    { rewrite <- (Nat.add_0_r index). apply Hrest. reflexivity. }
    cbn [length]. replace (index + S (length rest)) with (S index + length rest) by lia.
    destruct Hinv as (Hclosed & Hbelow & Hconn & Hlinked).
    case_bool_decide as Hvis.
    { apply (IH (S index) clusters visited); [exact Hrest'| |exact Hrun].
      split; [exact Hclosed|]. split; [|split; assumption].
      intros p Hp. destruct (decide (p = index)) as [->|Hne]; [exact Hvis|].
      apply Hbelow. lia. }
    assert (Hsub0 : visited ⊆ {[index]} ∪ visited)
      by (intros y Hy; apply elem_of_union; right; exact Hy).
    assert (Hin0 : index ∈ {[index]} ∪ visited)
      by (apply elem_of_union; left; apply elem_of_singleton; reflexivity).
    destruct (bfs_spec nodes links similarityThreshold visited node (S (length nodes))
                ([node], [index], {[index]} ∪ visited))
      as (cluster & visited' & Hbfs & (HV0 & Hstart & Hmem) & Hcl).
    { split.
      - repeat split; [exact Hsub0|exists index; split; [exact Hin0|exact Hnode]|].
        constructor; [left; reflexivity|constructor].
      - intros p Hp Hnq. apply elem_of_union in Hp. destruct Hp as [Hp|Hp].
        + apply elem_of_singleton in Hp. subst p. exfalso. apply Hnq. left.
        + eapply closed_at_mono; [exact Hsub0|]. apply Hclosed. exact Hp. }
    { unfold bfs_measure.
      apply lookup_lt_Some in Hnode.
      pose proof (unvisited_insert nodes index visited Hnode Hvis).
      pose proof (unvisited_size nodes visited). simpl. lia. }
    rewrite Hbfs in Hrun.
    assert (Hinit : grow_inv nodes links similarityThreshold visited
                      ([node], [index], {[index]} ∪ visited)).
    { split; [|split].
      - intros q Hq Hq0. apply elem_of_union in Hq. destruct Hq as [Hq|Hq];
          [|contradiction].
        apply elem_of_singleton in Hq. subst q. exists node. split; [left|exact Hnode].
      - intros q Hq. apply list_elem_of_singleton in Hq. subst q. exists node.
        split; [left|exact Hnode].
      - intros k w Hk. destruct k; discriminate. }
    pose proof (bfs_grow visited _ _ cluster visited' Hinit Hbfs) as Hgrow.
    destruct Hgrow as (Hcover & _ & Hconn').
    assert (Hclosed' : closed nodes links similarityThreshold visited').
    { intros p Hp. apply Hcl; [exact Hp|]. intros Hc. inversion Hc. }
    apply (IH (S index) _ visited') in Hrun; [exact Hrun|exact Hrest'|].
    split; [exact Hclosed'|]. split; [|split].
    + intros p Hp. apply (bfs_visited_mono _ _ _ _ Hbfs). cbn [snd].
      destruct (decide (p = index)) as [->|Hne]; [exact Hin0|].
      apply Hsub0, Hbelow. lia.
    + destruct (2 <=? length cluster); [|exact Hconn].
      apply Forall_app. split; [exact Hconn|]. by repeat constructor.
    + intros q u w Hq Hu Hw Hne Hadj.
      assert (Hold : (exists c, c ∈ clusters /\ u ∈ c /\ w ∈ c) ->
                exists c, c ∈ (if 2 <=? length cluster then clusters ++ [cluster]
                               else clusters) /\ u ∈ c /\ w ∈ c).
      { intros (c & Hc & H). exists c. split; [|exact H].
        destruct (2 <=? length cluster); [apply elem_of_app; by left|exact Hc]. }
      destruct (decide (q ∈ visited)) as [Hq0|Hq0];
        [apply Hold; by apply (Hlinked q u w)|].
      destruct Hadj as (l & Hl & Hn & Hle).
      destruct (build_nodeIndexMap_is_Some nodes w Hw) as [qw Hqw].
      assert (Hqw' : qw ∈ visited').
      { apply (Hclosed' q Hq l w qw); try assumption. by rewrite Hu. }
      destruct (decide (qw ∈ visited)) as [Hw0|Hw0].
      * assert (Hu' : u ∈ nodes) by (eapply list_elem_of_lookup_2, Hu).
        destruct (build_nodeIndexMap_is_Some nodes u Hu') as [qu Hqu].
        assert (Hqu0 : qu ∈ visited).
        { apply (Hclosed qw Hw0 l u qu); try assumption.
          rewrite (build_nodeIndexMap_lookup nodes w qw Hqw).
          apply neighborNode_sym; [exact Hn|congruence]. }
        apply Hold. apply (Hlinked qu u w); try assumption.
        -- by apply build_nodeIndexMap_lookup.
        -- exists l. by repeat split.
      * destruct (Hcover q Hq Hq0) as (x & Hx & Ex).
        assert (x = u) by congruence. subst x.
        destruct (Hcover qw Hqw' Hw0) as (y & Hy & Ey).
        rewrite (build_nodeIndexMap_lookup nodes w qw Hqw) in Ey.
        assert (y = w) by congruence. subst y.
        pose proof (two_members cluster u w Hx Hy Hne) as Hlen.
        apply Nat.leb_le in Hlen. rewrite Hlen.
        exists cluster. split; [|by split].
        apply elem_of_app. right. by apply list_elem_of_singleton.
Qed.

Lemma detectClusters_components :
  exists clusters visited,
    detectClusters nodes links similarityThreshold = Some clusters
    /\ clusters_inv nodes links similarityThreshold clusters visited
    /\ exists visited',
         components_inv nodes links similarityThreshold (length nodes)
           clusters visited'.
Proof.
  destruct (detectClusters_inv nodes links similarityThreshold)
    as (clusters & visited & Hrun & Hinv).
  exists clusters, visited. split; [exact Hrun|]. split; [exact Hinv|].
  unfold detectClusters in Hrun.
  apply (detect_from_components 0 nodes [] ∅ clusters) in Hrun; [exact Hrun| |].
  - intros j x Hj. exact Hj.
  - split; [intros p Hp; by apply elem_of_empty in Hp|].
    split; [intros p Hp; lia|]. split; [constructor|].
    intros q u w Hq. by apply elem_of_empty in Hq.
Qed.

End Components.

(** C5: cluster detection returns (the search always terminates) the
    connected components, of two or more nodes, of the graph whose edges are
    the links with a similarity at or above the threshold: every returned
    cluster has at least 2 members, no node appears in two different
    clusters, every member is a node of the list, every cluster is
    connected (each member after the first is joined to an earlier member
    by such a link), and two distinct nodes joined by such a link lie in
    one cluster.  For three nodes pairwise linked with similarity 1.0 it
    returns, at threshold 0.95, exactly one cluster, which contains all
    three. *)
Theorem detectClusters_spec (nodes : list nat) (links : list link)
    (similarityThreshold : Q) :
  exists clusters,
    detectClusters nodes links similarityThreshold = Some clusters
    /\ Forall (fun c => 2 <= length c) clusters
    /\ (forall i j c1 c2 x,
          clusters !! i = Some c1 -> clusters !! j = Some c2 ->
          x ∈ c1 -> x ∈ c2 -> i = j)
    /\ Forall (Forall (fun x => x ∈ nodes)) clusters
    /\ Forall (connected_cluster links similarityThreshold) clusters
    /\ (forall u w,
          u ∈ nodes -> w ∈ nodes -> u <> w ->
          adjacent links similarityThreshold u w ->
          exists c, c ∈ clusters /\ u ∈ c /\ w ∈ c)
    /\ (forall f1 f2 f3 : bool,
          detectClusters [0; 1; 2]
            [full_link f1 0 1; full_link f2 0 2; full_link f3 1 2] (95 # 100)
          = Some [[0; 1; 2]]).
Proof.
  destruct (detectClusters_components nodes links similarityThreshold)
    as (clusters & visited0 & Hrun & (_ & Hsize & Hidx & Hdisj)
        & visited & _ & Hbelow & Hconn & Hlinked).
  exists clusters. split; [exact Hrun|]. split; [exact Hsize|].
  split; [exact Hdisj|]. split; [|split; [exact Hconn|split]].
  - eapply Forall_impl; [exact Hidx|]. intros c Hc.
    eapply Forall_impl; [exact Hc|]. intros x (p & _ & Hp).
    eapply list_elem_of_lookup_2, Hp.
  - intros u w Hu Hw Hne Hadj.
    apply list_elem_of_lookup_1 in Hu as [q Hq].
    apply (Hlinked q u w); try assumption.
    apply Hbelow. eapply lookup_lt_Some, Hq.
  - intros [] [] []; vm_compute; reflexivity.
Qed.

Example detectClusters_example :
  detectClusters [0; 1; 2; 3; 4; 5]
    [full_link false 4 1; full_link true 2 3; full_link false 0 4;
     mkLink 5 3 (1 # 2) "multidimensional"] (95 # 100)
  = Some [[0; 4; 1]; [2; 3]].
Proof. vm_compute. reflexivity. Qed.

(** Three nodes with identical vectors, from the link builder to the
    clusters. *)
Example detectClusters_identical_embeddings :
  detectClusters [0; 1; 2]
    (VisualizationApp.generateLinksOptimized 3 (95 # 100) "multidimensional"
       (fun _ _ => 1%Q) (fun _ => 0%Q) 0)
    (95 # 100)
  = Some [[0; 1; 2]].
Proof. vm_compute. reflexivity. Qed.

(** The same node object at two positions of the list. *)
Example detectClusters_repeated_node :
  detectClusters [0; 1; 0; 2] [full_link true 0 1; full_link false 0 2] (95 # 100)
  = Some [[0; 1; 2; 0]].
Proof. vm_compute. reflexivity. Qed.

End ClusterProperties.

(** ** The glyph signature and outline *)

Section GlyphProperties.
Import SubjectivityExtractor IsotypeRenderer.


Lemma calculateColorAdjustment_opacity (s : subjectivity) :
  intensity_normalised s ->
  (opacity (calculateColorAdjustment s)
   == 0.7 + emotional_intensity (subj_emotional_expression s) * 0.25
   /\ 0.7 <= opacity (calculateColorAdjustment s) <= 0.95)%Q.
Proof.
  unfold intensity_normalised, calculateColorAdjustment. simpl.
  set (v := emotional_intensity (subj_emotional_expression s)).
  intros [H0 H1].
  assert (Hle : (0.7 + v * 0.25 <= 1)%Q) by lra.
  rewrite (Q.min_r _ _ Hle). repeat split; lra.
Qed.

Lemma Qnat_nonneg (n : nat) : (0 <= Qnat n)%Q.
Proof.
  unfold Qnat. change 0%Q with (inject_Z 0). rewrite <- Zle_Qle. lia.
Qed.

Lemma fold_left_Qmax_le (l : list Q) (a : Q) : (a <= fold_left Qmax l a)%Q.
Proof.
  revert a. induction l as [|x l IH]; intros a; simpl; [apply Qle_refl|].
  eapply Qle_trans; [apply Q.le_max_l|apply IH].
Qed.

(** The extractor keeps the intensity in [0, 1] whenever the emotion scores
    are not negative, so the profiles it produces are normalised. *)
Lemma analyzeEmotionalExpression_normalised (text : JS.text) (emotion : list Q) :
  Forall (fun e => (0 <= e)%Q) emotion ->
  (0 <= emotional_intensity (analyzeEmotionalExpression text emotion) <= 1)%Q.
Proof.
  intros Hpos. unfold analyzeEmotionalExpression.
  destruct (is_empty text); [simpl; lra|].
  cbv zeta. cbn [emotional_intensity].
  set (a := Qnat (count_indicators _ _ _)).
  set (b := Qnat (count_indicators _ _ _)).
  set (c := Qnat (count_indicators _ _ _)).
  set (d := Qnat (JS.count_char _ _)).
  set (e := Qnat (JS.count_repetitions _)).
  pose proof (Qnat_nonneg (count_indicators JS.count_word
    ["love"; "hate"; "terrible"; "amazing"; "devastated"; "ecstatic";
     "horrible"; "wonderful"] (JS.toLowerCase text))) as Ha.
  pose proof (Qnat_nonneg (count_indicators JS.count_word
    ["happy"; "sad"; "angry"; "worried"; "excited"; "disappointed"]
    (JS.toLowerCase text))) as Hb.
  pose proof (Qnat_nonneg (count_indicators JS.count_word
    ["okay"; "fine"; "alright"; "good"; "bad"] (JS.toLowerCase text))) as Hc.
  pose proof (Qnat_nonneg (JS.count_char 33 text)) as Hd.
  pose proof (Qnat_nonneg (JS.count_repetitions text)) as He.
  fold a in Ha. fold b in Hb. fold c in Hc. fold d in Hd. fold e in He.
  set (m := if (0 <? length emotion)%nat then JS.Math_max emotion else 0.5%Q).
  assert (Hm : (0 <= m)%Q).
  { unfold m. destruct emotion as [|x rest]; simpl; [lra|].
    apply Forall_cons in Hpos. destruct Hpos as [Hx _].
    eapply Qle_trans; [exact Hx|apply fold_left_Qmax_le]. }
  split.
  - apply Q.min_glb; [lra|].
    assert ((0 <= (a * 3 + b * 2 + c + d * 0.5 + e * 0.3) / 20)%Q).
    { apply Qle_shift_div_l; lra. }
    lra.
  - apply Q.le_min_l.
Qed.




Section Outline.
Local Open Scope R_scope.









End Outline.

End GlyphProperties.

(** ** The subjectivity extractor *)

Section ExtractorProperties.
Import JS SubjectivityExtractor.
Local Open Scope Q_scope.

(** C8, counterexample: the temporal-orientation analyzer is a
    lexical-indicator analyzer, the text "hello" has no temporal indicator,
    and the score returned for it, as for the empty text, is 0.33 and not
    0.5. *)
Lemma analyzeTemporalOrientation_fallback_counterexample :
  temporal_total (toLowerCase (lit "hello")) = 0%nat
  /\ analyzeTemporalOrientation (lit "hello") = mkTemporal "mixed" 0.33 None
  /\ subj_temporal_orientation (extractSubjectivity (fun v => v) empty_node)
     = mkTemporal "mixed" 0.33 None
  /\ ~ (temporal_score (analyzeTemporalOrientation (lit "hello")) == 0.5).
Proof.
  split; [vm_compute; reflexivity|]. split; [vm_compute; reflexivity|].
  split; [vm_compute; reflexivity|]. vm_compute. discriminate.
Qed.

(** C8 (amended): extractSubjectivity is total, and for a node whose text is
    empty or missing it returns narrative_style conversational with score
    0.5, emotional_expression moderate 0.5, temporal_orientation mixed with
    score 0.33, self_reference medium 0.5, complexity moderate 0.5,
    authenticity casual 0.5, rhythm 0.5, reflection_depth 0.5,
    expression_mode direct 0.5, and, when the vectors are empty too,
    uniqueness 0.35.  A lexical-indicator analyzer with zero total indicator
    hits returns its fixed fallback: conversational 0.5 (narrative style),
    casual 0.5 (authenticity), direct 0.5 (expression mode) and mixed 0.33
    (temporal orientation). *)
Theorem extractSubjectivity_fallback (Math_sqrt : Q -> Q) (nd : node)
    (text : text) :
  (node_text nd = [] ->
     empty_text_fields (extractSubjectivity Math_sqrt nd)
     /\ (node_semantic nd = [] -> node_emotion nd = [] ->
           subj_uniqueness (extractSubjectivity Math_sqrt nd) == 0.35))
  /\ (narrative_total (toLowerCase text) = 0%nat ->
        analyzeNarrativeStyle text = mkNarrative (Some "conversational") 0.5 None)
  /\ (authenticity_total (toLowerCase text) = 0%nat ->
        analyzeAuthenticity text = mkAuthenticity (Some "casual") 0.5 None)
  /\ (expression_total (toLowerCase text) = 0%nat ->
        analyzeExpressionMode text = mkExpressionMode "direct" 0.5)
  /\ (temporal_total (toLowerCase text) = 0%nat ->
        analyzeTemporalOrientation text = mkTemporal "mixed" 0.33 None).
Proof.
  split; [|repeat split].
  - intros Htext. unfold extractSubjectivity, empty_text_fields. rewrite Htext.
    split; [repeat split|].
    intros Hs He. simpl. rewrite Hs, He. vm_compute. reflexivity.
  - intros H. unfold analyzeNarrativeStyle.
    destruct (is_empty text); [reflexivity|].
    destruct (narrative_counts (toLowerCase text)) as [[[a b] c] d].
    rewrite H. reflexivity.
  - intros H. unfold analyzeAuthenticity.
    destruct (is_empty text); [reflexivity|].
    destruct (authenticity_counts (toLowerCase text)) as [[a b] c].
    rewrite H. reflexivity.
  - intros H. unfold analyzeExpressionMode.
    destruct (is_empty text); [reflexivity|].
    destruct (expression_counts (toLowerCase text)) as [a b].
    rewrite H. reflexivity.
  - intros H. unfold analyzeTemporalOrientation.
    destruct (is_empty text); [reflexivity|].
    destruct (temporal_counts (toLowerCase text)) as [[a b] c].
    rewrite H. reflexivity.
Qed.

Lemma extractSubjectivity_fallback_witness :
  (empty_text_fields (extractSubjectivity (fun v => v) empty_node)
   /\ subj_uniqueness (extractSubjectivity (fun v => v) empty_node) == 0.35)
  /\ analyzeNarrativeStyle (lit "hello") = mkNarrative (Some "conversational") 0.5 None
  /\ analyzeAuthenticity (lit "hello") = mkAuthenticity (Some "casual") 0.5 None
  /\ analyzeExpressionMode (lit "hello") = mkExpressionMode "direct" 0.5
  /\ analyzeTemporalOrientation (lit "hello") = mkTemporal "mixed" 0.33 None.
Proof.
  destruct (extractSubjectivity_fallback (fun v => v) empty_node (lit "hello"))
    as (H1 & H2 & H3 & H4 & H5).
  destruct (H1 eq_refl) as [Hfields Huniq].
  split; [split; [exact Hfields|exact (Huniq eq_refl eq_refl)]|].
  split; [apply H2; vm_compute; reflexivity|].
  split; [apply H3; vm_compute; reflexivity|].
  split; [apply H4; vm_compute; reflexivity|].
  apply H5; vm_compute; reflexivity.
Defined.

(** The scenario of the specification: reflective text. *)
Example extractSubjectivity_reflective :
  let p := extractSubjectivity (fun v => v)
             (mkNode
                (Some (lit "A: I think I understand now. A: I realize this changed me."))
                (Some (mkIsotypeSignature (Some []) (Some []) None)) None None) in
  narrative_type (subj_narrative_style p) = Some "reflective"
  /\ 0 < subj_reflection_depth p.
Proof. vm_compute. split; reflexivity. Qed.

End ExtractorProperties.

(** ** The noise sampler *)

Section NoiseProperties.
Import EmotiveArt.
Local Open Scope R_scope.

Lemma noise_loop_table Math_random remaining i table k :
  fst (noise_loop Math_random remaining i table k)
  = table ++ ((fun j => noise_value (i + j) (Math_random (k + j)%nat))
              <$> seq 0 remaining).
Proof.
  revert i table k. induction remaining as [|r IH]; intros i table k.
  - simpl. rewrite app_nil_r. reflexivity.
  - cbn [noise_loop]. rewrite IH, <- app_assoc. f_equal.
    cbn [seq fmap list_fmap app]. rewrite !Nat.add_0_r. f_equal.
    rewrite <- fmap_S_seq, <- list_fmap_compose.
    apply list_fmap_ext. intros _ j _. simpl.
    rewrite !Nat.add_succ_r. reflexivity.
Qed.

Lemma new_noiseTable Math_random k :
  noiseTable (fst (new Math_random k))
  = (fun j => noise_value j (Math_random (k + j)%nat)) <$> seq 0 512.
Proof.
  unfold new, generateNoiseTable.
  pose proof (noise_loop_table Math_random 512 0 [] k) as H.
  destruct (noise_loop Math_random 512 0 [] k) as [table k'].
  simpl in H. rewrite H. reflexivity.
Qed.

(** Two constructions that draw the same 512 random numbers build the same
    instance. *)
Lemma new_agree rnd1 rnd2 k1 k2 :
  (forall j, (j < 512)%nat -> rnd1 (k1 + j)%nat = rnd2 (k2 + j)%nat) ->
  fst (new rnd1 k1) = fst (new rnd2 k2).
Proof.
  intros Hagree.
  assert (H : noiseTable (fst (new rnd1 k1)) = noiseTable (fst (new rnd2 k2))).
  { rewrite !new_noiseTable. apply list_fmap_ext. intros i j Hj.
    apply lookup_seq in Hj. destruct Hj as [-> Hlt].
    rewrite Hagree by lia. reflexivity. }
  destruct (fst (new rnd1 k1)), (fst (new rnd2 k2)). simpl in H. rewrite H.
  reflexivity.
Qed.




Lemma noise_loop_draws Math_random remaining i table k :
  snd (noise_loop Math_random remaining i table k) = (k + remaining)%nat.
Proof.
  revert i table k. induction remaining as [|r IH]; intros i table k; cbn [noise_loop].
  - cbn. lia.
  - rewrite IH. lia.
Qed.








End NoiseProperties.

(* ===================================================================== *)
(** * Part IV: further properties                                         *)
(* ===================================================================== *)

(** ** Cosine similarity: degenerate inputs *)

Section CosineFurther.
Import VisualizationApp.
Local Open Scope R_scope.




End CosineFurther.

(** ** The link builder: keys, sampling, selection and completeness *)

Section LinkFurther.
Import VisualizationApp.

(** *** Link keys *)

Lemma string_of_uint_no_dash d : no_dash (NilEmpty.string_of_uint d).
Proof. induction d; simpl; (split; [discriminate|assumption]) || exact I. Qed.

Lemma Number_toString_no_dash a : no_dash (Number_toString a).
Proof.
  unfold Number_toString, NilZero.string_of_uint.
  destruct (Nat.to_uint a) eqn:E; rewrite <- ?E;
    try apply string_of_uint_no_dash.
  simpl. split; [discriminate|exact I].
Qed.

Lemma dash_split u u' v v' :
  no_dash u -> no_dash u' ->
  u +:+ "-" +:+ v = u' +:+ "-" +:+ v' -> u = u' /\ v = v'.
Proof.
  revert u'. induction u as [|c u IH]; intros [|c' u'] Hu Hu' E; simpl in *.
  - inversion E. done.
  - inversion E; subst. destruct Hu' as [Hc _]. contradiction.
  - inversion E; subst. destruct Hu as [Hc _]. contradiction.
  - inversion E; subst. destruct (IH u') as [-> ->]; tauto.
Qed.

Lemma to_uint_nonnil a : Nat.to_uint a <> Decimal.Nil.
Proof.
  rewrite <- (Unsigned.of_to a) at 1. rewrite Unsigned.to_of.
  apply unorm_nonnil.
Qed.

Lemma Number_toString_inj a b : Number_toString a = Number_toString b -> a = b.
Proof.
  unfold Number_toString. intros E.
  apply Unsigned.to_uint_inj.
  pose proof (NilZero.usu _ (to_uint_nonnil a)) as Ha.
  pose proof (NilZero.usu _ (to_uint_nonnil b)) as Hb.
  rewrite E in Ha. congruence.
Qed.

Lemma linkKey_min_max i j :
  linkKey i j
  = Number_toString (Nat.min i j) +:+ "-" +:+ Number_toString (Nat.max i j).
Proof.
  unfold linkKey. destruct (Nat.ltb_spec i j).
  - rewrite Nat.min_l, Nat.max_r by lia. reflexivity.
  - rewrite Nat.min_r, Nat.max_l by lia. reflexivity.
Qed.

Lemma linkKey_inj i j i' j' :
  linkKey i j = linkKey i' j' ->
  Nat.min i j = Nat.min i' j' /\ Nat.max i j = Nat.max i' j'.
Proof.
  rewrite !linkKey_min_max. intros E.
  apply dash_split in E; try apply Number_toString_no_dash.
  destruct E as [E1 E2]. split; apply Number_toString_inj; assumption.
Qed.

(** X4: two pairs of indices have the same link key exactly when they are
    the same unordered pair: the key does not depend on the order of the two
    indices, and the separator keeps keys such as 1-23 and 12-3 apart. *)
Theorem linkKey_canonical (i j i' j' : nat) :
  linkKey i j = linkKey i' j'
  <-> Nat.min i j = Nat.min i' j' /\ Nat.max i j = Nat.max i' j'.
Proof.
  split; [apply linkKey_inj|].
  rewrite !linkKey_min_max. intros [-> ->]. reflexivity.
Qed.

(** *** Sampling *)

Lemma randomIndex_lt n Math_random k :
  random_in_range Math_random -> 0 < n -> randomIndex n Math_random k < n.
Proof.
  intros Hr Hn. unfold randomIndex. destruct (Hr k) as [H0 H1].
  set (x := (Math_random k * inject_Z (Z.of_nat n))%Q).
  assert (Hx : (x < inject_Z (Z.of_nat n))%Q).
  { unfold x. assert (0 < inject_Z (Z.of_nat n))%Q.
    { change 0%Q with (inject_Z 0). rewrite <- Zlt_Qlt. lia. }
    nra. }
  pose proof (Qfloor_le x) as Hf.
  assert (Qfloor x < Z.of_nat n)%Z.
  { rewrite Zlt_Qlt. eapply Qle_lt_trans; eassumption. }
  lia.
Qed.

Lemma others_elem_of n i j : j ∈ others n i <-> j < n /\ j <> i.
Proof. unfold others. rewrite list_elem_of_filter, elem_of_seq. lia. Qed.

Lemma local_window_small n i : n <= 20 -> i < n -> local_window n i = others n i.
Proof.
  intros Hn Hi. unfold local_window, others.
  rewrite (Nat.min_r 20 n) by lia.
  replace (i - n) with 0 by lia.
  rewrite (Nat.min_l n (i + n)) by lia.
  by rewrite Nat.sub_0_r.
Qed.

Lemma random_fill_saturated n Math_random remaining i size indices k :
  random_in_range Math_random -> 0 < n ->
  (forall j, j < n -> j <> i -> j ∈ indices) ->
  fst (random_fill n Math_random remaining i size indices k) = indices.
Proof.
  intros Hr Hn Hall. revert k.
  induction remaining as [|r IH]; intros k; cbn [random_fill]; [done|].
  destruct (length indices <? size); [|done]. cbv zeta.
  destruct (Nat.eqb_spec (randomIndex n Math_random k) i) as [E|E]; [apply IH|].
  unfold Set_add, Set_has. rewrite bool_decide_eq_true_2; [apply IH|].
  apply Hall; [apply randomIndex_lt; assumption | exact E].
Qed.

Lemma getSampleIndices_lt n Math_random i size k :
  random_in_range Math_random -> i < n ->
  Forall (fun j => j < n) (fst (getSampleIndices n Math_random i size k)).
Proof.
  intros Hr Hi. unfold getSampleIndices. rewrite window_fill_local_window.
  destruct (random_fill_spec n Math_random
              (size - length (local_window n i)) i size (local_window n i) k)
    as [(extra & Heq & Hdraw & _) _].
  cbv zeta in Heq. rewrite Heq. apply Forall_app. split.
  - apply Forall_forall. intros j Hj. apply local_window_elem_of in Hj. lia.
  - eapply Forall_impl; [exact Hdraw|]. intros j (k' & _ & ->).
    apply randomIndex_lt; [assumption|lia].
Qed.

(** X5: with at most 20 nodes, where the sample size is the node count, the
    candidate sample of a node is the list of all other indices in
    increasing order, whatever numbers are drawn. *)
Theorem getSampleIndices_small (n : nat) (Math_random : nat -> Q) (i k : nat) :
  random_in_range Math_random -> n <= 20 -> i < n ->
  fst (getSampleIndices n Math_random i (sampleSize n) k) = others n i.
Proof.
  intros Hr Hn Hi. unfold getSampleIndices.
  rewrite window_fill_local_window, local_window_small by assumption.
  apply random_fill_saturated; [assumption|lia|].
  intros j Hj Hne. by apply others_elem_of.
Qed.

Lemma getSampleIndices_small_witness :
  fst (getSampleIndices 4 (fun _ => 1 # 2) 1 (sampleSize 4) 0) = others 4 1.
Proof.
  apply (getSampleIndices_small 4 (fun _ => 1 # 2) 1 0); [|lia|lia].
  intros k. split; [unfold Qle; simpl; lia | reflexivity].
Defined.

(** *** Selection of the most similar candidates *)

Lemma sort_insert_descending c l : descending l -> descending (sort_insert c l).
Proof.
  unfold descending. induction 1 as [|d l Hl IH Hd]; cbn [sort_insert].
  - repeat constructor.
  - destruct (Qle_bool (cand_similarity d) (cand_similarity c)) eqn:E.
    + apply Qle_bool_iff in E. constructor; [by constructor|].
      constructor; [exact E|].
      eapply Forall_impl; [exact Hd|]. intros x Hx. cbn beta in *.
      eapply Qle_trans; eassumption.
    + assert (Hlt : (cand_similarity c <= cand_similarity d)%Q).
      { destruct (Qlt_le_dec (cand_similarity c) (cand_similarity d)) as [H|H].
        - by apply Qlt_le_weak.
        - apply Qle_bool_iff in H. congruence. }
      constructor; [exact IH|].
      rewrite (sort_insert_Permutation c l). by constructor.
Qed.

Lemma sort_by_similarity_descending l : descending (sort_by_similarity l).
Proof.
  unfold sort_by_similarity. induction l as [|c l IH]; cbn [foldr].
  - constructor.
  - by apply sort_insert_descending.
Qed.

Lemma descending_app l1 l2 c d :
  descending (l1 ++ l2) -> c ∈ l1 -> d ∈ l2 ->
  (cand_similarity d <= cand_similarity c)%Q.
Proof.
  unfold descending. induction l1 as [|x l1 IH]; intros Hs Hc Hd.
  - inversion Hc.
  - cbn in Hs. apply StronglySorted_inv in Hs. destruct Hs as [Hs Hx].
    apply elem_of_cons in Hc. destruct Hc as [->|Hc]; [|by apply IH].
    rewrite Forall_forall in Hx. apply Hx. apply elem_of_app. by right.
Qed.

(** X6: sorting the candidates and keeping the first ones retains the most
    similar: the sorted array is a permutation of the candidates, and every
    candidate that is cut off is at most as similar as every candidate that
    is kept. *)
Theorem topCandidates_best (candidates : list candidate) (e : Z) :
  let sorted := sort_by_similarity candidates in
  let topCandidates := slice_0 sorted e in
  sorted ≡ₚ candidates
  /\ exists dropped,
       sorted = topCandidates ++ dropped
       /\ forall c d, c ∈ topCandidates -> d ∈ dropped ->
            (cand_similarity d <= cand_similarity c)%Q.
Proof.
  cbv zeta. split; [apply sort_by_similarity_Permutation|].
  unfold slice_0.
  set (k := Z.to_nat _).
  exists (drop k (sort_by_similarity candidates)).
  split; [by rewrite take_drop|].
  intros c d Hc Hd. eapply descending_app; [|exact Hc|exact Hd].
  rewrite take_drop. apply sort_by_similarity_descending.
Qed.

(** *** The links that are built *)

Section Builder.
Variable n : nat.
Variable threshold : Q.
Variable config_dimension : string.
Variable calculateSimilarity : nat -> nat -> Q.
Variable Math_random : nat -> Q.

Local Abbreviation body :=
  (links_body n threshold config_dimension calculateSimilarity Math_random).
Local Abbreviation after :=
  (links_after n threshold config_dimension calculateSimilarity Math_random).

Lemma links_after_S m k : after (S m) k = body (after m k) m.
Proof. unfold links_after. by rewrite seq_S, fold_left_app. Qed.

Lemma links_body_eq links linkSet k m :
  body (links, linkSet, k) m
  = let sample := getSampleIndices n Math_random m (sampleSize n) k in
    let top := slice_0 (sort_by_similarity
                 (collect_candidates threshold calculateSimilarity m linkSet (fst sample)))
                 (maxLinksPerNode n) in
    (add_links config_dimension m top (links, linkSet), snd sample).
Proof.
  unfold links_body. destruct (getSampleIndices _ _ _ _ _) as [sample k']. cbn.
  by destruct (add_links _ _ _ _).
Qed.

Lemma collect_candidates_Forall (R : candidate -> Prop) i linkSet sample :
  (forall j, j ∈ sample -> j <> i -> (threshold <= calculateSimilarity i j)%Q ->
     R (mkCandidate j (calculateSimilarity i j) j)) ->
  Forall R (collect_candidates threshold calculateSimilarity i linkSet sample).
Proof.
  intros HR. unfold collect_candidates.
  apply fold_left_invariant; [constructor|].
  intros candidates j Hj IH. unfold collect_step.
  destruct (Nat.eqb_spec i j) as [E|E]; [exact IH|].
  case_bool_decide; [exact IH|].
  destruct (Qle_bool threshold (calculateSimilarity i j)) eqn:Hq; [|exact IH].
  apply Forall_app. split; [exact IH|]. constructor; [|constructor].
  apply Qle_bool_iff in Hq. apply HR; auto.
Qed.

Lemma add_links_Forall (R : link -> Prop) i top st :
  Forall R (fst st) ->
  (forall c, c ∈ top ->
     R (mkLink i (cand_target c) (cand_similarity c) config_dimension)) ->
  Forall R (fst (add_links config_dimension i top st)).
Proof.
  intros Hst HR. unfold add_links.
  apply fold_left_invariant; [exact Hst|].
  intros [links linkSet] c Hc IH. unfold add_link_step.
  case_bool_decide; [exact IH|]. cbn [fst] in *.
  apply Forall_app. split; [exact IH|]. constructor; [|constructor].
  by apply HR.
Qed.

Lemma links_body_Forall (R : link -> Prop) links linkSet k m :
  Forall R links ->
  (forall j, j ∈ fst (getSampleIndices n Math_random m (sampleSize n) k) ->
     j <> m -> (threshold <= calculateSimilarity m j)%Q ->
     R (mkLink m j (calculateSimilarity m j) config_dimension)) ->
  Forall R (fst (fst (body (links, linkSet, k) m))).
Proof.
  intros Hl HR. rewrite links_body_eq. cbv zeta. cbn [fst].
  apply add_links_Forall; [exact Hl|].
  intros c Hc. apply slice_0_elem_of in Hc.
  rewrite sort_by_similarity_Permutation in Hc. revert c Hc.
  apply Forall_forall.
  apply (collect_candidates_Forall
           (fun c => R (mkLink m (cand_target c) (cand_similarity c) config_dimension))).
  exact HR.
Qed.

Lemma links_after_wf m k :
  random_in_range Math_random -> m <= n ->
  Forall (link_wf n threshold config_dimension calculateSimilarity)
    (fst (fst (after m k))).
Proof.
  intros Hr. induction m as [|m IH]; intros Hm; [constructor|].
  rewrite links_after_S.
  destruct (after m k) as [[links linkSet] k0] eqn:E. cbn [fst] in IH.
  apply links_body_Forall; [apply IH; lia|].
  intros j Hj Hne Hthr.
  pose proof (getSampleIndices_lt n Math_random m (sampleSize n) k0 Hr Hm) as Hlt.
  rewrite Forall_forall in Hlt. specialize (Hlt j Hj).
  unfold link_wf. cbn. repeat split; auto.
Qed.

Lemma links_after_length m k :
  m <= n ->
  (Z.of_nat (length (fst (fst (after m k)))) <= Z.of_nat m * maxLinksPerNode n)%Z.
Proof.
  induction m as [|m IH]; intros Hm; [cbn; lia|].
  rewrite links_after_S.
  destruct (after m k) as [[links linkSet] k0] eqn:E. cbn [fst] in IH.
  rewrite links_body_eq. cbv zeta. cbn [fst].
  set (top := slice_0 _ _).
  assert (Htop : Forall (candidate_ok threshold calculateSimilarity m) top).
  { apply Forall_forall. intros c Hc. apply slice_0_elem_of in Hc.
    rewrite sort_by_similarity_Permutation in Hc. revert c Hc.
    apply Forall_forall, collect_candidates_ok. }
  assert (Hlen : (Z.of_nat (length top) <= maxLinksPerNode n)%Z)
    by (apply slice_0_length, maxLinksPerNode_nonneg; lia).
  destruct (add_links_spec threshold config_dimension calculateSimilarity
              Math_random m top links linkSet Htop)
    as (new & linkSet' & Heq & _ & Hcount & _).
  rewrite Heq. cbn [fst]. rewrite length_app.
  specialize (IH ltac:(lia)). lia.
Qed.

Lemma others_length count i : i < count -> length (others count i) < count.
Proof.
  intros Hi. unfold others.
  assert (Hin : i ∈ seq 0 count) by (apply elem_of_seq; lia).
  pose proof (length_filter_lt (fun j => j <> i) _ _ Hin) as H.
  rewrite length_seq in H. apply H. tauto.
Qed.

Lemma collect_candidates_length i linkSet sample :
  length (collect_candidates threshold calculateSimilarity i linkSet sample)
  <= length sample.
Proof.
  unfold collect_candidates.
  assert (G : forall acc,
            length (fold_left (collect_step threshold calculateSimilarity i linkSet)
                      sample acc) <= length acc + length sample).
  { induction sample as [|j sample IH]; intros acc; cbn [fold_left length]; [lia|].
    etransitivity; [apply IH|].
    unfold collect_step.
    destruct (i =? j); [lia|]. case_bool_decide; [lia|].
    destruct (Qle_bool _ _); [|lia]. rewrite length_app. cbn. lia. }
  apply (G []).
Qed.

Lemma collect_candidates_complete i linkSet sample j :
  j ∈ sample -> j <> i -> linkKey i j ∉ linkSet ->
  (threshold <= calculateSimilarity i j)%Q ->
  exists c, c ∈ collect_candidates threshold calculateSimilarity i linkSet sample
            /\ targetIndex c = j.
Proof.
  intros Hj Hne Hkey Hthr. unfold collect_candidates.
  assert (G : forall acc,
            (exists c, c ∈ acc /\ targetIndex c = j) \/ j ∈ sample ->
            exists c, c ∈ fold_left (collect_step threshold calculateSimilarity i linkSet)
                           sample acc /\ targetIndex c = j).
  { clear Hj. induction sample as [|x sample IH]; intros acc H; cbn [fold_left].
    - destruct H as [H|H]; [exact H|inversion H].
    - apply IH. destruct H as [(c & Hc & E)|H].
      + left. exists c. split; [|exact E]. unfold collect_step.
        destruct (i =? x); [exact Hc|]. case_bool_decide; [exact Hc|].
        destruct (Qle_bool _ _); [|exact Hc]. apply elem_of_app. by left.
      + apply elem_of_cons in H. destruct H as [->|H]; [|by right].
        left. unfold collect_step.
        destruct (Nat.eqb_spec i x) as [E|_]; [congruence|].
        rewrite bool_decide_eq_false_2 by exact Hkey.
        apply Qle_bool_iff in Hthr. rewrite Hthr.
        eexists. split; [apply elem_of_app; right; apply list_elem_of_singleton; reflexivity|].
        reflexivity. }
  apply G. by right.
Qed.

Lemma add_links_complete i top links linkSet :
  (forall key, key ∈ linkSet -> exists l, l ∈ links /\ link_key l = key) ->
  Forall (fun c => cand_target c = targetIndex c) top ->
  let st := add_links config_dimension i top (links, linkSet) in
  (forall key, key ∈ snd st -> exists l, l ∈ fst st /\ link_key l = key)
  /\ linkSet ⊆ snd st
  /\ (forall c, c ∈ top -> linkKey i (targetIndex c) ∈ snd st).
Proof.
  unfold add_links. revert links linkSet.
  induction top as [|c top IH]; intros links linkSet HA Htgt; cbn [fold_left].
  - cbn. split; [exact HA|]. split; [done|]. intros c Hc. inversion Hc.
  - apply Forall_cons in Htgt. destruct Htgt as [Hc Htgt].
    remember (add_link_step config_dimension i (links, linkSet) c) as st1 eqn:E.
    unfold add_link_step in E. case_bool_decide as Hkey; subst st1.
    + destruct (IH links linkSet HA Htgt) as (H1 & H2 & H3).
      split; [exact H1|]. split; [exact H2|].
      intros c' Hc'. apply elem_of_cons in Hc'. destruct Hc' as [->|Hc'].
      * apply H2, Hkey.
      * by apply H3.
    + set (lk := mkLink i (cand_target c) (cand_similarity c) config_dimension).
      destruct (IH (links ++ [lk]) ({[linkKey i (targetIndex c)]} ∪ linkSet))
        as (H1 & H2 & H3); [|exact Htgt|].
      { intros key Hin. apply elem_of_union in Hin. destruct Hin as [Hin|Hin].
        - apply elem_of_singleton in Hin. subst key. exists lk.
          split; [apply elem_of_app; right; by apply list_elem_of_singleton|].
          unfold link_key, lk. cbn. by rewrite Hc.
        - destruct (HA key Hin) as (l & Hl & E). exists l.
          split; [apply elem_of_app; by left|exact E]. }
      split; [exact H1|]. split.
      * intros key Hin. apply H2, elem_of_union. by right.
      * intros c' Hc'. apply elem_of_cons in Hc'. destruct Hc' as [->|Hc'].
        -- apply H2, elem_of_union. left. by apply elem_of_singleton.
        -- by apply H3.
Qed.

Lemma slice_0_all {A : Type} (l : list A) (e : Z) :
  (Z.of_nat (length l) <= e)%Z -> slice_0 l e = l.
Proof.
  intros He. unfold slice_0.
  destruct (Z.ltb_spec e 0); [lia|].
  apply firstn_all2. lia.
Qed.

Lemma links_body_complete m st :
  random_in_range Math_random -> n <= 11 -> m < n ->
  links_complete n threshold calculateSimilarity m st ->
  links_complete n threshold calculateSimilarity (S m) (body st m).
Proof.
  intros Hr Hn Hm. destruct st as [[links linkSet] k]. intros [HA HB].
  rewrite links_body_eq. cbv zeta.
  rewrite getSampleIndices_small by (assumption || lia).
  set (candidates := collect_candidates threshold calculateSimilarity m linkSet
                       (others n m)).
  assert (Hall : slice_0 (sort_by_similarity candidates) (maxLinksPerNode n)
                 = sort_by_similarity candidates).
  { apply slice_0_all.
    rewrite (Permutation_length (sort_by_similarity_Permutation candidates)).
    pose proof (collect_candidates_length m linkSet (others n m)) as H1.
    pose proof (others_length n m Hm) as H2. fold candidates in H1.
    unfold maxLinksPerNode, linkParameters.
    destruct (Nat.leb_spec n 20); [cbn [fst]|]; lia. }
  rewrite Hall.
  assert (Htgt : Forall (fun c => cand_target c = targetIndex c)
                   (sort_by_similarity candidates)).
  { rewrite sort_by_similarity_Permutation.
    eapply Forall_impl; [apply collect_candidates_ok|]. by intros c [H _]. }
  destruct (add_links_complete m _ links linkSet HA Htgt) as (H1 & H2 & H3).
  destruct (add_links config_dimension m (sort_by_similarity candidates)
              (links, linkSet)) as [links' linkSet'].
  cbn [fst snd] in *. split; [exact H1|].
  intros i j Hi Hj Hne Hthr.
  destruct (Nat.eq_dec i m) as [->|Him].
  - destruct (decide (linkKey m j ∈ linkSet)) as [Hin|Hnin]; [by apply H2|].
    destruct (collect_candidates_complete m linkSet (others n m) j)
      as (c & Hc & <-); try assumption.
    + apply others_elem_of. split; [exact Hj|congruence].
    + congruence.
    + apply H3. by rewrite sort_by_similarity_Permutation.
  - apply H2, HB; try assumption. lia.
Qed.

Lemma links_after_complete m k :
  random_in_range Math_random -> n <= 11 -> m <= n ->
  links_complete n threshold calculateSimilarity m (after m k).
Proof.
  intros Hr Hn. induction m as [|m IH]; intros Hm.
  - cbn. split; [intros key Hkey; by apply elem_of_empty in Hkey | intros; lia].
  - rewrite links_after_S. apply links_body_complete; try assumption; try lia.
    apply IH. lia.
Qed.

End Builder.

(** X7: when the random numbers lie in [0, 1), both ends of every link are
    indices of nodes, the link carries the configured dimension, and its
    similarity is the one computed for (source, target), which reaches the
    threshold. *)
Theorem generateLinksOptimized_well_formed (n : nat) (threshold : Q)
    (config_dimension : string) (calculateSimilarity : nat -> nat -> Q)
    (Math_random : nat -> Q) (k : nat) :
  random_in_range Math_random ->
  Forall (link_wf n threshold config_dimension calculateSimilarity)
    (generateLinksOptimized n threshold config_dimension calculateSimilarity
       Math_random k).
Proof.
  intros Hr. apply (links_after_wf n threshold config_dimension
                      calculateSimilarity Math_random n k Hr). lia.
Qed.

Lemma generateLinksOptimized_well_formed_witness :
  Forall (link_wf 3 (1 # 2) "semantic" (fun _ _ => 1%Q))
    (generateLinksOptimized 3 (1 # 2) "semantic" (fun _ _ => 1%Q)
       (fun _ => 1 # 2) 0).
Proof.
  apply (generateLinksOptimized_well_formed 3 (1 # 2) "semantic"
           (fun _ _ => 1%Q) (fun _ => 1 # 2) 0).
  intros k. split; [unfold Qle; simpl; lia | reflexivity].
Defined.

(** X8: the number of links is at most the node count times the cap per
    node, and the cap never exceeds 10. *)
Theorem generateLinksOptimized_length (n : nat) (threshold : Q)
    (config_dimension : string) (calculateSimilarity : nat -> nat -> Q)
    (Math_random : nat -> Q) (k : nat) :
  (Z.of_nat (length (generateLinksOptimized n threshold config_dimension
                       calculateSimilarity Math_random k))
   <= Z.of_nat n * maxLinksPerNode n)%Z
  /\ (maxLinksPerNode n <= 10)%Z.
Proof.
  split.
  - apply (links_after_length n threshold config_dimension
             calculateSimilarity Math_random n k). lia.
  - unfold maxLinksPerNode, linkParameters.
    destruct (n <=? 20); [cbn; lia|]. destruct (n <=? 50); cbn; lia.
Qed.

(** X9: with at most 11 nodes, where neither the sample nor the cap leaves a
    candidate out, every pair of distinct nodes whose similarity, computed in
    one of the two orders, reaches the threshold is joined by a link. *)
Theorem generateLinksOptimized_complete (n : nat) (threshold : Q)
    (config_dimension : string) (calculateSimilarity : nat -> nat -> Q)
    (Math_random : nat -> Q) (k i j : nat) :
  random_in_range Math_random -> n <= 11 ->
  i < n -> j < n -> i <> j -> (threshold <= calculateSimilarity i j)%Q ->
  exists l,
    l ∈ generateLinksOptimized n threshold config_dimension calculateSimilarity
          Math_random k
    /\ ((source l = i /\ target l = j) \/ (source l = j /\ target l = i)).
Proof.
  intros Hr Hn Hi Hj Hne Hthr.
  pose proof (links_after_complete n threshold config_dimension calculateSimilarity
                Math_random n k Hr Hn (Nat.le_refl n)) as H.
  unfold generateLinksOptimized, generateLinksOptimized_from.
  unfold links_after in H.
  destruct (fold_left _ _ _) as [[links linkSet] k']. destruct H as [HA HB].
  destruct (HA _ (HB i j Hi Hj Hne Hthr)) as (l & Hl & Hkey).
  exists l. split; [exact Hl|].
  apply linkKey_inj in Hkey. lia.
Qed.

Lemma generateLinksOptimized_complete_witness :
  exists l,
    l ∈ generateLinksOptimized 3 (1 # 2) "semantic" (fun _ _ => 1%Q)
          (fun _ => 1 # 2) 0
    /\ ((source l = 2 /\ target l = 0) \/ (source l = 0 /\ target l = 2)).
Proof.
  apply (generateLinksOptimized_complete 3 (1 # 2) "semantic" (fun _ _ => 1%Q)
           (fun _ => 1 # 2) 0 2 0); try lia.
  - intros k. split; [unfold Qle; simpl; lia | reflexivity].
  - unfold Qle; simpl; lia.
Defined.

End LinkFurther.

(** ** Cluster detection: the clusters are the connected components *)

Section ClusterFurther.
Import ClusterFusion.

(** X10: every member of a returned cluster is a node of the list: an end of
    a link that is not among the nodes never enters a cluster. *)
Theorem detectClusters_members (nodes : list nat) (links : list link)
    (similarityThreshold : Q) :
  exists clusters,
    detectClusters nodes links similarityThreshold = Some clusters
    /\ Forall (Forall (fun x => x ∈ nodes)) clusters.
Proof.
  destruct (detectClusters_inv nodes links similarityThreshold)
    as (clusters & visited & Hrun & _ & _ & Hidx & _).
  exists clusters. split; [exact Hrun|].
  eapply Forall_impl; [exact Hidx|]. intros c Hc.
  eapply Forall_impl; [exact Hc|]. intros x (p & _ & Hp).
  eapply list_elem_of_lookup_2, Hp.
Qed.

(** X11: two distinct nodes of the list that are the two ends of a link
    whose similarity reaches the threshold lie in one returned cluster. *)
Theorem detectClusters_linked (nodes : list nat) (links : list link)
    (similarityThreshold : Q) (l : link) :
  l ∈ links -> source l ∈ nodes -> target l ∈ nodes -> source l <> target l ->
  (similarityThreshold <= similarity l)%Q ->
  exists clusters c,
    detectClusters nodes links similarityThreshold = Some clusters
    /\ c ∈ clusters /\ source l ∈ c /\ target l ∈ c.
Proof.
  intros Hl Hs Ht Hne Hle.
  destruct (detectClusters_components nodes links similarityThreshold)
    as (clusters & _ & Hrun & _ & visited & _ & Hbelow & _ & Hlinked).
  apply list_elem_of_lookup_1 in Hs as Hq. destruct Hq as [q Hq].
  destruct (Hlinked q (source l) (target l)) as (c & Hc & H1 & H2); try assumption.
  - apply Hbelow. eapply lookup_lt_Some, Hq.
  - exists l. split; [exact Hl|]. split; [|exact Hle].
    unfold neighborNode. by rewrite bool_decide_eq_true_2.
  - exists clusters, c. by repeat split.
Qed.

Lemma detectClusters_linked_witness :
  exists clusters c,
    detectClusters [0; 1; 2] [mkLink 2 0 1 "semantic"] (95 # 100) = Some clusters
    /\ c ∈ clusters /\ 2 ∈ c /\ 0 ∈ c.
Proof.
  apply (detectClusters_linked [0; 1; 2] [mkLink 2 0 1 "semantic"] (95 # 100)
           (mkLink 2 0 1 "semantic")).
  - left.
  - cbn. compute_done.
  - cbn. compute_done.
  - cbn. lia.
  - unfold Qle; simpl; lia.
Defined.

(** X12: every returned cluster is connected: each member after the first
    is joined, by a link whose similarity reaches the threshold, to a member
    that stands before it in the cluster. *)
Theorem detectClusters_connected (nodes : list nat) (links : list link)
    (similarityThreshold : Q) :
  exists clusters,
    detectClusters nodes links similarityThreshold = Some clusters
    /\ Forall (connected_cluster links similarityThreshold) clusters.
Proof.
  destruct (detectClusters_components nodes links similarityThreshold)
    as (clusters & _ & Hrun & _ & visited & _ & _ & Hconn & _).
  exists clusters. by split.
Qed.

(** X13: when the similarity of every link is below the threshold (in
    particular when there is no link), no cluster is returned. *)
Theorem detectClusters_below_threshold (nodes : list nat) (links : list link)
    (similarityThreshold : Q) :
  Forall (fun l => (similarity l < similarityThreshold)%Q) links ->
  detectClusters nodes links similarityThreshold = Some [].
Proof.
  intros Hlow.
  destruct (detectClusters_components nodes links similarityThreshold)
    as (clusters & visited0 & Hrun & (_ & Hsize & _) & visited & _ & _ & Hconn & _).
  rewrite Hrun. f_equal.
  destruct clusters as [|c clusters]; [reflexivity|exfalso].
  apply Forall_cons in Hsize, Hconn. destruct Hsize as [Hlen _], Hconn as [Hc _].
  destruct c as [|x [|w c]]; cbn in Hlen; try lia.
  destruct (Hc 0 w eq_refl) as (j & u & _ & _ & l & Hl & _ & Hle).
  rewrite Forall_forall in Hlow. specialize (Hlow l Hl).
  apply Qle_not_lt in Hle. contradiction.
Qed.

Lemma detectClusters_below_threshold_witness :
  detectClusters [0; 1; 2] [mkLink 2 0 (9 # 10) "semantic"] (95 # 100) = Some [].
Proof.
  apply (detectClusters_below_threshold [0; 1; 2]
           [mkLink 2 0 (9 # 10) "semantic"] (95 # 100)).
  repeat constructor.
Defined.

End ClusterFurther.

(** ** The noise table and the range of smoothNoise *)

Section NoiseFurther.
Import EmotiveArt.
Local Open Scope R_scope.

Lemma noise_value_range i r : 0 <= r < 1 -> -0.9 <= noise_value i r < 1.
Proof.
  intros Hr. unfold noise_value.
  pose proof (SIN_bound (INR i * 0.1)). pose proof (SIN_bound (INR i * 0.3)).
  pose proof (SIN_bound (INR i * 0.7)). lra.
Qed.

(** X14: when the random numbers lie in [0, 1), the noise table has [size]
    entries, each in [-0.9, 1), and building it takes exactly [size] random
    numbers. *)
Theorem generateNoiseTable_spec (Math_random : nat -> R) (size k : nat) :
  random_unit Math_random ->
  length (fst (generateNoiseTable Math_random size k)) = size
  /\ snd (generateNoiseTable Math_random size k) = (k + size)%nat
  /\ Forall (fun v => -0.9 <= v < 1) (fst (generateNoiseTable Math_random size k)).
Proof.
  intros Hr. unfold generateNoiseTable.
  rewrite noise_loop_draws, noise_loop_table, app_nil_l.
  split; [by rewrite length_fmap, length_seq|]. split; [reflexivity|].
  apply Forall_fmap, Forall_forall. intros j _. cbn.
  apply noise_value_range, Hr.
Qed.

Lemma generateNoiseTable_spec_witness :
  length (fst (generateNoiseTable (fun _ => 0) 3 0)) = 3%nat
  /\ snd (generateNoiseTable (fun _ => 0) 3 0) = (0 + 3)%nat
  /\ Forall (fun v => -0.9 <= v < 1) (fst (generateNoiseTable (fun _ => 0) 3 0)).
Proof. apply (generateNoiseTable_spec (fun _ => 0) 3 0). intros k. lra. Defined.

Lemma new_table_within Math_random k :
  random_unit Math_random ->
  length (noiseTable (fst (new Math_random k))) = 512%nat
  /\ table_within (-0.9) 1 (noiseTable (fst (new Math_random k))).
Proof.
  intros Hr. rewrite new_noiseTable.
  split; [by rewrite length_fmap, length_seq|].
  apply Forall_fmap, Forall_forall. intros j _. cbn.
  pose proof (noise_value_range j (Math_random (k + j)%nat) (Hr _)). lra.
Qed.

Section Range.
Variable this : t.
Variables lo hi : R.
Hypothesis Hnonempty : (0 < length (noiseTable this))%nat.
Hypothesis Hwithin : table_within lo hi (noiseTable this).

Lemma table_index_in_range v :
  (Z.to_nat (Z.abs (table_index this v)) < length (noiseTable this))%nat.
Proof.
  unfold table_index.
  set (len := Z.of_nat (length (noiseTable this))).
  assert (Hlen : (0 < len)%Z) by (unfold len; lia).
  rewrite <- Z.rem_abs by lia.
  pose proof (Z.rem_bound_pos (Z.abs (Zfloor v)) (Z.abs len)
                ltac:(lia) ltac:(lia)) as H.
  unfold len in *. lia.
Qed.

Lemma table_at_within v : lo <= table_at this (table_index this v) <= hi.
Proof.
  unfold table_at. pose proof (table_index_in_range v) as Hlt.
  unfold table_within in Hwithin. rewrite Forall_forall in Hwithin.
  apply Hwithin, list_elem_of_In, nth_In, Hlt.
Qed.

Lemma octave_loop_inv remaining x y seed value amplitude frequency maxValue :
  octave_inv lo hi value amplitude maxValue ->
  let r := octave_loop this remaining x y seed value amplitude frequency maxValue in
  lo * snd r <= fst r <= hi * snd r
  /\ maxValue <= snd r
  /\ ((0 < remaining)%nat -> 0 < snd r).
Proof.
  revert value amplitude frequency maxValue.
  induction remaining as [|rem IH]; intros value amplitude frequency maxValue
    (Ha & Hm & Hv); cbn [octave_loop]; cbv zeta.
  - cbn [fst snd]. split; [exact Hv|]. split; [lra|lia].
  - set (n := (table_at this _ + table_at this _) / 2).
    assert (Hn : lo <= n <= hi).
    { unfold n.
      pose proof (table_at_within ((x * frequency + seed) * 100)).
      pose proof (table_at_within ((y * frequency + seed * 2) * 100)). lra. }
    destruct (IH (value + n * amplitude) (amplitude * 0.5) (frequency * 1.8)
                (maxValue + amplitude)) as (H1 & H2 & _).
    { split; [lra|]. split; [lra|]. nra. }
    split; [exact H1|]. split; lra.
Qed.

Lemma smoothNoise_within x y seed octaves :
  (1 <= octaves)%nat -> lo <= smoothNoise this x y seed octaves <= hi.
Proof.
  intros Hoct. unfold smoothNoise.
  pose proof (octave_loop_inv octaves x y seed 0 1 1 0) as H.
  destruct (octave_loop this octaves x y seed 0 1 1 0) as [value maxValue].
  cbv zeta in H. cbn [fst snd] in H.
  destruct H as (Hv & _ & Hpos); [split; [lra|]; split; lra|].
  specialize (Hpos ltac:(lia)).
  split.
  - apply Rmult_le_reg_r with maxValue; [exact Hpos|].
    unfold Rdiv. rewrite Rmult_assoc, Rinv_l by lra. lra.
  - apply Rmult_le_reg_r with maxValue; [exact Hpos|].
    unfold Rdiv. rewrite Rmult_assoc, Rinv_l by lra. lra.
Qed.

End Range.


(** X15: for an instance built by the constructor from random numbers in
    [0, 1) and for moderate arguments (coordinates and seed of magnitude at
    most a million, 1 to 64 octaves), the noise value lies in [-0.9, 1],
    and every index that the function computes from a coordinate is inside
    the table of 512 entries. *)
Theorem smoothNoise_range (Math_random : nat -> R) (k : nat) (x y seed : R)
    (octaves : nat) :
  random_unit Math_random -> moderate_arguments x y seed octaves ->
  let this := fst (new Math_random k) in
  -0.9 <= smoothNoise this x y seed octaves <= 1
  /\ length (noiseTable this) = 512%nat
  /\ forall v, (Z.to_nat (Z.abs (table_index this v)) < 512)%nat.
Proof.
  intros Hr (_ & _ & _ & Hoct & _). cbv zeta.
  destruct (new_table_within Math_random k Hr) as [Hlen Hin].
  split; [apply smoothNoise_within; [lia|exact Hin|exact Hoct]|].
  split; [exact Hlen|].
  intros v.
  pose proof (table_index_in_range (fst (new Math_random k)) ltac:(lia) v) as H.
  by rewrite Hlen in H.
Qed.

Lemma smoothNoise_range_witness :
  let this := fst (new (fun _ => 0) 0) in
  -0.9 <= smoothNoise this 1 2 3 4 <= 1
  /\ length (noiseTable this) = 512%nat
  /\ forall v, (Z.to_nat (Z.abs (table_index this v)) < 512)%nat.
Proof.
  apply (smoothNoise_range (fun _ => 0) 0 1 2 3 4).
  - intros k. lra.
  - unfold moderate_arguments. rewrite !Rabs_right by lra.
    split; [lra|]. split; [lra|]. split; [lra|]. lia.
Defined.

End NoiseFurther.

(** ** Cluster bounds and fusion shapes *)

Section ShapeProperties.
Import ClusterShapes.
Local Open Scope R_scope.

Lemma fold_left_sum {A : Type} (f : A -> R) (l : list A) (a : R) :
  fold_left (fun sum n => sum + f n) l a = a + fold_right (fun n s => f n + s) 0 l.
Proof.
  revert a. induction l as [|x l IH]; intros a; cbn [fold_left fold_right]; [lra|].
  rewrite IH. lra.
Qed.



Lemma maxDistance_fold cx cy (l : list placed_node) (a : R) :
  let m := fold_left (maxDistance_step cx cy) l a in
  a <= m
  /\ Forall (fun n => node_distance cx cy n <= m) l
  /\ (m = a \/ exists n, n ∈ l /\ node_distance cx cy n = m).
Proof.
  revert a. induction l as [|x l IH]; intros a; cbn [fold_left]; cbv zeta.
  - split; [lra|]. split; [constructor|by left].
  - destruct (IH (maxDistance_step cx cy a x)) as (H1 & H2 & H3).
    assert (Hstep : maxDistance_step cx cy a x = Rmax a (node_distance cx cy x))
      by reflexivity.
    rewrite Hstep in *.
    pose proof (Rmax_l a (node_distance cx cy x)).
    pose proof (Rmax_r a (node_distance cx cy x)).
    split; [lra|]. split; [constructor; [lra|exact H2]|].
    destruct H3 as [H3|(n & Hn & E)].
    + rewrite H3. unfold Rmax. destruct (Rle_dec a (node_distance cx cy x)).
      * right. exists x. split; [left|reflexivity].
      * by left.
    + right. exists n. split; [by right|exact E].
Qed.

Lemma calculateClusterBounds_nonempty (cluster : list placed_node) :
  cluster <> [] ->
  calculateClusterBounds cluster
  = let cx := fold_left (fun sum node => sum + or_zero (node_x node)) cluster 0
              / INR (length cluster) in
    let cy := fold_left (fun sum node => sum + or_zero (node_y node)) cluster 0
              / INR (length cluster) in
    Some (mkBounds cx cy (fold_left (maxDistance_step cx cy) cluster 0 * 1.3) cluster).
Proof. destruct cluster; [contradiction|reflexivity]. Qed.

(** X16: the bounds of a cluster are missing exactly for the empty cluster;
    otherwise the centre is the mean position of the members (a missing
    coordinate counting as 0), the radius is not negative, every member lies
    within the radius divided by 1.3 of the centre, and some member lies
    exactly at that distance. *)
Theorem calculateClusterBounds_spec (cluster : list placed_node) :
  (calculateClusterBounds cluster = None <-> cluster = [])
  /\ forall b, calculateClusterBounds cluster = Some b ->
       nodes b = cluster
       /\ centerX b = mean (fun n => or_zero (node_x n)) cluster
       /\ centerY b = mean (fun n => or_zero (node_y n)) cluster
       /\ 0 <= radius b
       /\ Forall (fun n => node_distance (centerX b) (centerY b) n * 1.3 <= radius b)
            cluster
       /\ exists n, n ∈ cluster
            /\ node_distance (centerX b) (centerY b) n * 1.3 = radius b.
Proof.
  destruct (decide (cluster = [])) as [->|Hne]; [split; [done|discriminate]|].
  rewrite calculateClusterBounds_nonempty by exact Hne. cbv zeta.
  split; [split; [discriminate|contradiction]|].
  intros b Hb. assert (E : b = mkBounds
    (fold_left (fun sum node => sum + or_zero (node_x node)) cluster 0
     / INR (length cluster))
    (fold_left (fun sum node => sum + or_zero (node_y node)) cluster 0
     / INR (length cluster))
    (fold_left (maxDistance_step
       (fold_left (fun sum node => sum + or_zero (node_x node)) cluster 0
        / INR (length cluster))
       (fold_left (fun sum node => sum + or_zero (node_y node)) cluster 0
        / INR (length cluster))) cluster 0 * 1.3) cluster) by congruence.
  clear Hb. subst b. cbn [nodes centerX centerY radius].
  set (cx := fold_left _ cluster 0 / _). set (cy := fold_left _ cluster 0 / _).
  pose proof (maxDistance_fold cx cy cluster 0) as H. cbv zeta in H.
  destruct H as (H0 & Hall & Hmax).
  split; [reflexivity|].
  split; [unfold cx, mean; by rewrite fold_left_sum, Rplus_0_l|].
  split; [unfold cy, mean; by rewrite fold_left_sum, Rplus_0_l|].
  split; [lra|]. split.
  - eapply Forall_impl; [exact Hall|]. intros n Hn. cbn beta in *. lra.
  - destruct Hmax as [E|(n & Hn & E)].
    + destruct cluster as [|x rest]; [contradiction|].
      exists x. split; [left|]. rewrite E.
      apply Forall_cons in Hall. destruct Hall as [Hx _]. rewrite E in Hx.
      assert (0 <= node_distance cx cy x) by apply sqrt_pos. lra.
    + exists n. split; [exact Hn|]. by rewrite E.
Qed.






Lemma radius_insert_Permutation s l : radius_insert s l ≡ₚ s :: l.
Proof.
  induction l as [|d l IH]; cbn [radius_insert]; [reflexivity|].
  destruct (Rle_dec _ _); [reflexivity|].
  rewrite IH. apply Permutation_swap.
Qed.

Lemma sort_by_radius_Permutation l : sort_by_radius l ≡ₚ l.
Proof.
  unfold sort_by_radius. induction l as [|s l IH]; cbn [fold_right]; [reflexivity|].
  rewrite radius_insert_Permutation, IH. reflexivity.
Qed.

Lemma radius_insert_descending s l :
  radius_descending l -> radius_descending (radius_insert s l).
Proof.
  unfold radius_descending. induction 1 as [|d l Hl IH Hd]; cbn [radius_insert].
  - repeat constructor.
  - destruct (Rle_dec _ _) as [Hle|Hnle].
    + constructor; [by constructor|]. constructor; [exact Hle|].
      eapply Forall_impl; [exact Hd|]. intros x Hx. cbn beta in *. lra.
    + constructor; [exact IH|].
      rewrite (radius_insert_Permutation s l). constructor; [lra|exact Hd].
Qed.

Lemma sort_by_radius_descending l : radius_descending (sort_by_radius l).
Proof.
  unfold sort_by_radius. induction l as [|s l IH]; cbn [fold_right].
  - constructor.
  - by apply radius_insert_descending.
Qed.

Lemma generateFusionShape_some this (b : bounds) :
  nodes b <> [] ->
  exists s, generateFusionShape this (Some b) = Some s /\ fusion_bounds s = b.
Proof.
  intros Hne. unfold generateFusionShape.
  destruct (nodes b); [contradiction|]. eexists. split; reflexivity.
Qed.

Lemma calculateClusterBounds_nodes (cluster : list placed_node) (b : bounds) :
  calculateClusterBounds cluster = Some b -> nodes b = cluster.
Proof.
  destruct cluster as [|x rest]; [discriminate|].
  unfold calculateClusterBounds. cbv zeta. intros E.
  apply (f_equal (fun o => match o with Some b => nodes b | None => [] end)) in E.
  cbn [nodes] in E. by rewrite <- E.
Qed.

Lemma cluster_shapes_cons this object_of (c : list nat) (clusters : list (list nat)) :
  (2 <= length c)%nat ->
  exists s,
    cluster_shapes this object_of (c :: clusters)
    = s :: cluster_shapes this object_of clusters
    /\ calculateClusterBounds (map object_of c) = Some (fusion_bounds s).
Proof.
  intros Hc.
  assert (Hne : map object_of c <> []) by (destruct c; [cbn in Hc; lia|discriminate]).
  destruct (calculateClusterBounds (map object_of c)) as [b|] eqn:Hb.
  2:{ rewrite calculateClusterBounds_nonempty in Hb by exact Hne. discriminate. }
  pose proof (calculateClusterBounds_nodes _ _ Hb) as Hnodes.
  destruct (generateFusionShape_some this b) as (s & Hs & Hsb);
    [by rewrite Hnodes|].
  exists s. split; [|by rewrite Hsb].
  unfold cluster_shapes. cbn [omap list_omap]. by rewrite Hb, Hs.
Qed.

Lemma cluster_shapes_spec this object_of (clusters : list (list nat)) :
  Forall (fun c => (2 <= length c)%nat) clusters ->
  length (cluster_shapes this object_of clusters) = length clusters
  /\ Forall2 (fun c s => calculateClusterBounds (map object_of c)
                         = Some (fusion_bounds s))
       clusters (cluster_shapes this object_of clusters).
Proof.
  induction 1 as [|c clusters Hc _ [IH1 IH2]]; [split; [reflexivity|constructor]|].
  destruct (cluster_shapes_cons this object_of c clusters Hc) as (s & -> & Hs).
  cbn [length]. split; [by rewrite IH1|]. by constructor.
Qed.

(** X18: the array returned by renderClusters is empty when the nodes or
    the links are missing or empty; otherwise it holds one fusion shape for
    each detected cluster (detected at 0.9 times the threshold), each with
    the bounds of its cluster, in the order of decreasing radius. *)
Theorem renderClusters_spec (this : t) (object_of : nat -> placed_node)
    (nodes : option (list nat)) (links : option (list VisualizationApp.link))
    (similarityThreshold : Q) :
  exists shapes,
    renderClusters this object_of nodes links similarityThreshold = Some shapes
    /\ radius_descending shapes
    /\ ((nodes = None \/ nodes = Some [] \/ links = None \/ links = Some []) ->
          shapes = [])
    /\ (forall ns ls, nodes = Some ns -> links = Some ls -> ns <> [] -> ls <> [] ->
          exists clusters unsorted,
            ClusterFusion.detectClusters ns ls (similarityThreshold * 0.9)%Q
            = Some clusters
            /\ shapes ≡ₚ unsorted
            /\ length shapes = length clusters
            /\ Forall2 (fun c s => calculateClusterBounds (map object_of c)
                                   = Some (fusion_bounds s))
                 clusters unsorted).
Proof.
  destruct nodes as [[|node ns]|], links as [[|link ls]|];
    try (exists []; split; [reflexivity|]; split; [constructor|];
         split; [reflexivity|]; intros ? ? [= <-] [= <-] ? ?; contradiction
         || (intros; discriminate)).
  unfold renderClusters.
  destruct (detectClusters_inv (node :: ns) (link :: ls) (similarityThreshold * 0.9)%Q)
    as (clusters & visited & Hrun & _ & Hsize & _).
  rewrite Hrun.
  destruct (cluster_shapes_spec this object_of clusters Hsize) as [Hlen Hall].
  assert (Hshapes : (match clusters with
                     | [] => Some []
                     | _ :: _ => Some (sort_by_radius (cluster_shapes this object_of clusters))
                     end)
                    = Some (sort_by_radius (cluster_shapes this object_of clusters)))
    by (by destruct clusters).
  rewrite Hshapes.
  exists (sort_by_radius (cluster_shapes this object_of clusters)).
  split; [reflexivity|]. split; [apply sort_by_radius_descending|].
  split; [intros [H|[H|[H|H]]]; discriminate|].
  intros ns' ls' [= <-] [= <-] _ _.
  exists clusters, (cluster_shapes this object_of clusters).
  split; [exact Hrun|]. split; [apply sort_by_radius_Permutation|].
  split; [|exact Hall].
  by rewrite (Permutation_length (sort_by_radius_Permutation _)).
Qed.

End ShapeProperties.

(** ** The extractor: dominant categories, normalised scalars, letter case *)

Section ExtractorFurther.
Import JS SubjectivityExtractor.
Local Open Scope Q_scope.

Lemma Qnat_le (a b : nat) : (a <= b)%nat -> Qnat a <= Qnat b.
Proof. intros H. unfold Qnat. rewrite <- Zle_Qle. lia. Qed.

Lemma Qnat_pos (a : nat) : (0 < a)%nat -> 0 < Qnat a.
Proof.
  intros H. unfold Qnat. change 0 with (inject_Z 0). rewrite <- Zlt_Qlt. lia.
Qed.

Lemma Qnat_add (a b : nat) : Qnat (a + b) == Qnat a + Qnat b.
Proof. unfold Qnat. by rewrite Nat2Z.inj_add, inject_Z_plus. Qed.

Lemma Qnat_inj (a b : nat) : Qnat a == Qnat b -> a = b.
Proof. unfold Qnat. rewrite inject_Z_injective. lia. Qed.

Lemma share_le (a b t : nat) :
  (0 < t)%nat -> (a <= b)%nat -> Qnat a / Qnat t <= Qnat b / Qnat t.
Proof.
  intros Ht Hab. apply Qmult_le_compat_r; [by apply Qnat_le|].
  apply Qlt_le_weak, Qinv_lt_0_compat, Qnat_pos, Ht.
Qed.

Lemma share_inj (a b t : nat) :
  (0 < t)%nat -> Qnat a / Qnat t == Qnat b / Qnat t -> a = b.
Proof.
  intros Ht E. apply Qnat_inj.
  assert (Hne : ~ Qnat t == 0) by (pose proof (Qnat_pos t Ht); lra).
  rewrite <- (Qdiv_mult_l (Qnat a) (Qnat t) Hne), <- (Qdiv_mult_l (Qnat b) (Qnat t) Hne).
  unfold Qdiv in *. rewrite <- !Qmult_assoc, (Qmult_comm (Qnat t)), !Qmult_assoc.
  by rewrite E.
Qed.

Lemma share_max (a b t : nat) :
  (0 < t)%nat ->
  Qmax (Qnat a / Qnat t) (Qnat b / Qnat t) == Qnat (Nat.max a b) / Qnat t.
Proof.
  intros Ht. destruct (Nat.le_ge_cases a b) as [H|H].
  - rewrite Nat.max_r by exact H. apply Q.max_r. by apply share_le.
  - rewrite Nat.max_l by exact H. apply Q.max_l. by apply share_le.
Qed.

Lemma fold_left_share_max (rest : list (string * nat)) (t a : nat) (q : Q) :
  (0 < t)%nat -> q == Qnat a / Qnat t ->
  fold_left Qmax (map snd (shares rest t)) q
  == Qnat (fold_left Nat.max (map snd rest) a) / Qnat t.
Proof.
  intros Ht. revert a q. induction rest as [|[k b] rest IH]; intros a q Hq;
    cbn [shares map fold_left snd fst]; [exact Hq|].
  apply IH. rewrite Hq. by apply share_max.
Qed.

Lemma max_score_shares (counts : list (string * nat)) (t : nat) :
  (0 < t)%nat -> counts <> [] ->
  max_score (shares counts t) == Qnat (max_count counts) / Qnat t.
Proof.
  intros Ht Hne. destruct counts as [|[k a] rest]; [contradiction|].
  unfold max_score, max_count, Math_max. cbn [shares map snd fst fold_left].
  rewrite Nat.max_0_l. by apply fold_left_share_max.
Qed.

Lemma find_key_shares (counts : list (string * nat)) (t : nat) (m : Q) :
  (0 < t)%nat -> m == Qnat (max_count counts) / Qnat t ->
  find_key (shares counts t) m = dominant counts.
Proof.
  intros Ht Hm. unfold find_key, dominant.
  generalize (max_count counts) Hm. intros M HM. clear Hm.
  induction counts as [|[k a] rest IH]; [reflexivity|].
  cbn [shares map find fst snd].
  assert (E : Qeq_bool (Qnat a / Qnat t) m = (a =? M)%nat).
  { destruct (Nat.eqb_spec a M) as [->|Hne].
    - apply Qeq_bool_iff. by rewrite HM.
    - apply not_true_iff_false. intros H. apply Qeq_bool_iff in H.
      rewrite HM in H. by apply share_inj in H. }
  rewrite E. destruct (a =? M)%nat; [reflexivity|exact IH].
Qed.

Lemma max_count_ge (counts : list (string * nat)) kc :
  kc ∈ counts -> (snd kc <= max_count counts)%nat.
Proof.
  unfold max_count. generalize 0%nat.
  induction counts as [|x rest IH]; intros a H; [inversion H|].
  cbn [map fold_left]. apply elem_of_cons in H. destruct H as [->|H].
  - clear IH. generalize (Nat.max a (snd x)) (Nat.le_max_r a (snd x)).
    induction rest as [|y rest IH]; intros b Hb; cbn [map fold_left]; [exact Hb|].
    apply IH. lia.
  - by apply IH.
Qed.

Lemma max_count_attained (counts : list (string * nat)) :
  counts <> [] -> exists kc, kc ∈ counts /\ snd kc = max_count counts.
Proof.
  intros Hne. destruct counts as [|x rest]; [contradiction|]. clear Hne.
  unfold max_count. cbn [map fold_left]. rewrite Nat.max_0_l.
  assert (G : forall (l : list (string * nat)) a,
            fold_left Nat.max (map snd l) a = a
            \/ exists kc, kc ∈ l /\ snd kc = fold_left Nat.max (map snd l) a).
  { induction l as [|y l IH]; intros a; cbn [map fold_left]; [by left|].
    destruct (IH (Nat.max a (snd y))) as [E|(kc & Hkc & E)].
    - rewrite E. destruct (Nat.max_spec a (snd y)) as [[_ ->]|[_ ->]].
      + right. exists y. split; [left|reflexivity].
      + by left.
    - right. exists kc. split; [by right|exact E]. }
  destruct (G rest (snd x)) as [E|(kc & Hkc & E)].
  - exists x. split; [left|by rewrite E].
  - exists kc. split; [by right|exact E].
Qed.

Lemma dominant_is_Some (counts : list (string * nat)) :
  counts <> [] -> is_Some (dominant counts).
Proof.
  intros Hne. unfold dominant.
  destruct (find _ counts) as [kc|] eqn:E; [by eexists|exfalso].
  destruct (max_count_attained counts Hne) as (kc & Hkc & Hmax).
  apply list_elem_of_In in Hkc.
  pose proof (find_none _ _ E kc Hkc) as H. cbn beta in H.
  apply Nat.eqb_neq in H. contradiction.
Qed.

(** The score of the dominant category lies between [1 / n] and 1 when the
    [n] counts add up to a positive [total]. *)
Lemma max_share_bounds (counts : list (string * nat)) (t : nat) :
  (0 < t)%nat -> counts <> [] ->
  t = fold_right (fun kc s => (snd kc + s)%nat) 0%nat counts ->
  Qnat 1 / Qnat (length counts) <= Qnat (max_count counts) / Qnat t
  /\ Qnat (max_count counts) / Qnat t <= 1.
Proof.
  intros Ht Hne Hsum.
  assert (Hle : (t <= length counts * max_count counts)%nat).
  { subst t. clear Ht Hne.
    assert (G : forall l : list (string * nat),
              (forall kc, kc ∈ l -> (snd kc <= max_count counts)%nat) ->
              (fold_right (fun kc s => (snd kc + s)%nat) 0%nat l
               <= length l * max_count counts)%nat).
    { induction l as [|x l IH]; intros H; cbn [fold_right length]; [lia|].
      specialize (IH (fun kc Hkc => H kc (list_elem_of_further _ _ _ Hkc))).
      pose proof (H x ltac:(left)). lia. }
    apply G. intros kc. apply max_count_ge. }
  assert (Hge : (max_count counts <= t)%nat).
  { destruct (max_count_attained counts Hne) as (kc & Hkc & <-). subst t. clear - Hkc.
    induction counts as [|x l IH]; [inversion Hkc|]. cbn [fold_right].
    apply elem_of_cons in Hkc. destruct Hkc as [->|Hkc]; [lia|].
    specialize (IH Hkc). lia. }
  assert (Hlen : (0 < length counts)%nat) by (destruct counts; [contradiction|cbn; lia]).
  pose proof (Qnat_pos t Ht) as Htq. pose proof (Qnat_pos _ Hlen) as Hlq.
  split.
  - apply Qle_shift_div_l; [exact Htq|].
    unfold Qdiv. rewrite <- Qmult_assoc, (Qmult_comm (/ _)).
    rewrite Qmult_assoc. apply Qle_shift_div_r; [exact Hlq|].
    unfold Qnat in *. rewrite <- !inject_Z_mult, <- Zle_Qle. lia.
  - apply Qle_shift_div_r; [exact Htq|]. rewrite Qmult_1_l. by apply Qnat_le.
Qed.

(** X19: when the text contains a narrative indicator, the narrative type is
    defined: it is the category with the most indicator hits, the first of
    direct, reflective, metaphorical, conversational among equals; the
    distribution gives each category its share of the hits, and the score
    is the largest share, between 1/4 and 1. *)
Theorem analyzeNarrativeStyle_dominant (text : text) :
  narrative_total (toLowerCase text) <> 0%nat ->
  let '(directCount, reflectiveCount, metaphoricalCount, conversationalCount) :=
    narrative_counts (toLowerCase text) in
  let counts := [("direct", directCount); ("reflective", reflectiveCount);
                 ("metaphorical", metaphoricalCount);
                 ("conversational", conversationalCount)]%string in
  let result := analyzeNarrativeStyle text in
  narrative_type result = dominant counts
  /\ is_Some (narrative_type result)
  /\ narrative_distribution result
     = Some (shares counts (narrative_total (toLowerCase text)))
  /\ narrative_score result
     == Qnat (max_count counts) / Qnat (narrative_total (toLowerCase text))
  /\ 1 / 4 <= narrative_score result /\ narrative_score result <= 1.
Proof.
  intros Htotal. unfold analyzeNarrativeStyle.
  destruct text as [|c text']; [exfalso; apply Htotal; reflexivity|].
  cbn [is_empty]. set (lowerText := toLowerCase (c :: text')) in *.
  cbv zeta.
  pose proof (eq_refl (narrative_total lowerText)) as Hsum.
  unfold narrative_total at 2 in Hsum.
  destruct (narrative_counts lowerText) as [[[d r] m] cv].
  destruct (Nat.eqb_spec (narrative_total lowerText) 0) as [E|_]; [contradiction|].
  cbn [narrative_type narrative_score narrative_distribution].
  set (counts := [("direct", d); ("reflective", r); ("metaphorical", m);
                  ("conversational", cv)]%string).
  change [("direct"%string, Qnat d / Qnat (narrative_total lowerText));
          ("reflective"%string, Qnat r / Qnat (narrative_total lowerText));
          ("metaphorical"%string, Qnat m / Qnat (narrative_total lowerText));
          ("conversational"%string, Qnat cv / Qnat (narrative_total lowerText))]
    with (shares counts (narrative_total lowerText)).
  assert (Ht : (0 < narrative_total lowerText)%nat) by lia.
  assert (Hne : counts <> []) by discriminate.
  pose proof (max_score_shares counts _ Ht Hne) as Hmax.
  pose proof (max_share_bounds counts _ Ht Hne) as Hb.
  destruct Hb as [Hb1 Hb2]; [rewrite Hsum; unfold counts; cbn; lia|].
  split; [by apply find_key_shares|].
  split; [rewrite (find_key_shares counts _ _ Ht Hmax); by apply dominant_is_Some|].
  split; [reflexivity|]. split; [exact Hmax|].
  rewrite Hmax. split; [exact Hb1|exact Hb2].
Qed.

Lemma analyzeNarrativeStyle_dominant_witness :
  let '(directCount, reflectiveCount, metaphoricalCount, conversationalCount) :=
    narrative_counts (toLowerCase (lit "I think I was. I feel.")) in
  let counts := [("direct", directCount); ("reflective", reflectiveCount);
                 ("metaphorical", metaphoricalCount);
                 ("conversational", conversationalCount)]%string in
  let result := analyzeNarrativeStyle (lit "I think I was. I feel.") in
  narrative_type result = dominant counts
  /\ is_Some (narrative_type result)
  /\ narrative_distribution result
     = Some (shares counts (narrative_total (toLowerCase (lit "I think I was. I feel."))))
  /\ narrative_score result
     == Qnat (max_count counts)
        / Qnat (narrative_total (toLowerCase (lit "I think I was. I feel.")))
  /\ 1 / 4 <= narrative_score result /\ narrative_score result <= 1.
Proof.
  apply (analyzeNarrativeStyle_dominant (lit "I think I was. I feel.")).
  vm_compute. lia.
Defined.

Lemma dominant3 (k1 k2 k3 : string) (a b c : nat) :
  dominant [(k1, a); (k2, b); (k3, c)]
  = Some (if (b <=? a)%nat && (c <=? a)%nat then k1
          else if (c <=? b)%nat then k2 else k3).
Proof.
  unfold dominant, max_count. cbn [map fold_left find snd fst].
  rewrite Nat.max_0_l.
  destruct (Nat.leb_spec b a), (Nat.leb_spec c a), (Nat.leb_spec c b);
    cbn [andb];
    repeat match goal with
           | |- context [(?x =? ?y)%nat] => destruct (Nat.eqb_spec x y)
           end; try lia; reflexivity.
Qed.

(** X20: when the text contains a temporal indicator, the orientation is
    never mixed: it is past_focused when the past count is at least the two
    others, else present_focused when the present count is at least the
    future count, else future_focused; the score is the largest share,
    between 1/3 and 1. *)
Theorem analyzeTemporalOrientation_dominant (text : text) :
  temporal_total (toLowerCase text) <> 0%nat ->
  let '(pastCount, presentCount, futureCount) :=
    temporal_counts (toLowerCase text) in
  let counts := [("past", pastCount); ("present", presentCount);
                 ("future", futureCount)]%string in
  let result := analyzeTemporalOrientation text in
  temporal_orientation_name result
  = (if (presentCount <=? pastCount)%nat && (futureCount <=? pastCount)%nat
     then "past_focused"
     else if (futureCount <=? presentCount)%nat then "present_focused"
     else "future_focused")%string
  /\ temporal_orientation_name result <> "mixed"%string
  /\ temporal_distribution result
     = Some (shares counts (temporal_total (toLowerCase text)))
  /\ temporal_score result
     == Qnat (max_count counts) / Qnat (temporal_total (toLowerCase text))
  /\ 1 / 3 <= temporal_score result /\ temporal_score result <= 1.
Proof.
  intros Htotal. unfold analyzeTemporalOrientation.
  destruct text as [|c text']; [exfalso; apply Htotal; reflexivity|].
  cbn [is_empty]. set (lowerText := toLowerCase (c :: text')) in *.
  cbv zeta.
  pose proof (eq_refl (temporal_total lowerText)) as Hsum.
  unfold temporal_total at 2 in Hsum.
  destruct (temporal_counts lowerText) as [[p pr] f].
  destruct (Nat.eqb_spec (temporal_total lowerText) 0) as [E|_]; [contradiction|].
  cbn [temporal_orientation_name temporal_score temporal_distribution].
  set (counts := [("past", p); ("present", pr); ("future", f)]%string).
  change [("past"%string, Qnat p / Qnat (temporal_total lowerText));
          ("present"%string, Qnat pr / Qnat (temporal_total lowerText));
          ("future"%string, Qnat f / Qnat (temporal_total lowerText))]
    with (shares counts (temporal_total lowerText)).
  assert (Ht : (0 < temporal_total lowerText)%nat) by lia.
  assert (Hne : counts <> []) by discriminate.
  pose proof (max_score_shares counts _ Ht Hne) as Hmax.
  pose proof (max_share_bounds counts _ Ht Hne) as Hb.
  destruct Hb as [Hb1 Hb2]; [rewrite Hsum; unfold counts; cbn; lia|].
  rewrite (find_key_shares counts _ _ Ht Hmax).
  assert (Hd : dominant counts
               = Some (if (pr <=? p)%nat && (f <=? p)%nat then "past"
                       else if (f <=? pr)%nat then "present" else "future")%string)
    by apply dominant3.
  rewrite Hd.
  split; [|split; [|split; [reflexivity|split; [exact Hmax|]]]].
  - destruct ((pr <=? p)%nat && (f <=? p)%nat); [reflexivity|].
    destruct (f <=? pr)%nat; reflexivity.
  - destruct ((pr <=? p)%nat && (f <=? p)%nat); [discriminate|].
    destruct (f <=? pr)%nat; discriminate.
  - rewrite Hmax. split; [exact Hb1|exact Hb2].
Qed.

Lemma analyzeTemporalOrientation_dominant_witness :
  let '(pastCount, presentCount, futureCount) :=
    temporal_counts (toLowerCase (lit "I was here and now I am.")) in
  let counts := [("past", pastCount); ("present", presentCount);
                 ("future", futureCount)]%string in
  let result := analyzeTemporalOrientation (lit "I was here and now I am.") in
  temporal_orientation_name result
  = (if (presentCount <=? pastCount)%nat && (futureCount <=? pastCount)%nat
     then "past_focused"
     else if (futureCount <=? presentCount)%nat then "present_focused"
     else "future_focused")%string
  /\ temporal_orientation_name result <> "mixed"%string
  /\ temporal_distribution result
     = Some (shares counts
               (temporal_total (toLowerCase (lit "I was here and now I am."))))
  /\ temporal_score result
     == Qnat (max_count counts)
        / Qnat (temporal_total (toLowerCase (lit "I was here and now I am.")))
  /\ 1 / 3 <= temporal_score result /\ temporal_score result <= 1.
Proof.
  apply (analyzeTemporalOrientation_dominant (lit "I was here and now I am.")).
  vm_compute. lia.
Defined.

(** X21: when the text contains an authenticity indicator, the style is
    formal when the formal count is at least the two others, else casual
    when the casual count is at least the intimate count, else intimate;
    the score is the largest share, between 1/3 and 1. *)
Theorem analyzeAuthenticity_dominant (text : text) :
  authenticity_total (toLowerCase text) <> 0%nat ->
  let '(formalCount, casualCount, intimateCount) :=
    authenticity_counts (toLowerCase text) in
  let counts := [("formal", formalCount); ("casual", casualCount);
                 ("intimate", intimateCount)]%string in
  let result := analyzeAuthenticity text in
  authenticity_style result
  = Some (if (casualCount <=? formalCount)%nat && (intimateCount <=? formalCount)%nat
          then "formal"
          else if (intimateCount <=? casualCount)%nat then "casual"
          else "intimate")%string
  /\ authenticity_distribution result
     = Some (shares counts (authenticity_total (toLowerCase text)))
  /\ authenticity_score result
     == Qnat (max_count counts) / Qnat (authenticity_total (toLowerCase text))
  /\ 1 / 3 <= authenticity_score result /\ authenticity_score result <= 1.
Proof.
  intros Htotal. unfold analyzeAuthenticity.
  destruct text as [|c text']; [exfalso; apply Htotal; reflexivity|].
  cbn [is_empty]. set (lowerText := toLowerCase (c :: text')) in *.
  cbv zeta.
  pose proof (eq_refl (authenticity_total lowerText)) as Hsum.
  unfold authenticity_total at 2 in Hsum.
  destruct (authenticity_counts lowerText) as [[fo ca] it].
  destruct (Nat.eqb_spec (authenticity_total lowerText) 0) as [E|_]; [contradiction|].
  cbn [authenticity_style authenticity_score authenticity_distribution].
  set (counts := [("formal", fo); ("casual", ca); ("intimate", it)]%string).
  change [("formal"%string, Qnat fo / Qnat (authenticity_total lowerText));
          ("casual"%string, Qnat ca / Qnat (authenticity_total lowerText));
          ("intimate"%string, Qnat it / Qnat (authenticity_total lowerText))]
    with (shares counts (authenticity_total lowerText)).
  assert (Ht : (0 < authenticity_total lowerText)%nat) by lia.
  assert (Hne : counts <> []) by discriminate.
  pose proof (max_score_shares counts _ Ht Hne) as Hmax.
  pose proof (max_share_bounds counts _ Ht Hne) as Hb.
  destruct Hb as [Hb1 Hb2]; [rewrite Hsum; unfold counts; cbn; lia|].
  rewrite (find_key_shares counts _ _ Ht Hmax).
  split; [apply dominant3|]. split; [reflexivity|]. split; [exact Hmax|].
  rewrite Hmax. split; [exact Hb1|exact Hb2].
Qed.

Lemma analyzeAuthenticity_dominant_witness :
  let '(formalCount, casualCount, intimateCount) :=
    authenticity_counts (toLowerCase (lit "Yeah, I feel it. However, yeah.")) in
  let counts := [("formal", formalCount); ("casual", casualCount);
                 ("intimate", intimateCount)]%string in
  let result := analyzeAuthenticity (lit "Yeah, I feel it. However, yeah.") in
  authenticity_style result
  = Some (if (casualCount <=? formalCount)%nat && (intimateCount <=? formalCount)%nat
          then "formal"
          else if (intimateCount <=? casualCount)%nat then "casual"
          else "intimate")%string
  /\ authenticity_distribution result
     = Some (shares counts
               (authenticity_total (toLowerCase (lit "Yeah, I feel it. However, yeah."))))
  /\ authenticity_score result
     == Qnat (max_count counts)
        / Qnat (authenticity_total (toLowerCase (lit "Yeah, I feel it. However, yeah.")))
  /\ 1 / 3 <= authenticity_score result /\ authenticity_score result <= 1.
Proof.
  apply (analyzeAuthenticity_dominant (lit "Yeah, I feel it. However, yeah.")).
  vm_compute. lia.
Defined.

(** *** Normalised scalars *)

Lemma Qdiv_nonneg (a b : Q) : 0 <= a -> 0 <= b -> 0 <= a / b.
Proof.
  intros Ha Hb. unfold Qdiv. apply Qmult_le_0_compat; [exact Ha|].
  by apply Qinv_le_0_compat.
Qed.

Lemma Qmin1_unit (x : Q) : 0 <= x -> unit_interval (Qmin 1 x).
Proof. intros Hx. split; [apply Q.min_glb; [lra|exact Hx]|apply Q.le_min_l]. Qed.

Lemma Qsquare_nonneg (x : Q) : 0 <= x * x.
Proof.
  destruct (Qlt_le_dec x 0).
  - setoid_replace (x * x) with ((- x) * (- x)) using relation Qeq by ring.
    apply Qmult_le_0_compat; lra.
  - apply Qmult_le_0_compat; lra.
Qed.

Lemma squares_nonneg (avg : Q) (l : list Q) (a : Q) :
  0 <= a -> 0 <= fold_left (fun sum len => sum + (len - avg) * (len - avg)) l a.
Proof.
  revert a. induction l as [|x l IH]; intros a Ha; cbn [fold_left]; [exact Ha|].
  apply IH. pose proof (Qsquare_nonneg (x - avg)). lra.
Qed.

Lemma variance_of_lengths_nonneg (l : list Q) (avg : Q) :
  0 <= variance_of_lengths l avg.
Proof.
  unfold variance_of_lengths.
  apply Qdiv_nonneg; [apply squares_nonneg; lra|apply Qnat_nonneg].
Qed.

Lemma sum_nonneg (l : list Q) : Forall (fun x => 0 <= x) l -> 0 <= sum l.
Proof.
  unfold sum. intros H.
  assert (G : forall a, 0 <= a -> 0 <= fold_left Qplus l a).
  { induction H as [|x l Hx _ IH]; intros a Ha; cbn [fold_left]; [exact Ha|].
    apply IH. lra. }
  apply G. lra.
Qed.

Lemma lengths_nonneg (sentences : list text) :
  Forall (fun x => 0 <= x) (map (fun s => Qnat (length s)) sentences).
Proof. apply Forall_forall. intros x Hx. apply list_elem_of_In, in_map_iff in Hx.
  destruct Hx as (s & <- & _). apply Qnat_nonneg. Qed.

Lemma analyzeRhythm_unit (text : text) : unit_interval (analyzeRhythm text).
Proof.
  unfold analyzeRhythm. destruct (is_empty text); [split; lra|].
  cbv zeta. destruct (_ <? 2)%nat; [split; lra|].
  apply Qmin1_unit, Qdiv_nonneg; [apply variance_of_lengths_nonneg|].
  apply Qsquare_nonneg.
Qed.

Lemma analyzeReflectionDepth_unit (text : text) :
  unit_interval (analyzeReflectionDepth text).
Proof.
  unfold analyzeReflectionDepth. destruct (is_empty text); [split; lra|].
  cbv zeta. apply Qmin1_unit, Qdiv_nonneg.
  - pose proof (Qnat_nonneg (count_indicators count_literal
      ["reflect"; "think about"; "realize"; "understand"; "learn";
       "realized"; "understood"; "learned"; "came to understand";
       "looking back"; "in retrospect"; "now i see"; "i see now"]%string
      (toLowerCase text))).
    pose proof (Qnat_nonneg (count_char 63 text)).
    pose proof (Qnat_nonneg (count_words_alt ["if"; "whether"; "what if"; "suppose"]%string
      (toLowerCase text))).
    lra.
  - apply Qdiv_nonneg; [apply Qnat_nonneg|lra].
Qed.

Lemma analyzeSelfReference_unit (text : text) :
  unit_interval (self_reference_score (analyzeSelfReference text)).
Proof.
  unfold analyzeSelfReference. destruct (is_empty text); [split; cbn; lra|].
  cbv zeta. cbn [self_reference_score].
  apply Qmin1_unit, Qdiv_nonneg; [apply Qnat_nonneg|].
  apply Qdiv_nonneg; [apply Qnat_nonneg|lra].
Qed.

Lemma analyzeExpressionMode_unit (text : text) :
  unit_interval (expression_mode_score (analyzeExpressionMode text)).
Proof.
  unfold analyzeExpressionMode. destruct (is_empty text); [split; cbn; lra|].
  cbv zeta.
  pose proof (eq_refl (expression_total (toLowerCase text))) as Hsum.
  unfold expression_total at 2 in Hsum.
  destruct (expression_counts (toLowerCase text)) as [d i].
  destruct (Nat.eqb_spec (expression_total (toLowerCase text)) 0) as [E|Hne];
    [split; cbn; lra|].
  cbn [expression_mode_score].
  assert (Ht : (0 < expression_total (toLowerCase text))%nat) by lia.
  split; [apply Qdiv_nonneg; apply Qnat_nonneg|].
  apply Qle_shift_div_r; [by apply Qnat_pos|]. rewrite Qmult_1_l.
  apply Qnat_le. lia.
Qed.

Lemma max_score_shares_unit (counts : list (string * nat)) (t : nat) :
  (0 < t)%nat -> counts <> [] ->
  t = fold_right (fun kc s => (snd kc + s)%nat) 0%nat counts ->
  unit_interval (max_score (shares counts t)).
Proof.
  intros Ht Hne Hsum. unfold unit_interval.
  rewrite (max_score_shares counts t Ht Hne).
  destruct (max_share_bounds counts t Ht Hne Hsum) as [H1 H2].
  split; [|exact H2]. apply Qdiv_nonneg; apply Qnat_nonneg.
Qed.

Lemma analyzeNarrativeStyle_unit (text : text) :
  unit_interval (narrative_score (analyzeNarrativeStyle text)).
Proof.
  unfold analyzeNarrativeStyle. destruct (is_empty text); [split; cbn; lra|].
  cbv zeta.
  pose proof (eq_refl (narrative_total (toLowerCase text))) as Hsum.
  unfold narrative_total at 2 in Hsum.
  destruct (narrative_counts (toLowerCase text)) as [[[d r] m] cv].
  destruct (Nat.eqb_spec (narrative_total (toLowerCase text)) 0) as [E|Hne];
    [split; cbn; lra|].
  cbn [narrative_score].
  apply (max_score_shares_unit
           [("direct", d); ("reflective", r); ("metaphorical", m);
            ("conversational", cv)]%string); [lia|discriminate|].
  rewrite Hsum. cbn. lia.
Qed.

Lemma analyzeTemporalOrientation_unit (text : text) :
  unit_interval (temporal_score (analyzeTemporalOrientation text)).
Proof.
  unfold analyzeTemporalOrientation. destruct (is_empty text); [split; cbn; lra|].
  cbv zeta.
  pose proof (eq_refl (temporal_total (toLowerCase text))) as Hsum.
  unfold temporal_total at 2 in Hsum.
  destruct (temporal_counts (toLowerCase text)) as [[p pr] f].
  destruct (Nat.eqb_spec (temporal_total (toLowerCase text)) 0) as [E|Hne];
    [split; cbn; lra|].
  cbn [temporal_score].
  apply (max_score_shares_unit
           [("past", p); ("present", pr); ("future", f)]%string);
    [lia|discriminate|].
  rewrite Hsum. cbn. lia.
Qed.

Lemma analyzeAuthenticity_unit (text : text) :
  unit_interval (authenticity_score (analyzeAuthenticity text)).
Proof.
  unfold analyzeAuthenticity. destruct (is_empty text); [split; cbn; lra|].
  cbv zeta.
  pose proof (eq_refl (authenticity_total (toLowerCase text))) as Hsum.
  unfold authenticity_total at 2 in Hsum.
  destruct (authenticity_counts (toLowerCase text)) as [[fo ca] it].
  destruct (Nat.eqb_spec (authenticity_total (toLowerCase text)) 0) as [E|Hne];
    [split; cbn; lra|].
  cbn [authenticity_score].
  apply (max_score_shares_unit
           [("formal", fo); ("casual", ca); ("intimate", it)]%string);
    [lia|discriminate|].
  rewrite Hsum. cbn. lia.
Qed.

Lemma length_remove_dups_le (l : list text) : (length (remove_dups l) <= length l)%nat.
Proof.
  induction l as [|x l IH]; cbn [remove_dups length]; [lia|].
  destruct (decide_rel elem_of x l); cbn [length]; lia.
Qed.

Lemma lexical_diversity_unit (text : text) : unit_interval (lexical_diversity text).
Proof.
  unfold lexical_diversity. cbv zeta.
  set (words := match_words (toLowerCase text)).
  pose proof (length_remove_dups_le words) as Hle.
  split; [apply Qdiv_nonneg; apply Qnat_nonneg|].
  apply Qle_shift_div_r; [apply Qnat_pos; lia|]. rewrite Qmult_1_l.
  apply Qnat_le. unfold Set_size. lia.
Qed.

Lemma abs_sum_bounds (l : list Q) (a : Q) :
  Forall (fun v => Qabs v <= 1) l ->
  a <= fold_left (fun sum val => sum + Qabs val) l a
  /\ fold_left (fun sum val => sum + Qabs val) l a <= a + Qnat (length l).
Proof.
  intros H. revert a. induction H as [|x l Hx _ IH]; intros a; cbn [fold_left length].
  - change (Qnat 0) with 0. split; lra.
  - destruct (IH (a + Qabs x)) as [H1 H2].
    pose proof (Qabs_nonneg x).
    replace (S (length l)) with (length l + 1)%nat by lia.
    rewrite Qnat_add. change (Qnat 1) with 1. split; lra.
Qed.

Lemma analyzeComplexity_unit (text : text) (semantic : list Q) :
  Forall (fun v => Qabs v <= 1) semantic ->
  unit_interval (complexity_score (analyzeComplexity text semantic)).
Proof.
  intros Hsem. unfold analyzeComplexity.
  destruct (is_empty text); [split; cbn; lra|].
  cbv zeta. cbn [complexity_score].
  set (sentences := sentences_of text).
  set (lengths := map (fun s => Qnat (length s)) sentences).
  set (avg := if (0 <? length sentences)%nat then _ else _).
  set (var := if (1 <? length sentences)%nat then _ else _).
  set (sem := if (0 <? length semantic)%nat then _ else _).
  assert (Havg : 0 <= avg).
  { unfold avg. destruct (0 <? length sentences)%nat; [|lra].
    apply Qdiv_nonneg; [apply sum_nonneg, lengths_nonneg|apply Qnat_nonneg]. }
  assert (Hvar : 0 <= var).
  { unfold var. destruct (1 <? length sentences)%nat; [|lra].
    apply variance_of_lengths_nonneg. }
  assert (Hs : 0 <= sem /\ sem <= 1).
  { unfold sem. destruct (0 <? length semantic)%nat; [|lra].
    assert (Htake : Forall (fun v => Qabs v <= 1) (take 20 semantic))
      by (by apply Forall_take).
    destruct (abs_sum_bounds (take 20 semantic) 0 Htake) as [H1 H2].
    assert (Hlen : Qnat (length (take 20 semantic)) <= 20).
    { change 20 with (Qnat 20). apply Qnat_le. rewrite length_take. lia. }
    split; [apply Qdiv_nonneg; lra|].
    apply Qle_shift_div_r; lra. }
  destruct (Qmin1_unit (avg / 100)) as [A1 A2]; [apply Qdiv_nonneg; lra|].
  destruct (Qmin1_unit (var / 1000)) as [V1 V2]; [apply Qdiv_nonneg; lra|].
  destruct (lexical_diversity_unit text) as [D1 D2].
  unfold unit_interval. split; lra.
Qed.

(** X22: for a node whose emotion scores are not negative and whose
    semantic entries lie in [-1, 1], every scalar of the profile lies in
    [0, 1]: the scores of narrative style, temporal orientation,
    self-reference, complexity, authenticity and expression mode, the
    emotional intensity, the rhythm, the reflection depth and the
    uniqueness. *)
Theorem extractSubjectivity_normalised (Math_sqrt : Q -> Q) (nd : node) :
  Forall (fun e => 0 <= e) (node_emotion nd) ->
  Forall (fun v => Qabs v <= 1) (node_semantic nd) ->
  let p := extractSubjectivity Math_sqrt nd in
  unit_interval (narrative_score (subj_narrative_style p))
  /\ unit_interval (emotional_intensity (subj_emotional_expression p))
  /\ unit_interval (temporal_score (subj_temporal_orientation p))
  /\ unit_interval (self_reference_score (subj_self_reference p))
  /\ unit_interval (complexity_score (subj_complexity p))
  /\ unit_interval (authenticity_score (subj_authenticity p))
  /\ unit_interval (subj_rhythm p)
  /\ unit_interval (subj_reflection_depth p)
  /\ unit_interval (expression_mode_score (subj_expression_mode p))
  /\ unit_interval (subj_uniqueness p).
Proof.
  intros Hemo Hsem. cbv zeta. unfold extractSubjectivity.
  cbn [subj_narrative_style subj_emotional_expression subj_temporal_orientation
       subj_self_reference subj_complexity subj_authenticity subj_rhythm
       subj_reflection_depth subj_expression_mode subj_uniqueness].
  split; [apply analyzeNarrativeStyle_unit|].
  split; [by apply analyzeEmotionalExpression_normalised|].
  split; [apply analyzeTemporalOrientation_unit|].
  split; [apply analyzeSelfReference_unit|].
  split; [by apply analyzeComplexity_unit|].
  split; [apply analyzeAuthenticity_unit|].
  split; [apply analyzeRhythm_unit|].
  split; [apply analyzeReflectionDepth_unit|].
  split; [apply analyzeExpressionMode_unit|].
  unfold calculateUniqueness. cbv zeta.
  split; [apply Q.min_glb; [lra|apply Q.le_max_l]|apply Q.le_min_l].
Qed.

Lemma extractSubjectivity_normalised_witness :
  let p := extractSubjectivity (fun v => v)
             (mkNode (Some (lit "I think so. Maybe not!"))
                (Some (mkIsotypeSignature (Some [1 # 2; - (1 # 4)]) (Some [1 # 3])
                         None)) None None) in
  unit_interval (narrative_score (subj_narrative_style p))
  /\ unit_interval (emotional_intensity (subj_emotional_expression p))
  /\ unit_interval (temporal_score (subj_temporal_orientation p))
  /\ unit_interval (self_reference_score (subj_self_reference p))
  /\ unit_interval (complexity_score (subj_complexity p))
  /\ unit_interval (authenticity_score (subj_authenticity p))
  /\ unit_interval (subj_rhythm p)
  /\ unit_interval (subj_reflection_depth p)
  /\ unit_interval (expression_mode_score (subj_expression_mode p))
  /\ unit_interval (subj_uniqueness p).
Proof.
  apply (extractSubjectivity_normalised (fun v => v)
           (mkNode (Some (lit "I think so. Maybe not!"))
              (Some (mkIsotypeSignature (Some [1 # 2; - (1 # 4)]) (Some [1 # 3])
                       None)) None None)).
  - repeat constructor. unfold Qle; simpl; lia.
  - repeat constructor; unfold Qle; simpl; lia.
Defined.

(** *** Letter case *)

Lemma lower_unit_fixed (d : N) :
  (d < 65 \/ 90 < d)%N -> d <> 304%N -> d <> 8490%N -> lower_unit d = [d].
Proof.
  intros Hd H304 H8490. unfold lower_unit.
  destruct (N.leb_spec 65 d), (N.leb_spec d 90); cbn [andb]; try lia;
    destruct (N.eqb_spec d 304); try contradiction;
    destruct (N.eqb_spec d 8490); try contradiction; reflexivity.
Qed.

Lemma lower_unit_same_letter (a b : N) :
  same_letter a b -> lower_unit a = lower_unit b.
Proof.
  intros [->|[[Ha ->]|[Hb ->]]]; [reflexivity| |].
  - rewrite (lower_unit_fixed (a + 32)) by lia.
    unfold lower_unit.
    destruct (N.leb_spec 65 a), (N.leb_spec a 90); cbn [andb]; try lia. reflexivity.
  - rewrite (lower_unit_fixed (b + 32)) by lia.
    unfold lower_unit.
    destruct (N.leb_spec 65 b), (N.leb_spec b 90); cbn [andb]; try lia. reflexivity.
Qed.

Lemma toLowerCase_same_up_to_case (t1 t2 : text) :
  same_up_to_case t1 t2 -> toLowerCase t1 = toLowerCase t2.
Proof.
  unfold toLowerCase. induction 1 as [|a b t1 t2 Hab _ IH]; [reflexivity|].
  cbn [flat_map]. by rewrite IH, (lower_unit_same_letter a b Hab).
Qed.

(** X23: the four analyzers that only look for indicators in the lowered
    text ignore the case of ASCII letters: two texts that differ at most in
    the case of ASCII letters have the same narrative style, temporal
    orientation, authenticity and expression mode. *)
Theorem lexical_analyzers_ignore_case (t1 t2 : text) :
  same_up_to_case t1 t2 ->
  analyzeNarrativeStyle t1 = analyzeNarrativeStyle t2
  /\ analyzeTemporalOrientation t1 = analyzeTemporalOrientation t2
  /\ analyzeAuthenticity t1 = analyzeAuthenticity t2
  /\ analyzeExpressionMode t1 = analyzeExpressionMode t2.
Proof.
  intros Hcase. pose proof (toLowerCase_same_up_to_case t1 t2 Hcase) as E.
  assert (Hemp : is_empty t1 = is_empty t2) by (destruct Hcase; reflexivity).
  unfold analyzeNarrativeStyle, analyzeTemporalOrientation, analyzeAuthenticity,
    analyzeExpressionMode.
  rewrite Hemp, E. done.
Qed.

Lemma lexical_analyzers_ignore_case_witness :
  analyzeNarrativeStyle (lit "I Was") = analyzeNarrativeStyle (lit "i waS")
  /\ analyzeTemporalOrientation (lit "I Was") = analyzeTemporalOrientation (lit "i waS")
  /\ analyzeAuthenticity (lit "I Was") = analyzeAuthenticity (lit "i waS")
  /\ analyzeExpressionMode (lit "I Was") = analyzeExpressionMode (lit "i waS").
Proof.
  apply (lexical_analyzers_ignore_case (lit "I Was") (lit "i waS")).
  unfold same_up_to_case, same_letter. cbn.
  repeat constructor; lia.
Defined.

End ExtractorFurther.

(** ** The glyph: parameter ranges and the outline *)

Section GlyphFurther.
Import JS SubjectivityExtractor IsotypeRenderer.




Section Ranges.
Variable Math_sqrt : Q -> Q.
Variable this : t.
Variable nd : node.
Hypothesis Hnode : node_in_range nd.

Lemma extractSubjectivity_intensity :
  intensity_normalised (extractSubjectivity Math_sqrt nd).
Proof.
  destruct Hnode as (Hemo & _ & _).
  unfold intensity_normalised, extractSubjectivity. cbn [subj_emotional_expression].
  by apply analyzeEmotionalExpression_normalised.
Qed.

Lemma calculateShapeDeformation_in_range :
  let d := calculateShapeDeformation (extractSubjectivity Math_sqrt nd) in
  ((0.5 <= regularity d)%Q /\ (regularity d <= 0.9)%Q)
  /\ ((0.05 <= deformation d)%Q /\ (deformation d <= 0.25)%Q)
  /\ ((0 <= asymmetry d)%Q /\ (asymmetry d <= 0.15)%Q).
Proof.
  destruct extractSubjectivity_intensity as [I1 I2].
  cbv zeta. unfold calculateShapeDeformation. cbv zeta.
  cbn [regularity deformation asymmetry].
  split; [repeat case_bool_decide; split; lra|].
  split; [repeat case_bool_decide; split; lra|].
  split; lra.
Qed.


End Ranges.

(** X24: for a node whose stored numbers are in range, the parameters of its
    glyph are too: regularity in [0.5, 0.9], deformation in [0.05, 0.25],
    asymmetry in [0, 0.15], density in [0.2, 0.6], edge sharpness in
    [0.3, 0.8], edge regularity in [0.5, 0.9], edge thickness in [0.5, 0.8]
    and opacity in [0.7, 0.95]. *)
Theorem generateIsotypeSignature_ranges (Math_sqrt : Q -> Q) (this : t) (nd : node) :
  node_in_range nd ->
  signature_in_range (generateIsotypeSignature Math_sqrt this nd).
Proof.
  intros Hnode.
  destruct (calculateShapeDeformation_in_range Math_sqrt nd Hnode) as (HR & HD & HS).
  pose proof (extractSubjectivity_intensity Math_sqrt nd Hnode) as Hint.
  unfold signature_in_range, generateIsotypeSignature. cbv zeta.
  cbn [sig_shapeDeformation sig_internalPattern sig_edgeCharacteristics
       sig_colorAdjustment].
  set (s := extractSubjectivity Math_sqrt nd) in *.
  pose proof (analyzeAuthenticity_unit (node_text nd)) as [A1 A2].
  split; [exact HR|]. split; [exact HD|]. split; [exact HS|].
  unfold calculateInternalPattern, calculateEdgeCharacteristics. cbv zeta.
  cbn [density sharpness edge_regularity thickness].
  split; [repeat case_bool_decide; split; lra|].
  split; [repeat case_bool_decide; split; lra|].
  split; [repeat case_bool_decide; split; lra|].
  split.
  { unfold s, extractSubjectivity. cbn [subj_authenticity]. split; lra. }
  destruct (calculateColorAdjustment_opacity s Hint) as [_ [O1 O2]].
  by split.
Qed.

Lemma generateIsotypeSignature_ranges_witness :
  signature_in_range
    (generateIsotypeSignature (fun v => v) (mkIsotypeRenderer (EmotiveArt.mkEmotiveArt []))
       (mkNode None None (Some 2500%Q) None)).
Proof.
  apply (generateIsotypeSignature_ranges (fun v => v)
           (mkIsotypeRenderer (EmotiveArt.mkEmotiveArt []))
           (mkNode None None (Some 2500%Q) None)).
  split; [constructor|]. split.
  - intros u. discriminate.
  - intros len [= <-]. unfold Qle; simpl; lia.
Defined.



End GlyphFurther.

(** ** DataLoader: emotion vectors, dominant emotion and colours *)

Section LoaderProperties.
Import JS DataLoader.
Local Open Scope Q_scope.

Lemma extractEmotionVector_length scores : length (extractEmotionVector scores) = 7%nat.
Proof.
  unfold extractEmotionVector. cbv zeta.
  destruct (scores !! "neutral"%string) as [v|]; [|reflexivity].
  destruct (_ && _); reflexivity.
Qed.

(** X26: the emotion vector always has 7 entries; they are not negative when
    no score is; when neutral is the only score, and not zero, the entries
    add up to it and the last one is 0.3 times it; with more than one score
    the entries are the scores of the seven emotions, 0 where missing. *)
Theorem extractEmotionVector_spec (scores : gmap string Q) :
  length (extractEmotionVector scores) = 7%nat
  /\ (map_Forall (fun _ v => 0 <= v) scores ->
        Forall (fun e => 0 <= e) (extractEmotionVector scores))
  /\ (forall v, scores !! "neutral"%string = Some v -> ~ v == 0 ->
        size scores = 1%nat ->
        sum (extractEmotionVector scores) == v
        /\ nth 6 (extractEmotionVector scores) 0 == v * 0.3)
  /\ ((1 < size scores)%nat ->
        extractEmotionVector scores = map (score_of scores) emotions).
Proof.
  split; [apply extractEmotionVector_length|]. split; [|split].
  - intros Hpos.
    assert (Hs : forall e, 0 <= score_of scores e).
    { intros e. unfold score_of. destruct (scores !! e) as [v|] eqn:E; [|lra].
      exact (Hpos e v E). }
    unfold extractEmotionVector. cbv zeta.
    destruct (scores !! "neutral"%string) as [v|] eqn:E.
    + pose proof (Hpos _ v E) as Hv. cbn beta in Hv.
      destruct (_ && _).
      * repeat constructor; lra.
      * apply Forall_forall. intros x Hx.
        apply list_elem_of_In, in_map_iff in Hx. destruct Hx as (e & <- & _). apply Hs.
    + apply Forall_forall. intros x Hx.
      apply list_elem_of_In, in_map_iff in Hx. destruct Hx as (e & <- & _). apply Hs.
  - intros v E Hv Hsize. unfold extractEmotionVector. cbv zeta. rewrite E, Hsize.
    assert (Hb : Qeq_bool v 0 = false).
    { apply not_true_iff_false. intros H. by apply Qeq_bool_iff in H. }
    rewrite Hb. cbn [negb andb Nat.eqb]. unfold sum. cbn [fold_left nth].
    split; [ring|reflexivity].
  - intros Hsize. unfold extractEmotionVector. cbv zeta.
    destruct (scores !! "neutral"%string) as [v|]; [|reflexivity].
    destruct (Nat.eqb_spec (size scores) 1) as [E|_]; [lia|].
    by rewrite andb_false_r.
Qed.

Lemma dominant_loop_spec (rest : list Q) (done : list Q) (maxIndex : nat) (maxValue : Q) :
  first_maximum done maxIndex -> done !! maxIndex = Some maxValue ->
  let r := dominant_loop rest (length done) maxIndex maxValue in
  first_maximum (done ++ rest) (fst r) /\ (fst r < length (done ++ rest))%nat.
Proof.
  revert done maxIndex maxValue.
  induction rest as [|v rest IH]; intros done maxIndex maxValue Hmax Hlook;
    cbn [dominant_loop]; cbv zeta.
  - rewrite app_nil_r. split; [exact Hmax|]. by eapply lookup_lt_Some.
  - destruct Hmax as (m & Hm & Hall & Hbefore).
    assert (m = maxValue) by congruence. subst m.
    replace (done ++ v :: rest) with ((done ++ [v]) ++ rest)
      by (by rewrite <- app_assoc).
    destruct (Qle_bool v maxValue) eqn:Hle.
    + apply Qle_bool_iff in Hle.
      replace (S (length done)) with (length (done ++ [v]))
        by (rewrite length_app; cbn; lia).
      apply IH.
      * exists maxValue. split; [apply lookup_app_l_Some, Hm|]. split.
        -- intros j w Hj. apply lookup_app_Some in Hj.
           destruct Hj as [Hj|[_ Hj]]; [by eapply Hall|].
           destruct (j - length done)%nat; [|destruct n; discriminate].
           inversion Hj; by subst.
        -- intros j w Hlt Hj. apply lookup_app_Some in Hj.
           destruct Hj as [Hj|[Hge _]]; [by eapply Hbefore|].
           apply lookup_lt_Some in Hm. lia.
      * by apply lookup_app_l_Some.
    + assert (Hlt : maxValue < v).
      { apply Qnot_le_lt. intros H. apply Qle_bool_iff in H. congruence. }
      replace (S (length done)) with (length (done ++ [v]))
        by (rewrite length_app; cbn; lia).
      assert (Hv : (done ++ [v]) !! length done = Some v).
      { rewrite lookup_app_r by lia. by rewrite Nat.sub_diag. }
      apply IH; [|exact Hv].
      exists v. split; [exact Hv|]. split.
      * intros j w Hj. apply lookup_app_Some in Hj.
        destruct Hj as [Hj|[_ Hj]].
        -- apply Qlt_le_weak. eapply Qle_lt_trans; [by eapply Hall|exact Hlt].
        -- destruct (j - length done)%nat; [|destruct n; discriminate].
           inversion Hj; subst. apply Qle_refl.
      * intros j w Hj Hw. rewrite lookup_app_l in Hw by exact Hj.
        eapply Qle_lt_trans; [by eapply Hall|exact Hlt].
Qed.

(** X27: for a non-empty vector of at most 7 entries, the dominant emotion
    is the emotion at the first index where the vector takes its largest
    value. *)
Theorem getDominantEmotion_spec (emotionVec : list Q) :
  emotionVec <> [] -> (length emotionVec <= 7)%nat ->
  exists i,
    first_maximum emotionVec i
    /\ emotions !! i = Some (getDominantEmotion (Some emotionVec)).
Proof.
  intros Hne Hlen. destruct emotionVec as [|v0 rest]; [contradiction|].
  unfold getDominantEmotion.
  pose proof (dominant_loop_spec rest [v0] 0 v0) as H. cbv zeta in H.
  destruct H as [Hmax Hlt].
  { exists v0. split; [reflexivity|]. split.
    - intros [|j] v Hv; [|discriminate]. inversion Hv. apply Qle_refl.
    - intros j v Hj. lia. }
  { reflexivity. }
  cbn [length app] in *.
  destruct (dominant_loop rest 1 0 v0) as [maxIndex maxValue]. cbn [fst] in *.
  exists maxIndex. split; [exact Hmax|].
  assert (Hidx : (maxIndex < length emotions)%nat) by (cbn; lia).
  destruct (lookup_lt_is_Some_2 emotions maxIndex Hidx) as [name Hname].
  rewrite Hname. f_equal. by rewrite nth_lookup, Hname.
Qed.

Lemma getDominantEmotion_spec_witness :
  exists i,
    first_maximum [1 # 10; 3 # 10; 3 # 10] i
    /\ emotions !! i = Some (getDominantEmotion (Some [1 # 10; 3 # 10; 3 # 10])).
Proof.
  apply (getDominantEmotion_spec [1 # 10; 3 # 10; 3 # 10]); [discriminate|simpl; lia].
Defined.

Lemma Qle_bool_false (a b : Q) : b < a -> Qle_bool a b = false.
Proof.
  intros H. apply not_true_iff_false. intros E. apply Qle_bool_iff in E. lra.
Qed.

Lemma Qle_bool_true (a b : Q) : a <= b -> Qle_bool a b = true.
Proof. apply Qle_bool_iff. Qed.

Lemma extractEmotionVector_neutral_only (v : Q) :
  ~ v == 0 ->
  extractEmotionVector (neutral_only v)
  = [v * 0.1; v * 0.2; v * 0.1; v * 0.1; v * 0.1; v * 0.1; v * 0.3].
Proof.
  intros Hv. unfold extractEmotionVector, neutral_only. cbv zeta.
  rewrite lookup_singleton_eq, map_size_singleton.
  assert (Hb : Qeq_bool v 0 = false).
  { apply not_true_iff_false. intros H. by apply Qeq_bool_iff in H. }
  by rewrite Hb.
Qed.

Lemma getDominantEmotion_neutral_only (v : Q) :
  0 < v -> getDominantEmotion (Some (extractEmotionVector (neutral_only v))) = "neutral"%string.
Proof.
  intros Hv. rewrite extractEmotionVector_neutral_only by lra.
  unfold getDominantEmotion. cbn [dominant_loop].
  rewrite (Qle_bool_false (v * 0.2) (v * 0.1)) by lra.
  rewrite !(Qle_bool_true (v * 0.1) (v * 0.2)) by lra.
  rewrite (Qle_bool_false (v * 0.3) (v * 0.2)) by lra.
  reflexivity.
Qed.

(** X28: for an item whose only score is a neutral score of at least
    0.000001, the dominant emotion is neutral, so the colour is the one
    derived from the semantic embedding; emotion is no dominant dimension
    when the score is at most 1, and is one when the score is at least
    1.001. *)
Theorem generateColor_neutral_only (getEmotionColor : string -> list Q -> string)
    (it : item) (v : Q) :
  0.000001 <= v -> emotion_scores it = neutral_only v ->
  getDominantEmotion (Some (extractEmotionVector (emotion_scores it))) = "neutral"%string
  /\ generateColor getEmotionColor it = generateColorFromSemantic it
  /\ (v <= 1 -> getDominantDimensions it = ["semantic"]%string)
  /\ (1.001 <= v -> getDominantDimensions it = ["emotion"; "semantic"]%string).
Proof.
  intros Hv E. assert (Hpos : 0 < v) by lra.
  pose proof (getDominantEmotion_neutral_only v Hpos) as Hdom.
  rewrite E. split; [exact Hdom|]. split.
  - unfold generateColor. cbv zeta. rewrite E, Hdom. reflexivity.
  - unfold getDominantDimensions. cbv zeta. rewrite E.
    rewrite extractEmotionVector_neutral_only by lra.
    assert (Hmax : Math_max [v * 0.1; v * 0.2; v * 0.1; v * 0.1; v * 0.1; v * 0.1;
                             v * 0.3] == v * 0.3).
    { unfold Math_max. cbn [fold_left].
      rewrite (Q.max_r (v * 0.1) (v * 0.2)) by lra.
      rewrite !(Q.max_l (v * 0.2) (v * 0.1)) by lra.
      apply Q.max_r. lra. }
    split; intros Hc.
    + rewrite Qle_bool_true; [reflexivity|]. rewrite Hmax. lra.
    + rewrite Qle_bool_false; [reflexivity|]. rewrite Hmax. lra.
Qed.

Lemma generateColor_neutral_only_witness :
  getDominantEmotion
    (Some (extractEmotionVector (emotion_scores (mkItem None (neutral_only 1) None))))
  = "neutral"%string
  /\ generateColor (fun _ _ => "#000000"%string) (mkItem None (neutral_only 1) None)
     = generateColorFromSemantic (mkItem None (neutral_only 1) None)
  /\ (1 <= 1 -> getDominantDimensions (mkItem None (neutral_only 1) None)
                = ["semantic"]%string)
  /\ (1.001 <= 1 -> getDominantDimensions (mkItem None (neutral_only 1) None)
                    = ["emotion"; "semantic"]%string).
Proof.
  apply (generateColor_neutral_only (fun _ _ => "#000000"%string)
           (mkItem None (neutral_only 1) None) 1); [|reflexivity].
  unfold Qle; simpl; lia.
Defined.

Lemma Number_rem_nonneg (x m : Q) : 0 <= x -> 0 < m -> 0 <= Number_rem x m.
Proof.
  intros Hx Hm. unfold Number_rem. cbv zeta.
  set (q := x / m).
  assert (Hq : 0 <= q).
  { unfold q, Qdiv. apply Qmult_le_0_compat; [exact Hx|].
    apply Qinv_le_0_compat. lra. }
  assert (Hxq : x == m * q).
  { unfold q. field. lra. }
  clearbody q.
  assert (Htrunc : inject_Z (Z.quot (Qnum q) (Z.pos (Qden q))) <= q).
  { destruct q as [n d]. cbn [Qnum Qden].
    rewrite Z.quot_div_nonneg; [|unfold Qle in Hq; cbn in Hq; lia|lia].
    apply (Qfloor_le (n # d)). }
  assert (m * inject_Z (Z.quot (Qnum q) (Z.pos (Qden q))) <= m * q).
  { rewrite !(Qmult_comm m). apply Qmult_le_compat_r; [exact Htrunc|lra]. }
  lra.
Qed.

Lemma Qfloor_nonneg (x : Q) : 0 <= x -> (0 <= Qfloor x)%Z.
Proof. intros H. change 0%Z with (Qfloor 0). by apply Qfloor_resp_le. Qed.

Lemma abs_sum_nonneg (l : list Q) (a : Q) :
  0 <= a -> 0 <= fold_left (fun a b => a + Qabs b) l a.
Proof.
  revert a. induction l as [|x l IH]; intros a Ha; cbn [fold_left]; [exact Ha|].
  apply IH. pose proof (Qabs_nonneg x). lra.
Qed.

Lemma abs_squares_nonneg (mean : Q) (l : list Q) (a : Q) :
  0 <= a ->
  0 <= fold_left (fun s v => s + (Qabs v - mean) * (Qabs v - mean)) l a.
Proof.
  revert a. induction l as [|x l IH]; intros a Ha; cbn [fold_left]; [exact Ha|].
  apply IH. pose proof (Qsquare_nonneg (Qabs x - mean)). lra.
Qed.

Lemma finite_Some (q : Q) : 0 <= q -> q < overflow_threshold -> finite q = Some q.
Proof.
  intros H0 Hlt. unfold finite. rewrite Qabs_pos by exact H0.
  by rewrite Qle_bool_false.
Qed.

Lemma abs_sum_le (l : list Q) (a : Q) : a <= fold_left (fun a b => a + Qabs b) l a.
Proof.
  revert a. induction l as [|x l IH]; intros a; cbn [fold_left]; [apply Qle_refl|].
  eapply Qle_trans; [|apply IH]. pose proof (Qabs_nonneg x). lra.
Qed.

Lemma abs_squares_le (mean : Q) (l : list Q) (a : Q) :
  a <= fold_left (fun s v => s + (Qabs v - mean) * (Qabs v - mean)) l a.
Proof.
  revert a. induction l as [|x l IH]; intros a; cbn [fold_left]; [apply Qle_refl|].
  eapply Qle_trans; [|apply IH]. pose proof (Qsquare_nonneg (Qabs x - mean)). lra.
Qed.

(** While the sums stay in the finite range, the sums computed with
    overflow are the exact sums. *)
Lemma abs_sum_finite (l : list Q) (a : Q) :
  0 <= a -> fold_left (fun a b => a + Qabs b) l a < overflow_threshold ->
  fold_left (fun a b => a ← a; finite (a + Qabs b)) l (Some a)
  = Some (fold_left (fun a b => a + Qabs b) l a).
Proof.
  revert a. induction l as [|x l IH]; intros a Ha Hlt; cbn [fold_left]; [reflexivity|].
  cbn [fold_left] in Hlt. pose proof (Qabs_nonneg x) as Hx.
  pose proof (abs_sum_le l (a + Qabs x)) as Hle.
  cbn [mbind option_bind]. rewrite finite_Some by lra. apply IH; lra.
Qed.

Lemma abs_squares_finite (mean : Q) (l : list Q) (a : Q) :
  0 <= a ->
  fold_left (fun s v => s + (Qabs v - mean) * (Qabs v - mean)) l a < overflow_threshold ->
  fold_left (fun s v =>
               s ← s;
               square ← finite ((Qabs v - mean) * (Qabs v - mean));
               finite (s + square)) l (Some a)
  = Some (fold_left (fun s v => s + (Qabs v - mean) * (Qabs v - mean)) l a).
Proof.
  revert a. induction l as [|x l IH]; intros a Ha Hlt; cbn [fold_left]; [reflexivity|].
  cbn [fold_left] in Hlt. pose proof (Qsquare_nonneg (Qabs x - mean)) as Hx.
  pose proof (abs_squares_le mean l (a + (Qabs x - mean) * (Qabs x - mean))) as Hle.
  cbn [mbind option_bind]. rewrite finite_Some by lra. cbn [mbind option_bind].
  rewrite finite_Some by lra. apply IH; lra.
Qed.

Lemma inject_nat_S (n : nat) :
  inject_Z (Z.of_nat (S n)) == inject_Z (Z.of_nat n) + 1.
Proof. rewrite Nat2Z.inj_succ, <- Z.add_1_r, inject_Z_plus. reflexivity. Qed.

Lemma inject_nat_nonneg (n : nat) : 0 <= inject_Z (Z.of_nat n).
Proof. change 0 with (inject_Z 0). rewrite <- Zle_Qle. lia. Qed.

Lemma abs_sum_bound (B : Q) (l : list Q) (a : Q) :
  Forall (fun v => Qabs v <= B) l ->
  fold_left (fun a b => a + Qabs b) l a <= a + inject_Z (Z.of_nat (length l)) * B.
Proof.
  intros Hall. revert a. induction Hall as [|x l Hx _ IH]; intros a; cbn [fold_left length].
  - change (inject_Z (Z.of_nat 0)) with 0. lra.
  - eapply Qle_trans; [apply IH|]. rewrite inject_nat_S. lra.
Qed.

Lemma square_bound (B a b : Q) :
  0 <= a <= B -> 0 <= b <= B -> (a - b) * (a - b) <= B * B.
Proof.
  intros Ha Hb.
  assert (H : 0 <= (B - (a - b)) * (B + (a - b)))
    by (apply Qmult_le_0_compat; lra).
  lra.
Qed.

Lemma abs_squares_bound (B mean : Q) (l : list Q) (a : Q) :
  0 <= mean <= B -> Forall (fun v => Qabs v <= B) l ->
  fold_left (fun s v => s + (Qabs v - mean) * (Qabs v - mean)) l a
  <= a + inject_Z (Z.of_nat (length l)) * (B * B).
Proof.
  intros Hm Hall. revert a.
  induction Hall as [|x l Hx _ IH]; intros a; cbn [fold_left length].
  - change (inject_Z (Z.of_nat 0)) with 0. lra.
  - eapply Qle_trans; [apply IH|]. rewrite inject_nat_S.
    pose proof (square_bound B (Qabs x) mean ltac:(pose proof (Qabs_nonneg x); lra) Hm).
    lra.
Qed.

Lemma mean_bound (B s n : Q) : 0 < n -> s <= 0 + n * B -> s / n <= B.
Proof. intros Hn Hs. apply Qle_shift_div_r; [exact Hn|lra]. Qed.

Lemma moderate_threshold :
  inject_Z (10 ^ 100) * 1000 < overflow_threshold
  /\ inject_Z (10 ^ 100) * inject_Z (10 ^ 100) * 10000 < overflow_threshold.
Proof. split; vm_compute; reflexivity. Qed.

Lemma generateColorFromSemantic_cases (it : item) :
  (forall semantic, semantic_embedding it = Some semantic -> Forall moderate semantic) ->
  exists color,
    generateColorFromSemantic it = Some color
    /\ (((semantic_embedding it = None \/ semantic_embedding it = Some [])
         /\ color = "#9C27B0"%string)
        \/ ((exists s0 rest, semantic_embedding it = Some (s0 :: rest))
            /\ color ∈ colorPalette)).
Proof.
  intros Hmod. unfold generateColorFromSemantic.
  destruct (semantic_embedding it) as [[|s0 semantic]|].
  - exists "#9C27B0"%string. split; [reflexivity|]. left. auto.
  - specialize (Hmod _ eq_refl). cbv zeta.
    set (B := inject_Z (10 ^ 100)).
    destruct moderate_threshold as [T1 T2]. fold B in T1, T2.
    pose proof finite_Some as Hfin. pose proof abs_sum_finite as Hsumfin.
    pose proof abs_squares_finite as Hsqfin.
    set (T := overflow_threshold) in T1, T2, Hfin, Hsumfin, Hsqfin. clearbody T.
    assert (HB : 0 <= B) by (unfold B; vm_compute; discriminate).
    assert (HBB : 0 <= B * B) by (apply Qmult_le_0_compat; exact HB).
    set (features := firstn 10 (s0 :: semantic)).
    assert (Hfeat : Forall (fun v => Qabs v <= B) features).
    { unfold features. apply Forall_take. exact Hmod. }
    assert (Hlen : (1 <= length features <= 10)%nat).
    { unfold features. rewrite length_take. cbn [length]. lia. }
    set (n := inject_Z (Z.of_nat (length features))).
    assert (Hn : 1 <= n <= 10).
    { unfold n. change 1 with (inject_Z 1). change 10 with (inject_Z 10).
      rewrite <- !Zle_Qle. lia. }
    clearbody B.
    pose proof (abs_sum_bound B features 0 Hfeat) as Hsum. fold n in Hsum.
    pose proof (abs_sum_nonneg features 0 ltac:(lra)) as Hsum0.
    assert (HnB : n * B <= 10 * B) by (apply Qmult_le_compat_r; lra).
    rewrite Hsumfin by lra. cbn [mbind option_bind].
    set (sum := fold_left (fun a b => a + Qabs b) features 0) in *.
    assert (Hmean : 0 <= sum / n <= B).
    { split; [apply Qdiv_nonneg; lra|apply mean_bound; lra]. }
    rewrite Hfin by lra. cbn [mbind option_bind].
    set (mean := sum / n) in *.
    pose proof (abs_squares_bound B mean features 0 Hmean Hfeat) as Hsq.
    fold n in Hsq.
    pose proof (abs_squares_nonneg mean features 0 ltac:(lra)) as Hsq0.
    assert (HnBB : n * (B * B) <= 10 * (B * B)) by (apply Qmult_le_compat_r; lra).
    rewrite Hsqfin by lra. cbn [mbind option_bind].
    set (squares := fold_left (fun s v => s + (Qabs v - mean) * (Qabs v - mean))
                      features 0) in *.
    assert (Hvar : 0 <= squares / n <= B * B).
    { split; [apply Qdiv_nonneg; lra|apply mean_bound; lra]. }
    rewrite Hfin by lra. cbn [mbind option_bind].
    set (variance := squares / n) in *.
    rewrite Hfin by lra. cbn [mbind option_bind].
    rewrite Hfin by lra. cbn [mbind option_bind].
    set (len := inject_Z (Z.of_nat (length colorPalette))).
    assert (Hpal : 0 < len) by reflexivity.
    pose proof (Qfloor_nonneg _ (Number_rem_nonneg (mean * 1000) len
                  ltac:(lra) Hpal)) as H1.
    pose proof (Qfloor_nonneg _ (Number_rem_nonneg (variance * 10000) len
                  ltac:(lra) Hpal)) as H2.
    set (index1 := Qfloor (Number_rem (mean * 1000) len)) in *.
    set (index2 := Qfloor (Number_rem (variance * 10000) len)) in *.
    pose proof (Z.rem_bound_pos (index1 + index2) (Z.of_nat (length colorPalette))
                  ltac:(lia) ltac:(cbn; lia)) as Hrem.
    set (finalIndex := Z.rem _ _) in *.
    destruct (Z.ltb_spec finalIndex 0) as [Hneg|_]; [lia|].
    assert (Hidx : (Z.to_nat finalIndex < length colorPalette)%nat) by lia.
    destruct (lookup_lt_is_Some_2 colorPalette _ Hidx) as [color Hcolor].
    exists color. split; [exact Hcolor|]. right.
    split; [by exists s0, semantic|]. eapply list_elem_of_lookup_2, Hcolor.
  - exists "#9C27B0"%string. split; [reflexivity|]. left. auto.
Qed.

(** An entry of 10^306 makes [mean * 1000] an infinity, and the colour is
    [undefined]. *)
Example generateColorFromSemantic_overflow :
  generateColorFromSemantic (mkItem (Some [inject_Z (10 ^ 306)]) ∅ None) = None.
Proof. vm_compute. reflexivity. Qed.

(** X29: when the entries of the semantic embedding have a magnitude of at
    most 10^100, the colour derived from it is defined: it is the default
    colour when the embedding is missing or empty, and only then, and a
    colour of the palette otherwise (no intermediate number overflows, and
    the index computed from the mean and the variance is inside the
    palette). *)
Theorem generateColorFromSemantic_defined (it : item) :
  (forall semantic, semantic_embedding it = Some semantic -> Forall moderate semantic) ->
  exists color,
    generateColorFromSemantic it = Some color
    /\ (color ∈ colorPalette \/ color = "#9C27B0"%string)
    /\ (color = "#9C27B0"%string <->
        semantic_embedding it = None \/ semantic_embedding it = Some []).
Proof.
  intros Hmod.
  destruct (generateColorFromSemantic_cases it Hmod)
    as (color & Hcolor & [[Hemb ->]|[(s0 & rest & Hemb) Hin]]).
  - exists "#9C27B0"%string. split; [exact Hcolor|]. split; [by right|]. by split.
  - exists color. split; [exact Hcolor|]. split; [by left|]. split.
    + intros ->. exfalso. revert Hin. clear. unfold colorPalette.
      rewrite !elem_of_cons. intros H.
      repeat (destruct H as [H|H]; [discriminate|]). inversion H.
    + rewrite Hemb. intros [H|H]; discriminate.
Qed.

Lemma generateColorFromSemantic_defined_witness :
  exists color,
    generateColorFromSemantic (mkItem (Some [1 # 2; - (1 # 4)]) ∅ None) = Some color
    /\ (color ∈ colorPalette \/ color = "#9C27B0"%string)
    /\ (color = "#9C27B0"%string <->
        semantic_embedding (mkItem (Some [1 # 2; - (1 # 4)]) ∅ None) = None
        \/ semantic_embedding (mkItem (Some [1 # 2; - (1 # 4)]) ∅ None) = Some []).
Proof.
  apply (generateColorFromSemantic_defined (mkItem (Some [1 # 2; - (1 # 4)]) ∅ None)).
  intros semantic [= <-]. repeat constructor; vm_compute; discriminate.
Defined.

(** X30: when the text length is not negative and the entries of the
    semantic embedding have a magnitude of at most 10^100, the size of a
    node lies in [8, 20], its opacity is 0.8 and its colour is defined. *)
Theorem generateVisualProperties_spec
    (getEmotionColor : string -> list Q -> string) (it : item) :
  (forall len, metadata_text_length it = Some len -> 0 <= len) ->
  (forall semantic, semantic_embedding it = Some semantic -> Forall moderate semantic) ->
  let v := generateVisualProperties getEmotionColor it in
  8 <= visual_size v /\ visual_size v <= 20
  /\ visual_opacity v == 0.8
  /\ is_Some (visual_color v).
Proof.
  intros Hlen Hmod. cbv zeta. unfold generateVisualProperties. cbv zeta.
  cbn [visual_size visual_opacity visual_color].
  assert (L : 0 <= or_number (metadata_text_length it) 1000).
  { unfold or_number. destruct (metadata_text_length it) as [v|]; [|lra].
    destruct (Qeq_bool v 0); [lra|]. by apply Hlen. }
  destruct (Qmin1_unit (or_number (metadata_text_length it) 1000 / 5000))
    as [N1 N2]; [apply Qdiv_nonneg; lra|].
  split; [lra|]. split; [lra|]. split; [reflexivity|].
  unfold generateColor. cbv zeta. destruct (_ || _); [|by eexists].
  destruct (generateColorFromSemantic_cases it Hmod) as (c & Hc & _). rewrite Hc.
  by eexists.
Qed.

Lemma generateVisualProperties_spec_witness :
  let v := generateVisualProperties (fun _ _ => "#000000"%string)
             (mkItem (Some [1 # 2]) (neutral_only 1) (Some 2500)) in
  8 <= visual_size v /\ visual_size v <= 20
  /\ visual_opacity v == 0.8
  /\ is_Some (visual_color v).
Proof.
  apply (generateVisualProperties_spec (fun _ _ => "#000000"%string)
           (mkItem (Some [1 # 2]) (neutral_only 1) (Some 2500))).
  - intros len [= <-]. unfold Qle; simpl; lia.
  - intros semantic [= <-]. repeat constructor; vm_compute; discriminate.
Defined.

End LoaderProperties.
